(** * cleanvid folder-watcher service ([cleanvid/service.py])

    A shallow embedding of the polling service and the proofs of the
    properties its design document states about it.

    First the definitions:
    - [Str], [PosixPath]: the [str] methods and [os.path] functions the
      service calls, on strings of 8-bit characters;
    - [Dict]: the insertion-ordered [dict] of the scanner;
    - [OS]: the library calls that reach outside the process, as an
      interface, and [event], the log of those calls;
    - [Service]: the service itself, in a monad that threads the state of
      the world and the in-memory store, raises Python exceptions and logs
      every call with the answer it received;
    - [MemOS]: an in-memory operating system, to run the service on
      concrete inputs, and [FaultyOS], the same with calls that fail;
    - the vocabulary the statements use.

    Then the facts: about strings and paths, about runs of the monad, and
    the theorems on the change detector, the output file, the scanner,
    the merge of the watch roots, one candidate (stability gate, idempotence,
    failure), the save of the store, the poll loop and the store's
    invariant; then on the configuration read from the environment, the
    start of [main], the outcome of an invocation, what the loop calls,
    where it looks and what it never calls, the cycles that an error cuts short, and the
    store file written and read back. *)

From Stdlib Require Import ZArith QArith Qround Ascii String List Lia Bool.
From stdpp Require Import base option list strings gmap.

Local Open Scope Z_scope.

#[local] Set Warnings "-clear-no-such-hyp".
#[local] Arguments Ascii.eqb : simpl never.
#[local] Arguments String.eqb : simpl never.

(* ===================================================================== *)
(** * Python [str] methods                                                 *)
(* ===================================================================== *)

(** File names are modelled as strings of 8-bit characters; [lower] acts on
    the ASCII letters, as [str.lower] does on ASCII text. *)
Module Str.

(** [s.startswith(c)] for a one-character prefix. *)
Definition startswith_char (c : ascii) (s : string) : bool :=
  match s with
  | String x _ => Ascii.eqb x c
  | EmptyString => false
  end.

(** [s.endswith(suf)] *)
Fixpoint endswith (s suf : string) : bool :=
  String.eqb s suf ||
  match s with
  | String _ r => endswith r suf
  | EmptyString => false
  end.

(** [s.endswith(tuple)] *)
Definition endswith_any (s : string) (sufs : list string) : bool :=
  existsb (endswith s) sufs.

(** [c in s] for one character. *)
Fixpoint contains (c : ascii) (s : string) : bool :=
  match s with
  | String x r => Ascii.eqb x c || contains c r
  | EmptyString => false
  end.

Definition lower_char (c : ascii) : ascii :=
  let n := N_of_ascii c in
  if ((65 <=? n) && (n <=? 90))%N then ascii_of_N (n + 32) else c.

(** [s.lower()] *)
Fixpoint lower (s : string) : string :=
  match s with
  | String c r => String (lower_char c) (lower r)
  | EmptyString => EmptyString
  end.

(** Python truthiness of a [str]: the empty string is falsy. *)
Definition truthy (s : string) : bool :=
  match s with EmptyString => false | _ => true end.

(** Whitespace for [str.strip]: the ASCII characters on which
    [str.isspace] holds (tab to carriage return, the four separators
    [\x1c] to [\x1f], and the space). *)
Definition is_space (c : ascii) : bool :=
  let n := N_of_ascii c in
  (((9 <=? n) && (n <=? 13)) || ((28 <=? n) && (n <=? 32)))%N.

(** [s.lstrip()] *)
Fixpoint lstrip (s : string) : string :=
  match s with
  | String c r => if is_space c then lstrip r else s
  | EmptyString => EmptyString
  end.

(** [s.rstrip()] *)
Fixpoint rstrip (s : string) : string :=
  match s with
  | EmptyString => ""
  | String c r =>
      match rstrip r with
      | EmptyString => if is_space c then "" else String c ""
      | r' => String c r'
      end
  end.

(** [s.strip()] *)
Definition strip (s : string) : string := rstrip (lstrip s).

(** [s.split(sep)] for a one-character separator: never the empty list. *)
Fixpoint split (sep : ascii) (s : string) : list string :=
  match s with
  | EmptyString => [""]
  | String c r =>
      if Ascii.eqb c sep then "" :: split sep r
      else match split sep r with
           | x :: xs => String c x :: xs
           | [] => [String c ""]
           end
  end.

(** [sep.join(l)] *)
Fixpoint join (sep : string) (l : list string) : string :=
  match l with
  | [] => ""
  | x :: r => match r with [] => x | _ => x +:+ sep +:+ join sep r end
  end.

End Str.

(* ===================================================================== *)
(** * [os.path] on POSIX ([posixpath], [genericpath])                      *)
(* ===================================================================== *)

Module PosixPath.
Import Str.

Definition is_sep (c : ascii) : bool := Ascii.eqb c "/".
Definition is_dot (c : ascii) : bool := Ascii.eqb c ".".

(** [(p[:i], p[i:])] with [i = p.rfind('/') + 1]: the split every function
    of [posixpath] starts from. *)
Fixpoint rsplit_sep (p : string) : string * string :=
  match p with
  | EmptyString => ("", "")
  | String c r =>
      let '(h, t) := rsplit_sep r in
      if is_sep c then (String c h, t)
      else match h with
           | EmptyString => ("", String c t)
           | _ => (String c h, t)
           end
  end.

(** [head == '/' * len(head)] *)
Fixpoint all_sep (s : string) : bool :=
  match s with
  | EmptyString => true
  | String c r => is_sep c && all_sep r
  end.

(** [head.rstrip('/')] *)
Fixpoint rstrip_sep (s : string) : string :=
  match s with
  | EmptyString => ""
  | String c r =>
      match rstrip_sep r with
      | EmptyString => if is_sep c then "" else String c ""
      | r' => String c r'
      end
  end.

(** The last two lines of [posixpath.dirname] (and of [split]):
    [if head and head != sep*len(head): head = head.rstrip(sep)]. *)
Definition norm_head (h : string) : string :=
  if truthy h && negb (all_sep h) then rstrip_sep h else h.

(** [os.path.basename(p)] *)
Definition basename (p : string) : string := snd (rsplit_sep p).

(** [os.path.dirname(p)] *)
Definition dirname (p : string) : string := norm_head (fst (rsplit_sep p)).

(** [os.path.join(a, b)] *)
Definition join (a b : string) : string :=
  if startswith_char "/" b then b
  else if negb (truthy a) || endswith a "/" then a +:+ b
  else a +:+ "/" +:+ b.

(** Split a file name at its last dot: [(t[:k], t[k:])] with
    [k = t.rfind('.')], and [(t, "")] when [t] has no dot. *)
Fixpoint rsplit_ext (t : string) : string * string :=
  match t with
  | EmptyString => ("", "")
  | String c r =>
      let '(root, ext) := rsplit_ext r in
      match ext with
      | EmptyString => if is_dot c then ("", String c r) else (String c root, "")
      | _ => (String c root, ext)
      end
  end.

Fixpoint all_dots (s : string) : bool :=
  match s with
  | EmptyString => true
  | String c r => is_dot c && all_dots r
  end.

(** [os.path.splitext(p)] ([genericpath._splitext] with [sep = '/'],
    [extsep = '.']): the extension starts at the last dot of the last path
    component, unless only dots precede it there. *)
Definition splitext (p : string) : string * string :=
  let '(h, t) := rsplit_sep p in
  let '(root, ext) := rsplit_ext t in
  match ext with
  | EmptyString => (p, "")
  | _ => if all_dots root then (p, "") else (h +:+ root, ext)
  end.

End PosixPath.

(* ===================================================================== *)
(** * Python values used by the service                                    *)
(* ===================================================================== *)

(** Exceptions. Every constructor is a subclass of [Exception]; [OSError]
    stands for itself and its subclasses ([FileNotFoundError],
    [PermissionError], ...). What is not an [Exception]
    ([KeyboardInterrupt], [SystemExit]) comes from outside the service and
    is not modelled. *)
Inductive exn := OSError | CalledProcessError | ValueError | OtherException.

Definition is_OSError (e : exn) : bool :=
  match e with OSError => true | _ => false end.
Definition is_CalledProcessError (e : exn) : bool :=
  match e with CalledProcessError => true | _ => false end.
(** [except Exception] *)
Definition is_Exception (e : exn) : bool := true.

(** What a library call gives back: a value, or an exception to raise. *)
Inductive answer (A : Type) := Val (a : A) | Err (e : exn).
Arguments Val {A} a.
Arguments Err {A} e.

(** [{'size': st.st_size, 'mtime': int(st.st_mtime)}] *)
Record fingerprint := Fingerprint { size : Z; mtime : Z }.

(** A record of the processed-files database, as line 192 of the service
    writes it: [{'video': vstat, 'subs': sstat, 'processed_at': t}], where
    [vstat] and [sstat] are a fingerprint or [None]. Such a dict has three
    keys, so it is truthy. *)
Record entry := Entry {
  video : option fingerprint;
  subs : option fingerprint;
  processed_at : Z
}.

#[global] Instance exn_eq_dec : EqDecision exn.
Proof. solve_decision. Defined.
#[global] Instance fingerprint_eq_dec : EqDecision fingerprint.
Proof. solve_decision. Defined.
#[global] Instance entry_eq_dec : EqDecision entry.
Proof. solve_decision. Defined.

(** [dict] as the scanner uses it: insertion-ordered, an assignment to a
    key already present keeps the key's place and replaces its value. *)
Module Dict.

Definition t (V : Type) := list (string * V).

Fixpoint set {V} (k : string) (v : V) (d : t V) : t V :=
  match d with
  | [] => [(k, v)]
  | (k', v') :: r => if String.eqb k' k then (k, v) :: r else (k', v') :: set k v r
  end.

Fixpoint get {V} (k : string) (d : t V) : option V :=
  match d with
  | [] => None
  | (k', v') :: r => if String.eqb k' k then Some v' else get k r
  end.

(** [list(d.items())] *)
Definition items {V} (d : t V) : list (string * V) := d.

End Dict.

(* ===================================================================== *)
(** * The operating system, as the service sees it                         *)
(* ===================================================================== *)

(** Every library call the service makes that reaches outside the process.
    A call takes the state of the world and gives back its answer and the
    next state; nothing is assumed about what the world does in between,
    so other processes may write files while the service runs.

    [os.path.isdir], [os.path.isfile] and [time.time] do not raise.
    [os_run] is the child process of [subprocess.run]: its answer is the
    exit status, or the exception raised when it cannot be started.
    [os_abspath] is [os.path.abspath], which asks for the working
    directory. Every call returns. *)
Class OS (W : Type) := {
  os_isdir : string → W → bool * W;
  os_isfile : string → W → bool * W;
  os_listdir : string → W → answer (list string) * W;
  os_getsize : string → W → answer Z * W;
  os_stat : string → W → answer fingerprint * W;
  os_abspath : string → W → answer string * W;
  os_time : W → Z * W;
  os_sleep : Q → W → unit * W;
  os_makedirs : string → W → answer unit * W;
  os_move : string → string → W → answer unit * W;
  os_run : list string → W → answer Z * W;
  os_open_w : string → W → answer unit * W;
  os_write : string → string → W → answer unit * W;
  os_close : string → W → answer unit * W;
  os_replace : string → string → W → answer unit * W;
  os_read : string → W → answer string * W
}.

(** One entry of the log of calls: the call and the answer it received. *)
Inductive event :=
  | EIsdir (p : string) (r : bool)
  | EIsfile (p : string) (r : bool)
  | EListdir (p : string) (r : answer (list string))
  | EGetsize (p : string) (r : answer Z)
  | EStat (p : string) (r : answer fingerprint)
  | EAbspath (p : string) (r : answer string)
  | ETime (r : Z)
  | ESleep (secs : Q) (r : unit)
  | EMakedirs (p : string) (r : answer unit)
  | EMove (src dst : string) (r : answer unit)
  | ERun (cmd : list string) (r : answer Z)
  | EOpenW (p : string) (r : answer unit)
  | EWrite (p chunk : string) (r : answer unit)
  | EClose (p : string) (r : answer unit)
  | EReplace (src dst : string) (r : answer unit)
  | ERead (p : string) (r : answer string).

(** The configuration [main] reads from the environment (lines 97-114).
    [poll_interval] is a [float]; the finite ones are rationals, and
    [nan] and the infinities are left out. *)
Record config := Config {
  watch_dirs : list string;
  output_dir : string;
  processed_dir : string;
  poll_interval : Q;
  preserve_input : bool;
  write_next_to_input : bool;
  swears_file : string;
  processed_db : string
}.

(* ===================================================================== *)
(** * The service                                                          *)
(* ===================================================================== *)

Module Service.
Import Str PosixPath.

Definition VIDEO_EXTS : list string :=
  [".mp4"; ".mkv"; ".avi"; ".mov"; ".wmv"; ".flv"; ".m4v"].

(** ** Pure parts *)

(** Lines 62-67 of [process]: where the cleaned file goes. *)
Definition out_file (video_path output_dir : string) (write_next_to_input : bool)
    : string :=
  let base := fst (splitext (basename video_path)) in
  let ext := snd (splitext video_path) in
  if write_next_to_input
  then join (dirname video_path) (base +:+ "_clean" +:+ ext)
  else join output_dir (base +:+ "_clean" +:+ ext).

(** Lines 176-185 of [main]: the decision [needs]. [db.get(key)] is [None]
    or a record; a record is a non-empty dict, so [not entry] holds exactly
    for [None]. *)
Definition needs_processing (e : option entry) (vstat sstat : option fingerprint)
    : bool :=
  match e with
  | None => true
  | Some e =>
      if bool_decide (video e ≠ vstat) then true
      else if bool_decide (subs e ≠ sstat) then true
      else false
  end.

(** [os.path.splitext(os.path.basename(v))[0]], the key of [video_map] and
    [subs_map]. *)
Definition stem (v : string) : string := fst (splitext (basename v)).

(** Lines 155-156 (and 157-158): [for v in ...: m[stem(v)] = v]. *)
Definition merge (paths : list string) (m : Dict.t string) : Dict.t string :=
  fold_left (λ m v, Dict.set (stem v) v m) paths m.

(** Lines 31-32: [env(name)], that is [os.environ.get(name, None)]. *)
Definition env (environ : gmap string string) (name : string) : option string :=
  environ !! name.

(** [env(name, default)] with a [str] default. *)
Definition env_or (environ : gmap string string) (name default : string) : string :=
  match environ !! name with Some v => v | None => default end.

(** Line 98: [[d.strip() for d in watch_dirs_env.split(',') if d.strip()]]. *)
Definition parse_watch_dirs (watch_dirs_env : string) : list string :=
  map strip (List.filter (λ d, truthy (strip d)) (split "," watch_dirs_env)).

(** Lines 103-104: [value.lower() in ('1', 'true', 'yes')]. *)
Definition parse_flag (value : string) : bool :=
  existsb (String.eqb (lower value)) ["1"; "true"; "yes"].

(** ** The monad: state, exceptions and the log of calls *)

(** How a piece of Python ends: with a value, or with an exception on its
    way up. *)
Inductive outcome (A : Type) := Ok (a : A) | Raise (e : exn).
Arguments Ok {A} a.
Arguments Raise {A} e.

Section WithOS.
Context {W : Type} `{HOS : OS W}.
(** [json.dump(db, fh, indent=2)] writes the text in chunks;
    [json.load] gives the store back or raises. A text that is not a
    store of records as line 192 writes them counts as one [json.load]
    rejects. *)
Variable json_chunks : gmap string entry → list string.
Variable json_loads : string → option (gmap string entry).
Variable cfg : config.

(** The world and the dict [db] of [main], which the loop mutates in
    place. *)
Record state := State { world : W; db : gmap string entry }.

Definition M (A : Type) : Type := state → outcome A * state * list event.

Definition ret {A} (a : A) : M A := λ s, (Ok a, s, []).
Definition raise {A} (e : exn) : M A := λ s, (Raise e, s, []).

Definition bind {A B} (m : M A) (k : A → M B) : M B := λ s,
  match m s with
  | (Ok a, s1, t1) => let '(o, s2, t2) := k a s1 in (o, s2, t1 ++ t2)
  | (Raise e, s1, t1) => (Raise e, s1, t1)
  end.

(** [try: m  except <class>: h] *)
Definition catch {A} (m : M A) (cls : exn → bool) (h : M A) : M A := λ s,
  match m s with
  | (Raise e, s1, t1) =>
      if cls e then let '(o, s2, t2) := h s1 in (o, s2, t1 ++ t2)
      else (Raise e, s1, t1)
  | r => r
  end.

(** [try: m  finally: f], which is what [with open(...)] does with
    [f = fh.close()]. *)
Definition finally {A} (m : M A) (f : M unit) : M A := λ s,
  let '(o, s1, t1) := m s in
  match f s1 with
  | (Ok _, s2, t2) => (o, s2, t1 ++ t2)
  | (Raise e, s2, t2) => (Raise e, s2, t1 ++ t2)
  end.

(** A library call: ask the world, log the call with its answer. *)
Definition call {A} (op : W → A * W) (ev : A → event) : M A := λ s,
  let '(a, w) := op (world s) in (Ok a, State w (db s), [ev a]).

(** A library call that may raise. *)
Definition call_exn {A} (op : W → answer A * W) (ev : answer A → event) : M A :=
  bind (call op ev) (λ a, match a with Val v => ret v | Err e => raise e end).

Definition get_db : M (gmap string entry) := λ s, (Ok (db s), s, []).
Definition set_db (d : gmap string entry) : M unit := λ s,
  (Ok tt, State (world s) d, []).

Notation "x <- m ;; k" := (bind m (λ x, k))
  (at level 100, m at next level, right associativity).
Notation "m ;;; k" := (bind m (λ _, k))
  (at level 100, right associativity).

(** [for x in l: body(x)] *)
Fixpoint for_each {A} (l : list A) (body : A → M unit) : M unit :=
  match l with
  | [] => ret tt
  | x :: r => body x ;;; for_each r body
  end.

(** A generator's loop: [for x in l: ... yield y], collected. *)
Fixpoint yield_each {A B} (l : list A) (body : A → M (option B)) : M (list B) :=
  match l with
  | [] => ret []
  | x :: r =>
      y <- body x ;;
      ys <- yield_each r body ;;
      ret (match y with Some b => b :: ys | None => ys end)
  end.

(** ** Library calls *)

Definition isdir (p : string) : M bool := call (os_isdir p) (EIsdir p).
Definition isfile (p : string) : M bool := call (os_isfile p) (EIsfile p).
Definition listdir (p : string) : M (list string) :=
  call_exn (os_listdir p) (EListdir p).
Definition getsize (p : string) : M Z := call_exn (os_getsize p) (EGetsize p).
Definition stat (p : string) : M fingerprint := call_exn (os_stat p) (EStat p).
Definition abspath (p : string) : M string := call_exn (os_abspath p) (EAbspath p).
Definition time_time : M Z := call os_time ETime.
Definition makedirs (p : string) : M unit := call_exn (os_makedirs p) (EMakedirs p).
Definition move (src dst : string) : M unit :=
  call_exn (os_move src dst) (EMove src dst).
Definition open_w (p : string) : M unit := call_exn (os_open_w p) (EOpenW p).
Definition write (p chunk : string) : M unit :=
  call_exn (os_write p chunk) (EWrite p chunk).
Definition close (p : string) : M unit := call_exn (os_close p) (EClose p).
Definition replace (src dst : string) : M unit :=
  call_exn (os_replace src dst) (EReplace src dst).
Definition read (p : string) : M string := call_exn (os_read p) (ERead p).

(** [time.sleep(secs)]: [ValueError] for a negative length, else the
    process waits. *)
Definition time_sleep (secs : Q) : M unit :=
  if Qle_bool 0 secs then call (os_sleep secs) (ESleep secs) else raise ValueError.

(** [subprocess.run(cmd, check=True, ...)]: [CalledProcessError] for a
    non-zero exit status. *)
Definition subprocess_run (cmd : list string) : M unit :=
  code <- call_exn (os_run cmd) (ERun cmd) ;;
  if code =? 0 then ret tt else raise CalledProcessError.

(** ** [service.py] *)

(** Lines 35-36. *)
Definition ensure_dir (path : string) : M unit := makedirs path.

(** The body of the loop of [find_videos] and [find_subs] (lines 43-47,
    54-58). *)
Definition keep_entry (path : string) (suffixes : list string) (entry : string)
    : M (option string) :=
  if startswith_char "." entry then ret None
  else
    let full := join path entry in
    f <- isfile full ;;
    if f && endswith_any (lower entry) suffixes then ret (Some full) else ret None.

(** Lines 39-47. *)
Definition find_videos (path : string) : M (list string) :=
  d <- isdir path ;;
  if negb d then ret []
  else entries <- listdir path ;; yield_each entries (keep_entry path VIDEO_EXTS).

(** Lines 50-58. *)
Definition find_subs (path : string) : M (list string) :=
  d <- isdir path ;;
  if negb d then ret []
  else entries <- listdir path ;; yield_each entries (keep_entry path [".srt"]).

(** [srt_path and os.path.isfile(srt_path)] (lines 70 and 83). *)
Definition srt_present (srt_path : option string) : M bool :=
  match srt_path with
  | Some p => if truthy p then isfile p else ret false
  | None => ret false
  end.

(** Lines 78-87 of [process]: the inputs go to the processed directory. *)
Definition relocate (video_path : string) (srt_path : option string)
    (processed_dir : string) : M unit :=
  ensure_dir processed_dir ;;;
  catch (move video_path (join processed_dir (basename video_path)))
        is_Exception (ret tt) ;;;
  has_srt <- srt_present srt_path ;;
  if has_srt then
    catch (move (default "" srt_path)
                (join processed_dir (basename (default "" srt_path))))
          is_Exception (ret tt)
  else ret tt.

(** Lines 61-91. Logging is not modelled. *)
Definition process (video_path : string) (srt_path : option string)
    (output_dir processed_dir swears_file : string)
    (preserve_input write_next_to_input : bool) : M bool :=
  let out := out_file video_path output_dir write_next_to_input in
  let cmd := ["cleanvid"; "-i"; video_path; "-o"; out; "-w"; swears_file] in
  has_srt <- srt_present srt_path ;;
  let cmd := if has_srt then cmd ++ ["-s"; default "" srt_path] else cmd in
  catch
    (subprocess_run cmd ;;;
     (if negb preserve_input
      then relocate video_path srt_path processed_dir
      else ret tt) ;;;
     ret true)
    is_CalledProcessError (ret false).

(** Lines 116-123. *)
Definition load_db : M (gmap string entry) :=
  r <- catch
        (f <- isfile (processed_db cfg) ;;
         if f then
           text <- read (processed_db cfg) ;;
           match json_loads text with
           | Some d => ret (Some d)
           | None => raise ValueError
           end
         else ret None)
        is_Exception (ret None) ;;
  ret (default ∅ r).

(** Lines 125-132. *)
Definition save_db (d : gmap string entry) : M unit :=
  catch
    (let tmp := processed_db cfg +:+ ".tmp" in
     open_w tmp ;;;
     finally (for_each (json_chunks d) (write tmp)) (close tmp) ;;;
     replace tmp (processed_db cfg))
    is_Exception (ret tt).

(** Lines 134-139. *)
Definition stat_info (path : string) : M (option fingerprint) :=
  catch (st <- stat path ;; ret (Some st)) is_Exception (ret None).

(** Lines 154-158: the scan of the watch roots. *)
Fixpoint scan (dirs : list string) (video_map subs_map : Dict.t string)
    : M (Dict.t string * Dict.t string) :=
  match dirs with
  | [] => ret (video_map, subs_map)
  | d :: rest =>
      vs <- find_videos d ;;
      let video_map := merge vs video_map in
      ss <- find_subs d ;;
      let subs_map := merge ss subs_map in
      scan rest video_map subs_map
  end.

(** Lines 163-170: the two size samples. [None] is [continue]. *)
Definition stability_samples (vpath : string) : M (option (Z * Z)) :=
  catch
    (s1 <- getsize vpath ;;
     time_sleep 1 ;;;
     s2 <- getsize vpath ;;
     ret (Some (s1, s2)))
    is_OSError (ret None).

(** Lines 190-193. *)
Definition process_and_record (vpath : string) (srt : option string)
    (key : string) (vstat sstat : option fingerprint) : M unit :=
  ok <- process vpath srt (output_dir cfg) (processed_dir cfg) (swears_file cfg)
         (preserve_input cfg) (write_next_to_input cfg) ;;
  if ok then
    now <- time_time ;;
    d <- get_db ;;
    set_db (<[key := Entry vstat sstat now]> d) ;;;
    d <- get_db ;;
    save_db d
  else ret tt.

(** Lines 161-193: the body of the loop over [video_map.items()]. *)
Definition handle_candidate (subs_map : Dict.t string) (item : string * string)
    : M unit :=
  let '(base, vpath) := item in
  let srt := Dict.get base subs_map in
  samples <- stability_samples vpath ;;
  match samples with
  | None => ret tt
  | Some (s1, s2) =>
      if negb (s1 =? s2) then ret tt
      else
        key <- abspath vpath ;;
        vstat <- stat_info vpath ;;
        sstat <- (match srt with
                 | Some p => if truthy p then stat_info p else ret None
                 | None => ret None
                 end) ;;
        d <- get_db ;;
        let entry := d !! key in
        if negb (needs_processing entry vstat sstat) then ret tt
        else process_and_record vpath srt key vstat sstat
  end.

(** Lines 152-193: what the [try] of the loop encloses. *)
Definition cycle : M unit :=
  maps <- scan (watch_dirs cfg) [] [] ;;
  let '(video_map, subs_map) := maps in
  for_each (Dict.items video_map) (handle_candidate subs_map).

(** Lines 151-196: one turn of [while True]. *)
Definition loop_body : M unit :=
  catch cycle is_Exception (ret tt) ;;;
  time_sleep (poll_interval cfg).

(** The first [n] turns of [while True]. *)
Fixpoint main_loop (n : nat) : M unit :=
  match n with
  | O => ret tt
  | S n => loop_body ;;; main_loop n
  end.

(** Lines 141-146: the start of [main], once the configuration is read. *)
Definition startup : M unit :=
  d <- load_db ;;
  set_db d ;;;
  for_each (watch_dirs cfg) ensure_dir ;;;
  ensure_dir (output_dir cfg) ;;;
  ensure_dir (processed_dir cfg).

(** Lines 141-196: [main], up to the first [n] turns of its loop. *)
Definition main (n : nat) : M unit := startup ;;; main_loop n.

(** Lines 97-114: the configuration, read from the environment. The
    number [float(env('CLEANVID_POLL_INTERVAL', '10'))] of line 101 is
    given as [poll]; [module_file] is [__file__]. *)
Definition read_config (environ : gmap string string) (module_file : string)
    (poll : Q) : M config :=
  let watch_dirs_env :=
    env_or environ "CLEANVID_WATCH_DIRS" "/data/in,/data/usb1,/data/usb2" in
  let watch_dirs := parse_watch_dirs watch_dirs_env in
  let output_dir := env_or environ "CLEANVID_OUTPUT_DIR" "/data/out" in
  let processed_dir := env_or environ "CLEANVID_PROCESSED_DIR" "/data/processed" in
  let preserve_input :=
    parse_flag (env_or environ "CLEANVID_PRESERVE_INPUT" "true") in
  let write_next_to_input :=
    parse_flag (env_or environ "CLEANVID_WRITE_OUTPUT_NEXT_TO_INPUT" "true") in
  let swears_file := env environ "CLEANVID_SWEARS_FILE" in
  swears_file <-
    (if negb (from_option truthy false swears_file) then
       let mounted := join "/data" "swears.txt" in
       f <- isfile mounted ;;
       if f then ret mounted
       else ret (join (dirname module_file) "swears.txt")
     else ret (default "" swears_file)) ;;
  let processed_db :=
    env_or environ "CLEANVID_DB" (join "/data" ".cleanvid_processed.json") in
  ret (Config watch_dirs output_dir processed_dir poll preserve_input
         write_next_to_input swears_file processed_db).

End WithOS.

(** Lines 94-196: [main] from the environment, up to the first [n] turns
    of its loop. *)
Definition main_env {W : Type} `{HOS : OS W}
    (json_chunks : gmap string entry → list string)
    (json_loads : string → option (gmap string entry))
    (environ : gmap string string) (module_file : string) (poll : Q) (n : nat)
    : M unit :=
  bind (read_config environ module_file poll)
       (λ cfg, main json_chunks json_loads cfg n).

End Service.

(* ===================================================================== *)
(** * An in-memory operating system                                        *)
(* ===================================================================== *)

(** A small file system to run the service on: regular files by path, with
    their text and modification time, a set of directories, a clock, files
    that another process is still writing (they grow at every sleep), and
    a [cleanvid] that exits with a fixed status, or cannot be started. *)
Module MemOS.
Import Str PosixPath.

Record mem := Mem {
  files : gmap string (string * Z);
  dirs : gset string;
  clock : Z;
  growing : list string;
  exit_status : answer Z
}.

Definition content (w : mem) (p : string) : option string := fst <$> files w !! p.

Definition with_files (w : mem) (f : gmap string (string * Z)) : mem :=
  Mem f (dirs w) (clock w) (growing w) (exit_status w).

Definition m_isdir (p : string) (w : mem) : bool * mem :=
  (bool_decide (p ∈ dirs w), w).

Definition m_isfile (p : string) (w : mem) : bool * mem :=
  (bool_decide (is_Some (files w !! p)), w).

Definition m_listdir (p : string) (w : mem) : answer (list string) * mem :=
  if bool_decide (p ∈ dirs w)
  then (Val (basename <$> filter (λ k, dirname k = p) (map_to_list (files w)).*1), w)
  else (Err OSError, w).

Definition m_getsize (p : string) (w : mem) : answer Z * mem :=
  match files w !! p with
  | Some (text, _) => (Val (Z.of_nat (String.length text)), w)
  | None => (Err OSError, w)
  end.

Definition m_stat (p : string) (w : mem) : answer fingerprint * mem :=
  match files w !! p with
  | Some (text, t) => (Val (Fingerprint (Z.of_nat (String.length text)) t), w)
  | None => (Err OSError, w)
  end.

Definition m_abspath (p : string) (w : mem) : answer string * mem := (Val p, w).

Definition m_time (w : mem) : Z * mem := (clock w, w).

Definition grow (now : Z) (f : gmap string (string * Z)) (p : string)
    : gmap string (string * Z) :=
  match f !! p with
  | Some (text, _) => <[p := (text +:+ "x", now)]> f
  | None => f
  end.

Definition m_sleep (secs : Q) (w : mem) : unit * mem :=
  let now := clock w + Qceiling secs in
  (tt, Mem (fold_left (grow now) (growing w) (files w)) (dirs w) now
           (growing w) (exit_status w)).

Definition m_makedirs (p : string) (w : mem) : answer unit * mem :=
  (Val tt, Mem (files w) ({[p]} ∪ dirs w) (clock w) (growing w) (exit_status w)).

Definition m_move (src dst : string) (w : mem) : answer unit * mem :=
  match files w !! src with
  | Some f => (Val tt, with_files w (<[dst := f]> (delete src (files w))))
  | None => (Err OSError, w)
  end.

Definition m_run (cmd : list string) (w : mem) : answer Z * mem :=
  match cmd with
  | "cleanvid" :: "-i" :: input :: "-o" :: output :: _ =>
      match exit_status w with
      | Val 0 => (Val 0, with_files w (<[output := ("clean", clock w)]> (files w)))
      | a => (a, w)
      end
  | _ => (Err OSError, w)
  end.

Definition m_open_w (p : string) (w : mem) : answer unit * mem :=
  (Val tt, with_files w (<[p := ("", clock w)]> (files w))).

Definition m_write (p chunk : string) (w : mem) : answer unit * mem :=
  match files w !! p with
  | Some (text, _) => (Val tt, with_files w (<[p := (text +:+ chunk, clock w)]> (files w)))
  | None => (Err OSError, w)
  end.

Definition m_close (p : string) (w : mem) : answer unit * mem := (Val tt, w).

Definition m_read (p : string) (w : mem) : answer string * mem :=
  match files w !! p with
  | Some (text, _) => (Val text, w)
  | None => (Err OSError, w)
  end.

#[global] Instance mem_os : OS mem := {|
  os_isdir := m_isdir;
  os_isfile := m_isfile;
  os_listdir := m_listdir;
  os_getsize := m_getsize;
  os_stat := m_stat;
  os_abspath := m_abspath;
  os_time := m_time;
  os_sleep := m_sleep;
  os_makedirs := m_makedirs;
  os_move := m_move;
  os_run := m_run;
  os_open_w := m_open_w;
  os_write := m_write;
  os_close := m_close;
  os_replace := m_move;
  os_read := m_read
|}.

(** A stand-in for [json.dump]: one chunk per key, and for [json.load]: a
    reader that accepts the empty store only. *)
Definition chunks (d : gmap string entry) : list string :=
  ["{"] ++ (map_to_list d).*1 ++ ["}"].

Definition loads (text : string) : option (gmap string entry) :=
  if String.eqb text "{}" then Some ∅ else None.

Definition cfg0 : config := {|
  watch_dirs := ["/data/in"; "/data/usb1"];
  output_dir := "/data/out";
  processed_dir := "/data/processed";
  poll_interval := 10;
  preserve_input := true;
  write_next_to_input := true;
  swears_file := "/data/swears.txt";
  processed_db := "/data/.cleanvid_processed.json"
|}.

(** Two watch roots; [movie.mkv] with its subtitle, a hidden file, a text
    file, and [clip.MP4], which is still being copied. *)
Definition w0 : mem := {|
  files := list_to_map [
    ("/data/in/movie.mkv", ("0123456789", 100));
    ("/data/in/movie.srt", ("subs", 101));
    ("/data/in/.hidden.mp4", ("h", 102));
    ("/data/in/notes.txt", ("n", 103));
    ("/data/usb1/clip.MP4", ("01234", 104))
  ];
  dirs := {["/data/in"; "/data/usb1"; "/data/out"; "/data/processed"]};
  clock := 1000;
  growing := ["/data/usb1/clip.MP4"];
  exit_status := Val 0
|}.

Definition s0 : Service.state := Service.State w0 ∅.

(** The same, with a store file saved earlier. *)
Definition w_saved : mem :=
  with_files w0 (<["/data/.cleanvid_processed.json" := ("{}", 900)]> (files w0)).

(** The same, with a [cleanvid] that fails. *)
Definition w_fail : mem :=
  Mem (files w0) (dirs w0) (clock w0) (growing w0) (Val 1).

(** The same, without [cleanvid] on the path. *)
Definition w_missing : mem :=
  Mem (files w0) (dirs w0) (clock w0) (growing w0) (Err OSError).

(** The store once [movie.mkv] and its subtitle have been processed. *)
Definition db1 : gmap string entry :=
  {["/data/in/movie.mkv" :=
      Entry (Some (Fingerprint 10 100)) (Some (Fingerprint 4 101)) 1001]}.

(** The same, with a second [movie] on the USB root. *)
Definition w2 : mem :=
  with_files w0 (<["/data/usb1/movie.avi" := ("other", 105)]> (files w0)).

(** The same, once [movie.mkv] has been cleaned next to its input. *)
Definition w1 : mem :=
  with_files w0 (<["/data/in/movie_clean.mkv" := ("clean", 1001)]> (files w0)).

(** A configuration with a negative poll interval
    ([CLEANVID_POLL_INTERVAL=-1]). *)
Definition cfg_negative : config := {|
  watch_dirs := watch_dirs cfg0;
  output_dir := output_dir cfg0;
  processed_dir := processed_dir cfg0;
  poll_interval := -1;
  preserve_input := preserve_input cfg0;
  write_next_to_input := write_next_to_input cfg0;
  swears_file := swears_file cfg0;
  processed_db := processed_db cfg0
|}.

(** A configuration that moves the inputs after success and writes the
    outputs to the output directory. *)
Definition cfg_move : config := {|
  watch_dirs := ["/data/in"];
  output_dir := "/data/out";
  processed_dir := "/data/processed";
  poll_interval := 10;
  preserve_input := false;
  write_next_to_input := false;
  swears_file := "/data/swears.txt";
  processed_db := "/data/db.json"
|}.

End MemOS.

(** The in-memory system with faults: on chosen paths the listing of a
    directory, the creation of a directory or the opening of a file for
    writing fails with [OSError]. *)
Module FaultyOS.

Record faulty := Faulty {
  base : MemOS.mem;
  unlistable : list string;
  uncreatable : list string;
  unwritable : list string
}.

Definition lift {A} (op : MemOS.mem → A * MemOS.mem) (w : faulty) : A * faulty :=
  let '(a, m) := op (base w) in
  (a, Faulty m (unlistable w) (uncreatable w) (unwritable w)).

Definition f_listdir (p : string) (w : faulty) : answer (list string) * faulty :=
  if bool_decide (p ∈ unlistable w) then (Err OSError, w)
  else lift (MemOS.m_listdir p) w.

Definition f_makedirs (p : string) (w : faulty) : answer unit * faulty :=
  if bool_decide (p ∈ uncreatable w) then (Err OSError, w)
  else lift (MemOS.m_makedirs p) w.

Definition f_open_w (p : string) (w : faulty) : answer unit * faulty :=
  if bool_decide (p ∈ unwritable w) then (Err OSError, w)
  else lift (MemOS.m_open_w p) w.

#[global] Instance faulty_os : OS faulty := {|
  os_isdir p := lift (MemOS.m_isdir p);
  os_isfile p := lift (MemOS.m_isfile p);
  os_listdir := f_listdir;
  os_getsize p := lift (MemOS.m_getsize p);
  os_stat p := lift (MemOS.m_stat p);
  os_abspath p := lift (MemOS.m_abspath p);
  os_time := lift MemOS.m_time;
  os_sleep secs := lift (MemOS.m_sleep secs);
  os_makedirs := f_makedirs;
  os_move src dst := lift (MemOS.m_move src dst);
  os_run cmd := lift (MemOS.m_run cmd);
  os_open_w := f_open_w;
  os_write p chunk := lift (MemOS.m_write p chunk);
  os_close p := lift (MemOS.m_close p);
  os_replace src dst := lift (MemOS.m_move src dst);
  os_read p := lift (MemOS.m_read p)
|}.

(** The file system of [MemOS.w0] with nothing failing. *)
Definition sound : faulty := Faulty MemOS.w0 [] [] [].

End FaultyOS.

(* ===================================================================== *)
(** * The vocabulary of the statements                                     *)
(* ===================================================================== *)

Import Str PosixPath Service.

(** An extension of the allow-lists: a dot, then text without a dot. *)
Definition dotted (x : string) : bool :=
  match x with
  | String c xb => is_dot c && negb (contains "." xb)
  | EmptyString => false
  end.

(** The last of [paths] with the stem [k]. *)
Definition last_with_stem (k : string) (paths : list string) : option string :=
  last (filter (λ p, stem p = k) paths).

(** Kinds of calls. *)
Definition is_run (ev : event) : bool :=
  match ev with ERun _ _ => true | _ => false end.
Definition is_move (ev : event) : bool :=
  match ev with EMove _ _ _ => true | _ => false end.
Definition is_store_write (ev : event) : bool :=
  match ev with
  | EOpenW _ _ | EWrite _ _ _ | EClose _ _ | EReplace _ _ _ => true
  | _ => false
  end.
Definition is_relocation (ev : event) : bool :=
  match ev with
  | EMakedirs _ _ | EMove _ _ _ | EIsfile _ _ => true
  | _ => false
  end.

(** Calls that belong to the invocation and to the commit of its result. *)
Definition is_action (ev : event) : bool :=
  is_run ev || is_move ev || is_store_write ev.

(** [None] for a failed [os.stat], as [stat_info] has it. *)
Definition fp_of (a : answer fingerprint) : option fingerprint :=
  match a with Val fp => Some fp | Err _ => None end.

(** The sleeps of a given length in a trace. *)
Definition is_sleep_of (secs : Q) (ev : event) : bool :=
  match ev with ESleep q _ => Qeq_bool q secs | _ => false end.

Definition count_sleeps (secs : Q) (tr : list event) : nat :=
  length (List.filter (is_sleep_of secs) tr).

(** The calls of a save that got as far as the rename: the temporary file
    is opened, every chunk of the store is written to it, it is closed. *)
Definition written (tmp : string) (chunks : list string) : list event :=
  EOpenW tmp (Val tt) :: ((λ c, EWrite tmp c (Val tt)) <$> chunks)
    ++ [EClose tmp (Val tt)].

(** A call that opens, writes or closes the file [tmp]. *)
Definition touches (tmp : string) (ev : event) : Prop :=
  match ev with
  | EOpenW p _ | EWrite p _ _ | EClose p _ => p = tmp
  | _ => False
  end.

(** The fingerprint taken of the paired subtitle (line 174): the calls made
    and the value. *)
Definition measured (srt : option string) (stats : list event)
    (sstat : option fingerprint) : Prop :=
  match srt with
  | Some p =>
      if truthy p then ∃ a, stats = [EStat p a] ∧ sstat = fp_of a
      else stats = [] ∧ sstat = None
  | None => stats = [] ∧ sstat = None
  end.

(** What one pass over the listing [entries] of [path] does: [checks] are
    file tests on children of [path] and nothing else; every path yielded
    is a listed child that is not hidden, has one of the suffixes and was
    seen to be a regular file; and every such child is yielded if all the
    tests made on it said it is a regular file. *)
Definition yields_children (path : string) (sufs entries : list string)
    (checks : list event) (vs : list string) : Prop :=
  (∀ ev, ev ∈ checks → ∃ e b, e ∈ entries ∧ ev = EIsfile (join path e) b)
  ∧ (∀ v, v ∈ vs →
       ∃ e, e ∈ entries ∧ v = join path e ∧ startswith_char "." e = false
            ∧ endswith_any (lower e) sufs = true ∧ EIsfile v true ∈ checks)
  ∧ (∀ e, e ∈ entries → startswith_char "." e = false →
       endswith_any (lower e) sufs = true →
       (∀ b, EIsfile (join path e) b ∈ checks → b = true) →
       join path e ∈ vs).

(** The three ways a scan of one root ends. *)
Definition scanned (path : string) (sufs : list string)
    (o : outcome (list string)) (tr : list event) : Prop :=
  (tr = [EIsdir path false] ∧ o = Ok [])
  ∨ (∃ e, tr = [EIsdir path true; EListdir path (Err e)] ∧ o = Raise e)
  ∨ (∃ entries checks vs,
       tr = EIsdir path true :: EListdir path (Val entries) :: checks
       ∧ o = Ok vs ∧ yields_children path sufs entries checks vs).

(** The command line of line 69, before the subtitle option. *)
Definition cmdline (cfg : config) (v : string) : list string :=
  ["cleanvid"; "-i"; v; "-o";
   out_file v (output_dir cfg) (write_next_to_input cfg); "-w"; swears_file cfg].

(** A path the scanner can yield for one of the roots [dirs]: a listed
    entry that is not hidden and has one of the suffixes, joined to its
    root. *)
Definition under_root (dirs sufs : list string) (v : string) : Prop :=
  ∃ d e, d ∈ dirs ∧ v = join d e ∧ startswith_char "." e = false
         ∧ endswith_any (lower e) sufs = true.

(** The two maps of a cycle: every path is filed under its own stem and
    comes from a watch root. *)
Definition maps_ok (dirs : list string) (vm sm : Dict.t string) : Prop :=
  (∀ k v, (k, v) ∈ vm → stem v = k ∧ under_root dirs VIDEO_EXTS v)
  ∧ (∀ k p, Dict.get k sm = Some p → stem p = k ∧ under_root dirs [".srt"] p).

(** A property of every call of a trace, given the calls before it. *)
Definition obeys (P : list event → event → Prop) (tr : list event) : Prop :=
  ∀ t1 ev t2, tr = t1 ++ ev :: t2 → P t1 ev.

(** Calls that ask and change nothing in the service: the scanner's, and
    the sleeps. *)
Definition is_quiet (ev : event) : bool :=
  match ev with
  | EIsdir _ _ | EListdir _ _ | EIsfile _ _ | ESleep _ _ => true
  | _ => false
  end.

(** The calls made on a candidate before the invocation: sizes and the
    absolute path are asked of the video, fingerprints of the video and of
    its subtitle. *)
Definition probe_ok (v : string) (srt : option string) (ev : event) : Prop :=
  match ev with
  | EGetsize p _ | EAbspath p _ => p = v
  | EStat p _ => p = v ∨ srt = Some p
  | ESleep _ _ => True
  | _ => False
  end.

(** What [relocate] may call for the video [v] and its subtitle. *)
Definition reloc_ok (v : string) (srt : option string) (pd : string)
    (ev : event) : Prop :=
  match ev with
  | EMakedirs p _ => p = pd
  | EMove src dst _ => dst = join pd (basename src) ∧ (src = v ∨ srt = Some src)
  | EIsfile p _ => srt = Some p
  | _ => False
  end.

(** Calls on files opened by the service itself: only the temporary file
    of the store is opened, written and closed, only it is renamed, and
    only onto the store file; nothing is read. *)
Definition store_call_ok (cfg : config) (ev : event) : Prop :=
  match ev with
  | EOpenW p _ | EWrite p _ _ | EClose p _ => p = processed_db cfg +:+ ".tmp"
  | EReplace src dst _ =>
      src = processed_db cfg +:+ ".tmp" ∧ dst = processed_db cfg
  | ERead _ _ => False
  | _ => True
  end.

(** A move, given the calls before it: inputs are not preserved, the file
    goes to the processed directory under its own name, and a [cleanvid]
    run on a video with the same stem has exited with status zero. *)
Definition move_ok (cfg : config) (before : list event) (ev : event) : Prop :=
  match ev with
  | EMove src dst _ =>
      preserve_input cfg = false
      ∧ dst = join (processed_dir cfg) (basename src)
      ∧ ∃ v tail, ERun (cmdline cfg v ++ tail) (Val 0) ∈ before
                  ∧ stem src = stem v
  | EMakedirs p _ =>
      preserve_input cfg = false ∧ p = processed_dir cfg
      ∧ ∃ cmd, ERun cmd (Val 0) ∈ before
  | _ => True
  end.

(** An invocation: [cleanvid] on a video of a watch root, with the
    subtitle of the same stem, if any. *)
Definition run_ok (cfg : config) (ev : event) : Prop :=
  match ev with
  | ERun cmd _ =>
      ∃ v tail, cmd = cmdline cfg v ++ tail
        ∧ under_root (watch_dirs cfg) VIDEO_EXTS v
        ∧ (tail = []
           ∨ ∃ p, tail = ["-s"; p] ∧ stem p = stem v
                  ∧ under_root (watch_dirs cfg) [".srt"] p)
  | _ => True
  end.

(** [''.join(chunks)]: the text a complete [json.dump] leaves in the file. *)
Definition text_of (chunks : list string) : string :=
  fold_right String.append "" chunks.

(** What [process] returns, read from the answer [a] of the invocation and
    the calls [post] made after it: [True] for an exit status zero, unless
    the processed directory cannot be created; [False] for another exit
    status or a [CalledProcessError]; any other exception goes up. *)
Definition process_result (pres : bool) (pd : string) (a : answer Z)
    (post : list event) (o : outcome bool) : Prop :=
  match a with
  | Val code =>
      if code =? 0 then
        if pres then post = [] ∧ o = Ok true
        else ∃ am rest, post = EMakedirs pd am :: rest
               ∧ (∀ p r, EMakedirs p r ∉ rest)
               ∧ match am with
                 | Val _ => o = Ok true
                 | Err e =>
                     rest = []
                     ∧ o = if is_CalledProcessError e then Ok false
                           else Raise e
                 end
      else post = [] ∧ o = Ok false
  | Err e =>
      post = [] ∧ o = if is_CalledProcessError e then Ok false else Raise e
  end.

(** Where the service looks: the directories it tests and lists are
    watch roots, and the files it tests, measures or resolves are joined
    to a watch root. *)
Definition looks_ok (dirs : list string) (ev : event) : Prop :=
  match ev with
  | EIsdir p _ | EListdir p _ => p ∈ dirs
  | EIsfile p _ | EGetsize p _ | EStat p _ | EAbspath p _ =>
      ∃ d e, d ∈ dirs ∧ p = join d e
  | _ => True
  end.

(** Calls of the scanner that look at a directory. *)
Definition is_listing (ev : event) : bool :=
  match ev with EIsdir _ _ | EListdir _ _ => true | _ => false end.

(** The calls of a run that creates the directories [ds], each with
    success. *)
Definition created (ds : list string) : list event :=
  (λ d, EMakedirs d (Val tt)) <$> ds.

(** The video a [cleanvid] command line names after [-i]. *)
Definition run_input (ev : event) : option string :=
  match ev with
  | ERun (_ :: _ :: v :: _) _ => Some v
  | _ => None
  end.

(** The videos of the invocations of a trace, in order. *)
Definition run_inputs (tr : list event) : list string := omap run_input tr.

Section Vocabulary.
Context {W : Type} `{HOS : OS W}.
Variable cfg : config.

Local Abbreviation st := (@state W).

(** A program that ends without raising. *)
Definition completes {A} (m : M A) (s : st) : Prop :=
  ∃ a s' tr, m s = (Ok a, s', tr).

(** What each watch root yields, in the order of the scan: the calls of
    [scan], without the two maps. *)
Fixpoint collect (dirs : list string) : M (list (list string * list string)) :=
  match dirs with
  | [] => ret []
  | d :: rest =>
      bind (find_videos d) (λ vs,
      bind (find_subs d) (λ ss,
      bind (collect rest) (λ ys, ret ((vs, ss) :: ys))))
  end.

(** What a candidate that passed the gate goes through: its key, its
    fingerprints, the decision, and the invocation if the decision is
    true. *)
Definition detected (subs_map : Dict.t string) (base vpath : string)
    (s s' : st) (o : outcome unit) (rest : list event) : Prop :=
  (∃ e, rest = [EAbspath vpath (Err e)] ∧ o = Raise e ∧ db s' = db s)
  ∨ ∃ key av stats sstat rest2,
      rest = EAbspath vpath (Val key) :: EStat vpath av :: stats ++ rest2
      ∧ measured (Dict.get base subs_map) stats sstat
      ∧ if needs_processing (db s !! key) (fp_of av) sstat
        then ∃ pre cmd a post, rest2 = pre ++ ERun cmd a :: post
               ∧ (∀ ev, ev ∈ pre → ∃ p b, ev = EIsfile p b)
               ∧ (∀ ev, ev ∈ post → is_run ev = false)
               ∧ (∃ tail, cmd = ["cleanvid"; "-i"; vpath; "-o";
                                 out_file vpath (output_dir cfg)
                                   (write_next_to_input cfg);
                                 "-w"; swears_file cfg] ++ tail)
               ∧ (db s' = db s
                  ∨ (a = Val 0
                     ∧ ∃ now, db s' = <[key := Entry (fp_of av) sstat now]> (db s)))
               ∧ (a ≠ Val 0 →
                  post = [] ∧ db s' = db s ∧ ∀ code, a = Val code → o = Ok tt)
        else rest2 = [] ∧ o = Ok tt ∧ db s' = db s.

(** The effect on the world of the call an event logs. *)
Definition apply_event (ev : event) (w : W) : W :=
  match ev with
  | EIsdir p _ => (os_isdir p w).2
  | EIsfile p _ => (os_isfile p w).2
  | EListdir p _ => (os_listdir p w).2
  | EGetsize p _ => (os_getsize p w).2
  | EStat p _ => (os_stat p w).2
  | EAbspath p _ => (os_abspath p w).2
  | ETime _ => (os_time w).2
  | ESleep secs _ => (os_sleep secs w).2
  | EMakedirs p _ => (os_makedirs p w).2
  | EMove src dst _ => (os_move src dst w).2
  | ERun cmd _ => (os_run cmd w).2
  | EOpenW p _ => (os_open_w p w).2
  | EWrite p chunk _ => (os_write p chunk w).2
  | EClose p _ => (os_close p w).2
  | EReplace src dst _ => (os_replace src dst w).2
  | ERead p _ => (os_read p w).2
  end.

(** The world after the calls of a trace. A run that is interrupted after
    its first [k] calls leaves the world [replay w (take k tr)]. *)
Definition replay (w : W) (tr : list event) : W :=
  fold_left (λ w ev, apply_event ev w) tr w.

(** A program whose final world is the replay of its trace. *)
Definition faithful {A} (m : M A) : Prop :=
  ∀ (s s' : st) o tr, m s = (o, s', tr) → world s' = replay (world s) tr.

(** Every record of the store after a run was in the store before it, or
    was written during it for a video whose measured fingerprint it holds,
    after a [cleanvid] on that video exited with status zero. *)
Definition records_are_successes (s s' : st) (tr : list event) : Prop :=
  ∀ key e, db s' !! key = Some e →
    db s !! key = Some e
    ∨ ∃ vpath av cmd tail,
        EAbspath vpath (Val key) ∈ tr ∧ EStat vpath av ∈ tr
        ∧ video e = fp_of av ∧ ERun cmd (Val 0) ∈ tr
        ∧ cmd = ["cleanvid"; "-i"; vpath; "-o";
                 out_file vpath (output_dir cfg) (write_next_to_input cfg);
                 "-w"; swears_file cfg] ++ tail.

End Vocabulary.

(* ===================================================================== *)
(** * Facts about the string and path functions                            *)
(* ===================================================================== *)

Module StrFacts.
Import Str.

Lemma app_cons (c : ascii) (r s : string) : String c r +:+ s = String c (r +:+ s).
Proof. reflexivity. Qed.

Lemma app_nil_l (s : string) : "" +:+ s = s.
Proof. reflexivity. Qed.

Lemma app_nil_r (s : string) : s +:+ "" = s.
Proof. induction s as [|c r IH]; [done|]. by rewrite app_cons, IH. Qed.

Lemma app_assoc (a b c : string) : (a +:+ b) +:+ c = a +:+ b +:+ c.
Proof. induction a as [|x r IH]; [done|]. by rewrite !app_cons, IH. Qed.

Lemma app_eq_nil (a b : string) : a +:+ b = "" → a = "" ∧ b = "".
Proof. destruct a; [done|]. rewrite app_cons. discriminate. Qed.

Lemma endswith_nil (suf : string) : endswith "" suf = String.eqb "" suf.
Proof. unfold endswith. apply orb_false_r. Qed.

Lemma endswith_cons (c : ascii) (r suf : string) :
  endswith (String c r) suf = String.eqb (String c r) suf || endswith r suf.
Proof. reflexivity. Qed.

Lemma endswith_spec (s suf : string) :
  endswith s suf = true ↔ ∃ pre, s = pre +:+ suf.
Proof.
  induction s as [|c r IH].
  - rewrite endswith_nil, String.eqb_eq. split.
    + intros <-. by exists "".
    + intros [pre H]. symmetry in H. by apply app_eq_nil in H as [_ ->].
  - rewrite endswith_cons, orb_true_iff, String.eqb_eq, IH. split.
    + intros [<-|[pre ->]]; [by exists ""|]. by exists (String c pre).
    + intros [[|x pre] H]; [left; by rewrite H|].
      rewrite app_cons in H. injection H as -> ->. right. by exists pre.
Qed.

Lemma contains_app (c : ascii) (a b : string) :
  contains c (a +:+ b) = contains c a || contains c b.
Proof.
  induction a as [|x r IH]; [done|].
  rewrite app_cons. simpl. by rewrite IH, orb_assoc.
Qed.

Lemma lower_app (a b : string) : lower (a +:+ b) = lower a +:+ lower b.
Proof. induction a as [|x r IH]; [done|]. rewrite !app_cons. simpl. by rewrite IH. Qed.

Lemma lower_char_fixes (c x : ascii) :
  (N_of_ascii x < 65 ∨ 90 < N_of_ascii x)%N →
  (N_of_ascii x < 97 ∨ 122 < N_of_ascii x)%N →
  lower_char c = x ↔ c = x.
Proof.
  intros Hup Hlo. unfold lower_char.
  destruct ((65 <=? N_of_ascii c) && (N_of_ascii c <=? 90))%N eqn:E.
  - apply andb_true_iff in E as [E1%N.leb_le E2%N.leb_le]. split.
    + intros <-. rewrite N_ascii_embedding in Hlo; lia.
    + intros ->. lia.
  - done.
Qed.

Lemma lower_char_dot (c : ascii) : lower_char c = "."%char ↔ c = "."%char.
Proof. apply lower_char_fixes; cbn; lia. Qed.

Lemma lower_char_sep (c : ascii) : lower_char c = "/"%char ↔ c = "/"%char.
Proof. apply lower_char_fixes; cbn; lia. Qed.

Lemma eqb_lower_char (c x : ascii) :
  (lower_char c = x ↔ c = x) → Ascii.eqb (lower_char c) x = Ascii.eqb c x.
Proof. intros H. apply eq_true_iff_eq. by rewrite !Ascii.eqb_eq. Qed.

Lemma contains_lower_dot (s : string) : contains "." (lower s) = contains "." s.
Proof.
  induction s as [|c r IH]; [done|]. simpl.
  by rewrite IH, (eqb_lower_char _ _ (lower_char_dot c)).
Qed.

Lemma contains_lower_sep (s : string) : contains "/" (lower s) = contains "/" s.
Proof.
  induction s as [|c r IH]; [done|]. simpl.
  by rewrite IH, (eqb_lower_char _ _ (lower_char_sep c)).
Qed.

Lemma startswith_char_lower_dot (s : string) :
  startswith_char "." (lower s) = startswith_char "." s.
Proof. destruct s as [|c r]; [done|]. simpl. apply eqb_lower_char, lower_char_dot. Qed.

(** A lower-cased string that splits as [x +:+ y] comes from a string that
    splits the same way. *)
Lemma lower_eq_app (s x y : string) :
  lower s = x +:+ y → ∃ a b, s = a +:+ b ∧ lower a = x ∧ lower b = y.
Proof.
  revert s. induction x as [|c x IH]; intros s H.
  - exists "", s. by rewrite app_nil_l in H.
  - destruct s as [|d s]; [done|]. rewrite app_cons in H. simpl in H.
    injection H as Hc Hs. destruct (IH _ Hs) as (a & b & -> & Ha & Hb).
    exists (String d a), b. simpl. by rewrite Hc, Ha, Hb.
Qed.

End StrFacts.

Module PosixPathFacts.
Import Str StrFacts PosixPath.

(** ** The splits *)

Lemma rsplit_sep_app (p : string) :
  fst (rsplit_sep p) +:+ snd (rsplit_sep p) = p.
Proof.
  induction p as [|c r IH]; [done|]. simpl.
  destruct (rsplit_sep r) as [h t]. simpl in IH.
  destruct (is_sep c); simpl; [by rewrite app_cons, IH|].
  destruct h; simpl; by rewrite <- IH.
Qed.

Lemma rsplit_sep_tail (p : string) : contains "/" (snd (rsplit_sep p)) = false.
Proof.
  induction p as [|c r IH]; [done|]. simpl.
  destruct (rsplit_sep r) as [h t]. simpl in IH.
  destruct (is_sep c) eqn:E; simpl; [done|].
  destruct h; simpl; [|done]. unfold is_sep in E. by rewrite E.
Qed.

Lemma rsplit_sep_plain (t : string) :
  contains "/" t = false → rsplit_sep t = ("", t).
Proof.
  induction t as [|c r IH]; [done|]. simpl.
  intros [E1 E2]%orb_false_iff. rewrite (IH E2). unfold is_sep. by rewrite E1.
Qed.

Lemma rsplit_sep_dir (a t : string) :
  contains "/" t = false → rsplit_sep (a +:+ "/" +:+ t) = (a +:+ "/", t).
Proof.
  intros Ht. induction a as [|c a IH].
  - rewrite app_nil_l, app_cons, app_nil_l. simpl. by rewrite (rsplit_sep_plain _ Ht).
  - rewrite (app_cons c a). simpl. rewrite IH.
    destruct (is_sep c); [done|]. by destruct a.
Qed.

Lemma basename_plain (t : string) : contains "/" t = false → basename t = t.
Proof. intros H. unfold basename. by rewrite rsplit_sep_plain. Qed.

Lemma basename_no_sep (p : string) : contains "/" (basename p) = false.
Proof. apply rsplit_sep_tail. Qed.

Lemma rsplit_ext_app (t : string) :
  fst (rsplit_ext t) +:+ snd (rsplit_ext t) = t.
Proof.
  induction t as [|c r IH]; [done|]. simpl.
  destruct (rsplit_ext r) as [root ext]. simpl in IH.
  destruct ext; simpl.
  - destruct (is_dot c); simpl; [done|]. by rewrite app_cons, IH.
  - by rewrite app_cons, IH.
Qed.

(** The extension is empty or a dot followed by dot-free text. *)
Lemma rsplit_ext_shape (t : string) :
  snd (rsplit_ext t) = "" ∧ fst (rsplit_ext t) = t ∧ contains "." t = false
  ∨ ∃ b, snd (rsplit_ext t) = String "." b ∧ contains "." b = false.
Proof.
  induction t as [|c r IH]; [by left|]. simpl.
  destruct (rsplit_ext r) as [root ext]. simpl in IH.
  destruct IH as [(-> & -> & Hr)|(b & -> & Hb)].
  - unfold is_dot. destruct (Ascii.eqb_spec c ".") as [->|Hc]; simpl.
    + right. by exists r.
    + by left.
  - right. by exists b.
Qed.

Lemma rsplit_ext_dot (a b : string) :
  contains "." b = false → rsplit_ext (a +:+ String "." b) = (a, String "." b).
Proof.
  intros Hb.
  assert (Hplain : rsplit_ext b = (b, "")).
  { destruct (rsplit_ext_shape b) as [(H1 & H2 & _)|(x & H1 & _)].
    - by rewrite (surjective_pairing (rsplit_ext b)), H1, H2.
    - pose proof (rsplit_ext_app b) as H. rewrite H1 in H.
      rewrite <- H, contains_app in Hb. simpl in Hb.
      by rewrite orb_true_r in Hb. }
  induction a as [|c a IH].
  - rewrite app_nil_l. simpl. by rewrite Hplain.
  - rewrite app_cons. simpl. by rewrite IH.
Qed.

Lemma all_dots_no_dot (s : string) :
  truthy s = true → startswith_char "." s = false → all_dots s = false.
Proof. destruct s as [|c r]; [done|]. simpl. unfold is_dot. by intros _ ->. Qed.

Lemma all_dots_app_false (a b : string) : all_dots b = false → all_dots (a +:+ b) = false.
Proof.
  intros Hb. induction a as [|c a IH]; [done|].
  rewrite app_cons. simpl. by rewrite IH, andb_false_r.
Qed.

Lemma splitext_app (p : string) : fst (splitext p) +:+ snd (splitext p) = p.
Proof.
  unfold splitext.
  pose proof (rsplit_sep_app p) as Hp. destruct (rsplit_sep p) as [h t].
  pose proof (rsplit_ext_app t) as Ht. destruct (rsplit_ext t) as [root ext].
  simpl in *. destruct ext; simpl; [apply app_nil_r|].
  destruct (all_dots root); simpl; [apply app_nil_r|].
  by rewrite app_assoc, Ht.
Qed.

(** The extension of a path is the extension of its last component, and
    the root is the directory part followed by that component's stem. *)
Lemma splitext_basename (p : string) :
  snd (splitext p) = snd (splitext (basename p))
  ∧ fst (splitext p) = fst (rsplit_sep p) +:+ fst (splitext (basename p)).
Proof.
  unfold splitext at 2 4, basename.
  rewrite (rsplit_sep_plain _ (rsplit_sep_tail p)).
  unfold splitext.
  pose proof (rsplit_sep_app p) as Hp. destruct (rsplit_sep p) as [h t].
  simpl in *. destruct (rsplit_ext t) as [root ext].
  destruct ext; simpl; [by rewrite Hp|].
  destruct (all_dots root); simpl; [by rewrite Hp|done].
Qed.

(** Splitting a slash-free name [a +:+ "." +:+ b] whose stem [a] is not made
    of dots only and whose [b] has no dot. *)
Lemma splitext_name (a b : string) :
  contains "/" (a +:+ String "." b) = false →
  all_dots a = false → contains "." b = false →
  splitext (a +:+ String "." b) = (a, String "." b).
Proof.
  intros Hs Ha Hb. unfold splitext.
  by rewrite (rsplit_sep_plain _ Hs), (rsplit_ext_dot _ _ Hb), Ha.
Qed.

(** ** [join], [basename] and [dirname] *)

Lemma startswith_sep_plain (n : string) :
  contains "/" n = false → startswith_char "/" n = false.
Proof. destruct n as [|c r]; [done|]. simpl. by intros [-> _]%orb_false_iff. Qed.

Lemma all_sep_app (a b : string) : all_sep (a +:+ b) = all_sep a && all_sep b.
Proof.
  induction a as [|c a IH]; [done|]. rewrite app_cons. simpl.
  by rewrite IH, andb_assoc.
Qed.

Lemma all_sep_open (d : string) :
  truthy d = true → endswith d "/" = false → all_sep d = false.
Proof.
  induction d as [|c r IH]; [done|]. intros _.
  rewrite endswith_cons. intros [E1 E2]%orb_false_iff. simpl.
  destruct r as [|x r].
  - unfold is_sep. destruct (Ascii.eqb_spec c "/") as [->|]; [done|done].
  - by rewrite (IH eq_refl E2), andb_false_r.
Qed.

Lemma rstrip_sep_snoc (d : string) : rstrip_sep (d +:+ "/") = rstrip_sep d.
Proof. induction d as [|c r IH]; [done|]. rewrite app_cons. simpl. by rewrite IH. Qed.

Lemma rstrip_sep_idem (h : string) : rstrip_sep (rstrip_sep h) = rstrip_sep h.
Proof.
  induction h as [|c r IH]; [done|]. simpl.
  destruct (rstrip_sep r) as [|x r'] eqn:E.
  - destruct (is_sep c) eqn:Ec; simpl; [done|]. by rewrite Ec.
  - change (rstrip_sep (String c (String x r'))) with
      (match rstrip_sep (String x r') with
       | EmptyString => if is_sep c then "" else String c ""
       | s => String c s
       end).
    by rewrite IH.
Qed.

Lemma norm_head_idem (h : string) : norm_head (norm_head h) = norm_head h.
Proof.
  unfold norm_head at 2 3.
  destruct (truthy h && negb (all_sep h)) eqn:E; unfold norm_head.
  - rewrite rstrip_sep_idem.
    by destruct (truthy (rstrip_sep h) && negb (all_sep (rstrip_sep h))).
  - by rewrite E.
Qed.

Lemma norm_head_snoc (d : string) :
  truthy d = true → endswith d "/" = false → norm_head (d +:+ "/") = norm_head d.
Proof.
  intros Hd He. unfold norm_head.
  rewrite all_sep_app, (all_sep_open _ Hd He), Hd, rstrip_sep_snoc.
  by destruct d.
Qed.

(** Where [join] puts a slash-free name. *)
Lemma rsplit_sep_join (d n : string) :
  contains "/" n = false →
  rsplit_sep (join d n) =
    (if negb (truthy d) then "" else if endswith d "/" then d else d +:+ "/", n).
Proof.
  intros Hn. unfold join. rewrite (startswith_sep_plain _ Hn).
  destruct d as [|c r]; [by rewrite app_nil_l, rsplit_sep_plain|].
  cbn [truthy negb orb].
  destruct (endswith (String c r) "/") eqn:E.
  - apply endswith_spec in E as [pre E]. rewrite E, app_assoc.
    by apply rsplit_sep_dir.
  - by rewrite <- (rsplit_sep_dir (String c r) n Hn).
Qed.

Lemma basename_join (d n : string) :
  contains "/" n = false → basename (join d n) = n.
Proof. intros Hn. unfold basename. by rewrite rsplit_sep_join. Qed.

Lemma dirname_join (d n : string) :
  contains "/" n = false → dirname (join d n) = norm_head d.
Proof.
  intros Hn. unfold dirname. rewrite rsplit_sep_join by done. simpl.
  destruct d as [|c r]; [done|]. cbn [truthy negb].
  destruct (endswith (String c r) "/") eqn:E; [done|].
  by apply norm_head_snoc.
Qed.

(** A name joined to the directory of a path lands in that directory. *)
Lemma dirname_join_dirname (p n : string) :
  contains "/" n = false → dirname (join (dirname p) n) = dirname p.
Proof. intros Hn. rewrite dirname_join by done. apply norm_head_idem. Qed.

(** ** Names with an extension from an allow-list *)

(** A slash-free name that does not start with a dot and that, lower-cased,
    ends with [.xb] ([xb] dot-free) has its stem and extension split there. *)
Lemma splitext_suffixed (e xb : string) :
  contains "/" e = false → startswith_char "." e = false →
  contains "." xb = false → endswith (lower e) (String "." xb) = true →
  ∃ a b, e = a +:+ String "." b ∧ splitext e = (a, String "." b)
         ∧ lower b = xb ∧ contains "." b = false
         ∧ truthy a = true ∧ startswith_char "." a = false.
Proof.
  intros Hs Hd Hx [pre He]%endswith_spec.
  apply lower_eq_app in He as (a & b & -> & _ & Hb).
  destruct b as [|c b']; [done|]. simpl in Hb. injection Hb as Hc Hb'.
  apply lower_char_dot in Hc as ->.
  assert (contains "." b' = false) as Hb by (by rewrite <- contains_lower_dot, Hb').
  assert (truthy a = true ∧ startswith_char "." a = false) as [Ha1 Ha2].
  { destruct a as [|x a]; [done|]. by rewrite app_cons in Hd. }
  exists a, b'. split_and!; try done.
  apply splitext_name; [done| |done]. by apply all_dots_no_dot.
Qed.

Example basename_ex : basename "/data/in/movie.mp4" = "movie.mp4"
  ∧ basename "movie.mp4" = "movie.mp4" ∧ basename "/data/in/" = "".
Proof. done. Qed.

Example dirname_ex : dirname "/data/in/movie.mp4" = "/data/in"
  ∧ dirname "movie.mp4" = "" ∧ dirname "/movie.mp4" = "/"
  ∧ dirname "//movie.mp4" = "//" ∧ dirname "/data//in//movie.mp4" = "/data//in".
Proof. done. Qed.

Example join_ex : join "/data/in" "movie.mp4" = "/data/in/movie.mp4"
  ∧ join "/data/in/" "movie.mp4" = "/data/in/movie.mp4"
  ∧ join "" "movie.mp4" = "movie.mp4" ∧ join "/data" "/abs.mp4" = "/abs.mp4".
Proof. done. Qed.

Example splitext_ex : splitext "/data/in/movie.mp4" = ("/data/in/movie", ".mp4")
  ∧ splitext "a.b/c" = ("a.b/c", "") ∧ splitext ".bashrc" = (".bashrc", "")
  ∧ splitext "..a.b" = ("..a", ".b") ∧ splitext "..." = ("...", "")
  ∧ splitext "a." = ("a", ".") ∧ splitext "a.tar.gz" = ("a.tar", ".gz").
Proof. done. Qed.

End PosixPathFacts.

Module DictFacts.
Import Dict.

Lemma get_set_eq {V} (k : string) (v : V) (d : t V) : get k (set k v d) = Some v.
Proof.
  induction d as [|[k' v'] r IH]; simpl.
  - by rewrite String.eqb_refl.
  - destruct (String.eqb k' k) eqn:E; simpl; [by rewrite String.eqb_refl|].
    by rewrite E.
Qed.

Lemma get_set_ne {V} (k k0 : string) (v : V) (d : t V) :
  k ≠ k0 → get k0 (set k v d) = get k0 d.
Proof.
  intros Hne. induction d as [|[k' v'] r IH]; simpl.
  - by apply String.eqb_neq in Hne as ->.
  - destruct (String.eqb_spec k' k) as [->|Hk]; simpl.
    + by apply String.eqb_neq in Hne as ->.
    + by rewrite IH.
Qed.

End DictFacts.

Import StrFacts PosixPathFacts.

(* ===================================================================== *)
(** * The change detector                                                  *)
(* ===================================================================== *)

(** With a record in the store, the decision is false exactly when both
    stored fingerprints are the current ones. *)
Lemma needs_processing_some (e : entry) (vstat sstat : option fingerprint) :
  needs_processing (Some e) vstat sstat = false
  ↔ video e = vstat ∧ subs e = sstat.
Proof.
  simpl.
  destruct (decide (video e = vstat)) as [Hv|Hv],
           (decide (subs e = sstat)) as [Hs|Hs].
  - rewrite !bool_decide_eq_false_2 by (by intros ?). tauto.
  - rewrite bool_decide_eq_false_2, bool_decide_eq_true_2 by (done || by intros ?).
    split; [done|tauto].
  - rewrite bool_decide_eq_true_2 by done. split; [done|tauto].
  - rewrite bool_decide_eq_true_2 by done. split; [done|tauto].
Qed.

(** C1 (change detector, lines 172-188). For every store [d], key (the
    canonical absolute path of the video) and current fingerprints, the
    decision is true exactly when the store has no record for the key, or
    the stored video fingerprint differs from the current one, or the stored
    subtitle fingerprint differs from the current one; a missing
    fingerprint ([None]) against a present one counts as a difference, in
    both directions; and the decision is false exactly when a record exists
    and both stored fingerprints equal the current ones. *)
Theorem needs_processing_iff (d : gmap string entry) (key : string)
    (vstat sstat : option fingerprint) :
  (needs_processing (d !! key) vstat sstat = true ↔
     d !! key = None
     ∨ ∃ e, d !! key = Some e ∧ (video e ≠ vstat ∨ subs e ≠ sstat))
  ∧ (needs_processing (d !! key) vstat sstat = false ↔
       ∃ e, d !! key = Some e ∧ video e = vstat ∧ subs e = sstat)
  ∧ (∀ v t fp, needs_processing (Some (Entry v None t)) v (Some fp) = true)
  ∧ (∀ v t fp, needs_processing (Some (Entry v (Some fp) t)) v None = true).
Proof.
  pose proof (λ e, needs_processing_some e vstat sstat) as Hsome.
  split_and!.
  - destruct (d !! key) as [e|]; [|simpl; naive_solver].
    specialize (Hsome e). split.
    + intros Ht. right. exists e. split; [done|].
      destruct (decide (video e = vstat)); [|by left].
      destruct (decide (subs e = sstat)); [|by right].
      destruct Hsome as [_ Hf]. rewrite Hf in Ht; done.
    + intros [?|(e' & [= <-] & Hne)]; [done|].
      destruct (needs_processing (Some e) vstat sstat); [done|].
      destruct Hsome as [[? ?] _]; [done|]. by destruct Hne.
  - destruct (d !! key) as [e|]; [|simpl; naive_solver].
    rewrite Hsome. naive_solver.
  - intros v t fp. unfold needs_processing. cbn [video subs].
    by destruct (bool_decide (v ≠ v)).
  - intros v t fp. unfold needs_processing. cbn [video subs].
    by destruct (bool_decide (v ≠ v)).
Qed.

(* ===================================================================== *)
(** * The output file                                                      *)
(* ===================================================================== *)

Lemma stem_ext (v : string) : stem v +:+ snd (splitext v) = basename v.
Proof.
  unfold stem. destruct (splitext_basename v) as [-> _]. apply splitext_app.
Qed.

Lemma stem_no_sep (v : string) : contains "/" (stem v) = false.
Proof.
  pose proof (basename_no_sep v) as H.
  rewrite <- stem_ext, contains_app in H. by apply orb_false_iff in H as [? _].
Qed.

Lemma ext_no_sep (v : string) : contains "/" (snd (splitext v)) = false.
Proof.
  pose proof (basename_no_sep v) as H.
  rewrite <- stem_ext, contains_app in H. by apply orb_false_iff in H as [_ ?].
Qed.

Lemma clean_name_no_sep (v : string) :
  contains "/" (stem v +:+ "_clean" +:+ snd (splitext v)) = false.
Proof. by rewrite !contains_app, stem_no_sep, ext_no_sep. Qed.

(** C9 (processing invoker, lines 61-67). For every input path, the name
    of the output file is the input's name with [_clean] inserted before
    its extension: the input is named [stem ++ ext], the output
    [stem ++ "_clean" ++ ext]. With [write_next_to_input] the output is in
    the directory of the input; without it, it is the name joined to the
    configured output directory, hence inside that directory. *)
Theorem out_file_name_and_place (video_path output_dir : string) :
  let ext := snd (splitext video_path) in
  let name := stem video_path +:+ "_clean" +:+ ext in
  basename video_path = stem video_path +:+ ext
  ∧ (∀ next, basename (out_file video_path output_dir next) = name)
  ∧ dirname (out_file video_path output_dir true) = dirname video_path
  ∧ out_file video_path output_dir false = join output_dir name
  ∧ dirname (out_file video_path output_dir false) = norm_head output_dir.
Proof.
  intros ext name. pose proof (clean_name_no_sep video_path) as Hn.
  split_and!.
  - symmetry. apply stem_ext.
  - intros []; unfold out_file; by apply basename_join.
  - unfold out_file. by apply dirname_join_dirname.
  - done.
  - unfold out_file. by apply dirname_join.
Qed.

Example out_file_ex :
  out_file "/data/in/name.mp4" "/data/out" true = "/data/in/name_clean.mp4"
  ∧ out_file "/data/in/name.mp4" "/data/out" false = "/data/out/name_clean.mp4"
  ∧ out_file "/data/in/My.Film.MKV" "/data/out/" false = "/data/out/My.Film_clean.MKV".
Proof. done. Qed.

(* ===================================================================== *)
(** * Running the monad                                                    *)
(* ===================================================================== *)

Section Runs.
Context {W : Type} `{HOS : OS W}.

Local Abbreviation st := (@state W).

Lemma ret_inv {A} (a : A) (s s' : st) o tr :
  ret a s = (o, s', tr) → o = Ok a ∧ s' = s ∧ tr = [].
Proof. unfold ret. by intros [= <- <- <-]. Qed.

Lemma raise_inv {A} (e : exn) (s s' : st) (o : outcome A) tr :
  raise e s = (o, s', tr) → o = Raise e ∧ s' = s ∧ tr = [].
Proof. unfold raise. by intros [= <- <- <-]. Qed.

Lemma bind_inv {A B} (m : M A) (k : A → M B) (s s' : st) o tr :
  bind m k s = (o, s', tr) →
  (∃ a s1 t1 t2, m s = (Ok a, s1, t1) ∧ k a s1 = (o, s', t2) ∧ tr = t1 ++ t2)
  ∨ (∃ e, m s = (Raise e, s', tr) ∧ o = Raise e).
Proof.
  unfold bind. destruct (m s) as [[[a|e] s1] t1].
  - destruct (k a s1) as [[o2 s2] t2] eqn:E. intros [= <- <- <-].
    left. by exists a, s1, t1, t2.
  - intros [= <- <- <-]. right. by exists e.
Qed.

Lemma catch_inv {A} (m h : M A) (cls : exn → bool) (s s' : st) o tr :
  catch m cls h s = (o, s', tr) →
  (∃ a, m s = (Ok a, s', tr) ∧ o = Ok a)
  ∨ (∃ e, m s = (Raise e, s', tr) ∧ cls e = false ∧ o = Raise e)
  ∨ (∃ e s1 t1 t2, m s = (Raise e, s1, t1) ∧ cls e = true
                   ∧ h s1 = (o, s', t2) ∧ tr = t1 ++ t2).
Proof.
  unfold catch. destruct (m s) as [[[a|e] s1] t1].
  - intros [= <- <- <-]. left. by exists a.
  - destruct (cls e) eqn:Ec.
    + destruct (h s1) as [[o2 s2] t2] eqn:E. intros [= <- <- <-].
      right. right. by exists e, s1, t1, t2.
    + intros [= <- <- <-]. right. left. by exists e.
Qed.

Lemma finally_inv {A} (m : M A) (f : M unit) (s s' : st) o tr :
  finally m f s = (o, s', tr) →
  ∃ o1 s1 t1 o2 t2, m s = (o1, s1, t1) ∧ f s1 = (o2, s', t2) ∧ tr = t1 ++ t2
    ∧ o = match o2 with Ok _ => o1 | Raise e => Raise e end.
Proof.
  unfold finally. destruct (m s) as [[o1 s1] t1].
  destruct (f s1) as [[[u|e] s2] t2] eqn:E; intros [= <- <- <-];
    by eexists o1, s1, t1, _, t2.
Qed.

Lemma call_inv {A} (op : W → A * W) (ev : A → event) (s s' : st) o tr :
  call op ev s = (o, s', tr) →
  ∃ a w, op (world s) = (a, w) ∧ o = Ok a ∧ s' = State w (db s) ∧ tr = [ev a].
Proof.
  unfold call. destruct (op (world s)) as [a w]. intros [= <- <- <-].
  by exists a, w.
Qed.

Lemma call_exn_inv {A} (op : W → answer A * W) (ev : answer A → event)
    (s s' : st) o tr :
  call_exn op ev s = (o, s', tr) →
  ∃ a w, op (world s) = (a, w) ∧ s' = State w (db s) ∧ tr = [ev a]
    ∧ o = match a with Val v => Ok v | Err e => Raise e end.
Proof.
  unfold call_exn, bind, call. destruct (op (world s)) as [[v|e] w];
    intros [= <- <- <-]; by eexists _, w.
Qed.

Lemma time_sleep_inv (secs : Q) (s s' : st) o tr :
  time_sleep secs s = (o, s', tr) →
  (Qle_bool 0 secs = true ∧ o = Ok tt ∧ db s' = db s ∧ tr = [ESleep secs tt])
  ∨ (Qle_bool 0 secs = false ∧ o = Raise ValueError ∧ s' = s ∧ tr = []).
Proof.
  unfold time_sleep. destruct (Qle_bool 0 secs).
  - intros (a & w & _ & -> & -> & ->)%call_inv. left. by destruct a.
  - intros (-> & -> & ->)%raise_inv. by right.
Qed.

(** [try: m  except Exception: ...] with a handler that cannot raise lets
    no exception through. *)
Lemma catch_all_completes (m : M unit) (s : st) :
  completes (catch m is_Exception (ret tt)) s.
Proof.
  unfold completes, catch. destruct (m s) as [[[[]|e] s1] t1]; simpl; eauto.
Qed.

End Runs.

(** Take a run apart along the program. *)
Ltac run_inv H :=
  lazymatch type of H with
  | ret _ _ = _ => apply ret_inv in H as (? & ? & ?); simplify_eq
  | raise _ _ = _ => apply raise_inv in H as (? & ? & ?); simplify_eq
  | get_db _ = _ => unfold get_db in H; simplify_eq
  | set_db _ _ = _ => unfold set_db in H; simplify_eq
  | bind _ _ _ = _ =>
      let H1 := fresh "Hrun" in
      apply bind_inv in H as [(? & ? & ? & ? & H1 & H & ?)|(? & H & ?)];
      simplify_eq
  | catch _ _ _ _ = _ =>
      let H1 := fresh "Hrun" in let Hc := fresh "Hcls" in
      apply catch_inv in H as
        [(? & H & ?)|[(? & H & Hc & ?)|(? & ? & ? & ? & H1 & Hc & H & ?)]];
      simplify_eq
  | call _ _ _ = _ =>
      let Hop := fresh "Hop" in
      apply call_inv in H as (? & ? & Hop & ? & ? & ?); simplify_eq
  | call_exn _ _ _ = _ =>
      let a := fresh "a" in let Hop := fresh "Hop" in
      apply call_exn_inv in H as (a & ? & Hop & ? & ? & ?);
      destruct a; simplify_eq
  | isdir _ _ = _ => unfold isdir in H; run_inv H
  | isfile _ _ = _ => unfold isfile in H; run_inv H
  | listdir _ _ = _ => unfold listdir in H; run_inv H
  | getsize _ _ = _ => unfold getsize in H; run_inv H
  | stat _ _ = _ => unfold stat in H; run_inv H
  | abspath _ _ = _ => unfold abspath in H; run_inv H
  | time_time _ = _ => unfold time_time in H; run_inv H
  | makedirs _ _ = _ => unfold makedirs in H; run_inv H
  | ensure_dir _ _ = _ => unfold ensure_dir, makedirs in H; run_inv H
  | move _ _ _ = _ => unfold move in H; run_inv H
  | open_w _ _ = _ => unfold open_w in H; run_inv H
  | write _ _ _ = _ => unfold write in H; run_inv H
  | close _ _ = _ => unfold close in H; run_inv H
  | replace _ _ _ = _ => unfold replace in H; run_inv H
  | read _ _ = _ => unfold read in H; run_inv H
  end.

(** One step on any run among the hypotheses. *)
Ltac run_step :=
  match goal with
  | H : ret _ _ = _ |- _ => run_inv H
  | H : raise _ _ = _ |- _ => run_inv H
  | H : get_db _ = _ |- _ => run_inv H
  | H : set_db _ _ = _ |- _ => run_inv H
  | H : call _ _ _ = _ |- _ => run_inv H
  | H : call_exn _ _ _ = _ |- _ => run_inv H
  | H : time_sleep _ _ = _ |- _ =>
      apply time_sleep_inv in H as [(? & ? & ? & ?)|(? & ? & ? & ?)];
      try discriminate; simplify_eq
  | H : bind _ _ _ = _ |- _ => run_inv H
  | H : catch _ _ _ _ = _ |- _ => run_inv H
  | H : (if ?b then _ else _) _ = _ |- _ => destruct b eqn:?
  | H : isdir _ _ = _ |- _ => run_inv H
  | H : isfile _ _ = _ |- _ => run_inv H
  | H : listdir _ _ = _ |- _ => run_inv H
  | H : getsize _ _ = _ |- _ => run_inv H
  | H : stat _ _ = _ |- _ => run_inv H
  | H : abspath _ _ = _ |- _ => run_inv H
  | H : time_time _ = _ |- _ => run_inv H
  | H : ensure_dir _ _ = _ |- _ => run_inv H
  | H : move _ _ _ = _ |- _ => run_inv H
  | H : open_w _ _ = _ |- _ => run_inv H
  | H : write _ _ _ = _ |- _ => run_inv H
  | H : close _ _ = _ |- _ => run_inv H
  | H : replace _ _ _ = _ |- _ => run_inv H
  | H : read _ _ = _ |- _ => run_inv H
  end.

(** Membership in a trace given by its events. *)
Ltac trace_mem H :=
  repeat first
    [ apply elem_of_app in H as [H|H]
    | apply elem_of_cons in H as [H|H]
    | apply elem_of_nil in H; destruct H ].

(* ===================================================================== *)
(** * The directory scanner                                                *)
(* ===================================================================== *)

(** For a directory entry (no slash) that is not hidden, the test the code
    makes, [entry.lower().endswith(exts)], says that the entry's extension,
    lower-cased, is one of [exts]. *)
Lemma endswith_any_ext (sufs : list string) (e : string) :
  forallb dotted sufs = true →
  contains "/" e = false → startswith_char "." e = false →
  endswith_any (lower e) sufs = true ↔ lower (snd (splitext e)) ∈ sufs.
Proof.
  intros Hsufs Hs Hd. unfold endswith_any. rewrite existsb_exists. split.
  - intros (x & Hx & He). rewrite forallb_forall in Hsufs.
    specialize (Hsufs x Hx). destruct x as [|c xb]; [done|].
    apply andb_true_iff in Hsufs as [Hc Hxb]. unfold is_dot in Hc.
    apply Ascii.eqb_eq in Hc as ->. apply negb_true_iff in Hxb.
    destruct (splitext_suffixed e xb Hs Hd Hxb He) as (a & b & _ & -> & Hb & _).
    simpl. rewrite Hb, (proj2 (lower_char_dot _) eq_refl). by apply list_elem_of_In.
  - intros Hx. exists (lower (snd (splitext e))). split; [by apply list_elem_of_In|].
    apply endswith_spec. exists (lower (fst (splitext e))).
    by rewrite <- lower_app, splitext_app.
Qed.

Section Scanner.
Context {W : Type} `{HOS : OS W}.

Local Abbreviation st := (@state W).

Lemma keep_entry_inv (path : string) (sufs : list string) (e : string)
    (s s' : st) o tr :
  keep_entry path sufs e s = (o, s', tr) →
  db s' = db s
  ∧ ((startswith_char "." e = true ∧ o = Ok None ∧ tr = [])
     ∨ (startswith_char "." e = false
        ∧ ∃ b, tr = [EIsfile (join path e) b]
               ∧ o = Ok (if b && endswith_any (lower e) sufs
                         then Some (join path e) else None))).
Proof.
  unfold keep_entry. destruct (startswith_char "." e) eqn:Hd; intros Hrun.
  - run_inv Hrun. split; [done|]. by left.
  - run_inv Hrun; [|by run_inv Hrun]. run_inv Hrun0.
    split; [by destruct (_ && _); run_inv Hrun|]. right. split; [done|].
    match type of Hop with _ = (?b, _) => exists b end.
    destruct (_ && _); by run_inv Hrun.
Qed.

Lemma yield_each_keep (path : string) (sufs entries : list string)
    (s s' : st) o tr :
  yield_each entries (keep_entry path sufs) s = (o, s', tr) →
  db s' = db s ∧ ∃ vs, o = Ok vs ∧ yields_children path sufs entries tr vs.
Proof.
  revert s s' tr o.
  induction entries as [|e es IH]; intros s s' tr o Hrun; simpl in Hrun.
  - run_inv Hrun. split; [done|]. exists []. split; [done|].
    split_and!; intros ?; by rewrite ?elem_of_nil.
  - run_inv Hrun.
    2: { apply keep_entry_inv in Hrun as [_ [(_ & ? & _)|(_ & b & _ & ?)]]; done. }
    apply keep_entry_inv in Hrun0 as [Hdb0 Hk].
    run_inv Hrun.
    2: { apply IH in Hrun as [_ (vs & ? & _)]. done. }
    apply IH in Hrun0 as [Hdb1 (vs & [= ->] & Hchk & Hsound & Hcompl)].
    run_inv Hrun. rewrite List.app_nil_r. split; [congruence|].
    destruct Hk as [(Hd & [= ->] & ->)|(Hd & b & -> & [= ->])].
    + exists vs. split; [done|]. split_and!.
      * intros ev Hev. destruct (Hchk ev Hev) as (e' & b & ? & ?).
        exists e', b. split; [by right|done].
      * intros v Hv. destruct (Hsound v Hv) as (e' & ? & ? & ? & ? & ?).
        exists e'. split_and!; try done. by right.
      * intros e' [->|He']%elem_of_cons ???; [congruence|]. by apply Hcompl.
    + eexists. split; [done|]. split_and!.
      * intros ev [->|Hev]%elem_of_cons.
        -- exists e, b. split; [by left|done].
        -- destruct (Hchk ev Hev) as (e' & b' & ? & ?).
           exists e', b'. split; [by right|done].
      * intros v Hv.
        assert (v ∈ vs ∨ (b && endswith_any (lower e) sufs = true ∧ v = join path e))
          as [Hv'|[Hb ->]].
        { destruct (b && endswith_any (lower e) sufs); [|by left].
          apply elem_of_cons in Hv as [->|?]; [by right|by left]. }
        -- destruct (Hsound v Hv') as (e' & ? & ? & ? & ? & ?).
           exists e'. split_and!; try done; by right.
        -- apply andb_true_iff in Hb as [-> ?].
           exists e. split_and!; try done; by left.
      * intros e' [->|He']%elem_of_cons Hd' Hsuf Hall.
        -- rewrite (Hall b) by by left. rewrite Hsuf. by left.
        -- assert (join path e' ∈ vs).
           { apply Hcompl; try done. intros b' Hb'. apply Hall. by right. }
           destruct (b && endswith_any (lower e) sufs); [by right|done].
Qed.

(** One root, one list of suffixes: the common shape of [find_videos] and
    [find_subs]. *)
Lemma scan_root (path : string) (sufs : list string) (s s' : st) o tr :
  bind (isdir path) (λ d,
    if negb d then ret []
    else bind (listdir path) (λ entries,
           yield_each entries (keep_entry path sufs))) s
  = (o, s', tr) →
  db s' = db s ∧ scanned path sufs o tr.
Proof.
  intros Hrun. run_inv Hrun; [|by run_inv Hrun].
  run_inv Hrun0.
  match type of Hop with _ = (?b, _) => destruct b end; simpl in Hrun.
  - run_inv Hrun.
    + run_inv Hrun0.
      apply yield_each_keep in Hrun as [Hdb (vs & -> & Hy)].
      split; [done|]. right. right. by eexists _, _, _.
    + run_inv Hrun. split; [done|]. right. left. by eexists.
  - run_inv Hrun. split; [done|]. by left.
Qed.

Lemma find_videos_scanned (path : string) (s s' : st) o tr :
  find_videos path s = (o, s', tr) → db s' = db s ∧ scanned path VIDEO_EXTS o tr.
Proof. apply scan_root. Qed.

Lemma find_subs_scanned (path : string) (s s' : st) o tr :
  find_subs path s = (o, s', tr) → db s' = db s ∧ scanned path [".srt"] o tr.
Proof. apply scan_root. Qed.

End Scanner.


Example find_videos_ex :
  (find_videos "/data/in" MemOS.s0).1.1 = Ok ["/data/in/movie.mkv"]
  ∧ (find_subs "/data/in" MemOS.s0).1.1 = Ok ["/data/in/movie.srt"]
  ∧ (find_videos "/data/usb1" MemOS.s0).1.1 = Ok ["/data/usb1/clip.MP4"]
  ∧ (find_videos "/data/usb2" MemOS.s0).1 = (Ok [], MemOS.s0).
Proof. by vm_compute. Qed.

(* ===================================================================== *)
(** * The scanner and the cleaned files                                    *)
(* ===================================================================== *)

(** The cleaned name of a video entry is a video entry again. *)
Lemma clean_entry (e : string) :
  contains "/" e = false → startswith_char "." e = false →
  endswith_any (lower e) VIDEO_EXTS = true →
  let n := fst (splitext e) +:+ "_clean" +:+ snd (splitext e) in
  contains "/" n = false ∧ startswith_char "." n = false
  ∧ endswith_any (lower n) VIDEO_EXTS = true
  ∧ splitext n = (fst (splitext e) +:+ "_clean", snd (splitext e)).
Proof.
  intros Hs Hd He n. subst n.
  unfold endswith_any in He. apply existsb_exists in He as (x & Hx & He).
  assert (dotted x = true) as Hdot.
  { assert (forallb dotted VIDEO_EXTS = true) as H by done.
    rewrite forallb_forall in H. by apply H. }
  destruct x as [|c xb]; [done|]. apply andb_true_iff in Hdot as [Hc Hxb].
  unfold is_dot in Hc. apply Ascii.eqb_eq in Hc as ->. apply negb_true_iff in Hxb.
  destruct (splitext_suffixed e xb Hs Hd Hxb He)
    as (a & b & -> & -> & Hb & Hbd & Ha1 & Ha2).
  cbn [fst snd].
  rewrite !contains_app in Hs. apply orb_false_iff in Hs as [Hsa Hsb].
  assert (contains "/" (a +:+ "_clean" +:+ String "." b) = false) as Hsn.
  { by rewrite !contains_app, Hsa, Hsb. }
  split_and!.
  - done.
  - destruct a; [done|]. by rewrite app_cons.
  - unfold endswith_any. apply existsb_exists. exists (String "." xb).
    split; [done|]. apply endswith_spec. exists (lower (a +:+ "_clean")).
    rewrite <- app_assoc, !lower_app. simpl.
    by rewrite Hb, (proj2 (lower_char_dot _) eq_refl).
  - rewrite <- app_assoc. apply splitext_name; [by rewrite app_assoc| |done].
    by apply all_dots_app_false.
Qed.

(** C10 (scanner and invoker, lines 39-47 and 61-67). Let [e] be a video
    entry of the watch root [path] (a directory entry, not hidden, with a
    video extension) and [out] the file the invoker writes for it next to
    the input. Then [out] is in the directory of the input and is named
    [<stem>_clean<ext>]; and in every later scan of the root in which that
    name is listed and is a regular file, the scanner yields it as a video,
    under the stem [<stem>_clean]: nothing excludes the service's own
    outputs. *)
Theorem cleaned_output_is_a_candidate {W : Type} `{HOS : OS W}
    (path e output_dir : string) (s s' : @state W)
    (entries vs : list string) (tr : list event) :
  let v := join path e in
  let out := out_file v output_dir true in
  let name := basename out in
  contains "/" e = false → startswith_char "." e = false →
  endswith_any (lower e) VIDEO_EXTS = true →
  find_videos path s = (Ok vs, s', tr) →
  EListdir path (Val entries) ∈ tr → name ∈ entries →
  (∀ b, EIsfile (join path name) b ∈ tr → b = true) →
  name = stem v +:+ "_clean" +:+ snd (splitext v)
  ∧ dirname out = dirname v
  ∧ join path name ∈ vs
  ∧ stem (join path name) = stem v +:+ "_clean".
Proof.
  intros v out name Hs Hd He Hrun Hlist Hname Hfile.
  assert (name = stem v +:+ "_clean" +:+ snd (splitext v)) as Hbase.
  { unfold name, out, out_file. apply basename_join, clean_name_no_sep. }
  assert (dirname out = dirname v) as Hdir.
  { unfold out, out_file. apply dirname_join_dirname, clean_name_no_sep. }
  assert (basename v = e) as Hv by (by apply basename_join).
  assert (stem v = fst (splitext e)) as Hstem by (unfold stem; by rewrite Hv).
  assert (snd (splitext v) = snd (splitext e)) as Hext.
  { destruct (splitext_basename v) as [-> _]. by rewrite Hv. }
  rewrite Hstem, Hext in Hbase |- *.
  destruct (clean_entry e Hs Hd He) as (Hns & Hnd & Hne & Hsplit).
  rewrite <- Hbase in Hns, Hnd, Hne, Hsplit.
  split_and!; [done..| |].
  - apply find_videos_scanned in Hrun as [_ Hsc].
    destruct Hsc as [[-> _]|[(x & _ & ?)|(ents & checks & vs' & -> & [= <-] & Hy)]].
    + apply list_elem_of_singleton in Hlist. done.
    + done.
    + destruct Hy as (Hchk & _ & Hcompl).
      assert (ents = entries) as ->.
      { apply elem_of_cons in Hlist as [?|Hlist]; [done|].
        apply elem_of_cons in Hlist as [[= ->]|Hlist]; [done|].
        by destruct (Hchk _ Hlist) as (? & ? & _ & ?). }
      apply Hcompl; try done. intros b Hb. apply Hfile. by do 2 right.
  - unfold stem. by rewrite basename_join, Hsplit.
Qed.

Lemma cleaned_output_is_a_candidate_witness :
  join "/data/in" "movie_clean.mkv" ∈ ["/data/in/movie_clean.mkv"; "/data/in/movie.mkv"]
  ∧ stem (join "/data/in" "movie_clean.mkv") = "movie_clean".
Proof.
  pose (s := State MemOS.w1 ∅).
  pose (entries := ["movie_clean.mkv"; "movie.srt"; "movie.mkv"; "notes.txt";
                    ".hidden.mp4"]).
  pose (tr := [EIsdir "/data/in" true; EListdir "/data/in" (Val entries);
               EIsfile "/data/in/movie_clean.mkv" true;
               EIsfile "/data/in/movie.srt" true;
               EIsfile "/data/in/movie.mkv" true;
               EIsfile "/data/in/notes.txt" true]).
  destruct (cleaned_output_is_a_candidate (W := MemOS.mem) "/data/in" "movie.mkv"
              "/data/out" s s entries
              ["/data/in/movie_clean.mkv"; "/data/in/movie.mkv"] tr)
    as (_ & _ & Hin & Hstem).
  - reflexivity.
  - reflexivity.
  - reflexivity.
  - vm_compute. reflexivity.
  - apply (list_elem_of_lookup_2 _ 1%nat). reflexivity.
  - left.
  - intros b Hb. unfold tr in Hb. rewrite !elem_of_cons, elem_of_nil in Hb.
    destruct Hb as [?|[?|[[= <-]|[?|[?|[?|[]]]]]]]; done.
  - split; [exact Hin|exact Hstem].
Defined.

(* ===================================================================== *)
(** * Merging the scans of the watch roots                                 *)
(* ===================================================================== *)

Lemma merge_app (l1 l2 : list string) (m : Dict.t string) :
  merge (l1 ++ l2) m = merge l2 (merge l1 m).
Proof. unfold merge. apply fold_left_app. Qed.

Lemma merge_get (k : string) (paths : list string) (m : Dict.t string) :
  Dict.get k (merge paths m) =
    match last_with_stem k paths with
    | Some v => Some v
    | None => Dict.get k m
    end.
Proof.
  unfold last_with_stem. revert m. induction paths as [|v ps IH]; intros m; [done|].
  change (merge (v :: ps) m) with (merge ps (Dict.set (stem v) v m)).
  rewrite IH. destruct (decide (stem v = k)) as [Hk|Hk].
  - rewrite filter_cons_True by done. rewrite last_cons.
    destruct (last (filter _ ps)); [done|]. rewrite <- Hk. apply DictFacts.get_set_eq.
  - rewrite filter_cons_False by done.
    destruct (last (filter _ ps)); [done|]. by apply DictFacts.get_set_ne.
Qed.

(** Among the concatenated yields of the roots, the last path with a given
    stem is in the last root that yields that stem. *)
Lemma last_with_stem_concat (k : string) (pre post : list (list string))
    (vs : list string) (v : string) :
  (∀ p, p ∈ concat post → stem p ≠ k) →
  last_with_stem k vs = Some v →
  last_with_stem k (concat (pre ++ vs :: post)) = Some v.
Proof.
  intros Hpost Hv. unfold last_with_stem in *.
  rewrite concat_app, concat_cons, !filter_app.
  assert (filter (λ p, stem p = k) (concat post) = []) as ->.
  { induction (concat post) as [|p l IH]; [done|].
    rewrite filter_cons_False; [|apply Hpost; by left].
    apply IH. intros q Hq. apply Hpost. by right. }
  rewrite (right_id_L [] (++)), last_app. by rewrite Hv.
Qed.

Section Merge.
Context {W : Type} `{HOS : OS W}.

Lemma scan_collect (dirs : list string) (vm sm vm' sm' : Dict.t string)
    (s s' : @state W) tr :
  scan dirs vm sm s = (Ok (vm', sm'), s', tr) →
  ∃ yields, collect dirs s = (Ok yields, s', tr)
    ∧ length yields = length dirs
    ∧ vm' = merge (concat yields.*1) vm
    ∧ sm' = merge (concat yields.*2) sm.
Proof.
  revert vm sm s tr. induction dirs as [|d ds IH]; intros vm sm s tr Hrun;
    simpl in Hrun.
  - run_inv Hrun. by exists [].
  - run_inv Hrun. run_inv Hrun.
    apply IH in Hrun as (ys & Hc & Hlen & -> & ->).
    eexists ((_, _) :: ys). simpl. unfold bind at 1. rewrite Hrun0.
    unfold bind at 1. rewrite Hrun1. unfold bind at 1. rewrite Hc. simpl.
    rewrite (right_id_L [] (++)).
    split_and!; [reflexivity|by rewrite Hlen|by rewrite merge_app..].
Qed.

End Merge.

(** C8 (merge of the scan results, lines 152-158). After the scan of the
    configured roots, for every stem: if some root yields a video (a
    subtitle) with that stem and no root after it in the configuration
    does, then the path kept for the stem is the one that root yielded
    (its last one with that stem). Here [yields] lists, root by root in
    configuration order, what [find_videos] and [find_subs] yielded during
    the scan. *)
Theorem later_roots_overwrite {W : Type} `{HOS : OS W}
    (dirs : list string) (s s' : @state W) (video_map subs_map : Dict.t string)
    (tr : list event) :
  scan dirs [] [] s = (Ok (video_map, subs_map), s', tr) →
  ∃ yields,
    collect dirs s = (Ok yields, s', tr)
    ∧ length yields = length dirs
    ∧ ∀ k pre vs ss post v, yields = pre ++ (vs, ss) :: post →
        ((∀ p, p ∈ concat post.*1 → stem p ≠ k) →
         last_with_stem k vs = Some v → Dict.get k video_map = Some v)
        ∧ ((∀ p, p ∈ concat post.*2 → stem p ≠ k) →
           last_with_stem k ss = Some v → Dict.get k subs_map = Some v).
Proof.
  intros (yields & Hc & Hlen & -> & ->)%scan_collect.
  exists yields. split_and!; [done..|].
  intros k pre vs ss post v ->. rewrite !fmap_app, !fmap_cons. cbn [fst snd].
  split; intros Hpost Hv; rewrite merge_get;
    by rewrite (last_with_stem_concat _ _ _ _ _ Hpost Hv).
Qed.

Lemma later_roots_overwrite_witness :
  last_with_stem "movie" ["/data/in/movie.mkv"] = Some "/data/in/movie.mkv"
  ∧ Dict.get "movie"
      [("movie", "/data/usb1/movie.avi"); ("clip", "/data/usb1/clip.MP4")]
    = Some "/data/usb1/movie.avi".
Proof.
  split; [reflexivity|].
  edestruct (later_roots_overwrite (W := MemOS.mem) ["/data/in"; "/data/usb1"]
               (State MemOS.w2 ∅) (State MemOS.w2 ∅)
               [("movie", "/data/usb1/movie.avi"); ("clip", "/data/usb1/clip.MP4")]
               [("movie", "/data/in/movie.srt")])
    as (yields & Hc & _ & Hk).
  - vm_compute. reflexivity.
  - vm_compute in Hc. injection Hc as <-.
    apply (Hk "movie" [(["/data/in/movie.mkv"], ["/data/in/movie.srt"])]
              ["/data/usb1/clip.MP4"; "/data/usb1/movie.avi"] [] []
              "/data/usb1/movie.avi" eq_refl).
    + intros p Hp. by apply elem_of_nil in Hp.
    + reflexivity.
Defined.

(* ===================================================================== *)
(** * One candidate                                                        *)
(* ===================================================================== *)

Section Candidate.
Context {W : Type} `{HOS : OS W}.
Variable json_chunks : gmap string entry → list string.
Variable cfg : config.

Local Abbreviation st := (@state W).

Lemma stability_samples_inv (vpath : string) (s s' : st) o tr :
  stability_samples vpath s = (o, s', tr) →
  db s' = db s
  ∧ ((∃ e, tr = [EGetsize vpath (Err e)]
           ∧ o = if is_OSError e then Ok None else Raise e)
     ∨ (∃ s1 e, tr = [EGetsize vpath (Val s1); ESleep 1 tt; EGetsize vpath (Err e)]
                ∧ o = if is_OSError e then Ok None else Raise e)
     ∨ (∃ s1 s2, tr = [EGetsize vpath (Val s1); ESleep 1 tt; EGetsize vpath (Val s2)]
                 ∧ o = Ok (Some (s1, s2)))).
Proof.
  unfold stability_samples. intros Hrun. repeat run_step;
    (split; [simpl in *; congruence|]);
    repeat match goal with u : unit |- _ => destruct u end;
    first [ left; eexists; split; [reflexivity|];
            match goal with H : is_OSError _ = _ |- _ => by rewrite H end
          | right; left; eexists _, _; split; [reflexivity|];
            match goal with H : is_OSError _ = _ |- _ => by rewrite H end
          | right; right; by eexists _, _ ].
Qed.

Lemma stat_info_inv (p : string) (s s' : st) o tr :
  stat_info p s = (o, s', tr) →
  db s' = db s ∧ ∃ a, tr = [EStat p a] ∧ o = Ok (fp_of a).
Proof.
  unfold stat_info. intros Hrun. repeat run_step; try done;
    (split; [done|]); [by eexists (Val _)|by eexists (Err _)].
Qed.

Lemma srt_present_inv (srt : option string) (s s' : st) o tr :
  srt_present srt s = (o, s', tr) →
  db s' = db s ∧ ∃ b, o = Ok b ∧ (∀ ev, ev ∈ tr → ∃ p b', ev = EIsfile p b').
Proof.
  unfold srt_present. intros Hrun.
  destruct srt as [p|]; [destruct (truthy p)|]; repeat run_step;
    (split; [done|]); eexists; (split; [done|]);
    intros ev Hev; trace_mem Hev; subst; by eexists _, _.
Qed.

Lemma caught_move_inv (src dst : string) (s s' : st) o tr :
  catch (move src dst) is_Exception (ret tt) s = (o, s', tr) →
  db s' = db s ∧ o = Ok tt ∧ ∃ a, tr = [EMove src dst a].
Proof.
  intros Hrun. repeat run_step; try done;
    repeat match goal with u : unit |- _ => destruct u end;
    split_and!; try done; by eexists.
Qed.

Lemma relocate_inv (v : string) (srt : option string) (pd : string)
    (s s' : st) o tr :
  relocate v srt pd s = (o, s', tr) →
  db s' = db s ∧ (∀ ev, ev ∈ tr → is_relocation ev = true).
Proof.
  unfold relocate. intros Hrun.
  repeat first
    [ match goal with
      | H : catch (move _ _) _ _ _ = _ |- _ =>
          apply caught_move_inv in H as (? & ? & ? & ?); simplify_eq
      | H : srt_present _ _ = _ |- _ =>
          apply srt_present_inv in H as (? & ? & ? & ?); simplify_eq
      end
    | run_step ];
    (split; [simpl in *; congruence|]);
    intros ev Hev; trace_mem Hev; subst; try done;
    match goal with
    | Hp : ∀ ev, ev ∈ ?t → _, Hev : _ ∈ ?t |- _ =>
        by destruct (Hp _ Hev) as (? & ? & ->)
    end.
Qed.

(** ** Saving the store *)

Lemma for_each_write_inv (tmp : string) (chunks : list string) (s s' : st) o tr :
  for_each chunks (write tmp) s = (o, s', tr) →
  db s' = db s
  ∧ (∀ ev, ev ∈ tr → touches tmp ev)
  ∧ (o = Ok tt → tr = (λ c, EWrite tmp c (Val tt)) <$> chunks).
Proof.
  revert s tr. induction chunks as [|c cs IH]; intros s tr Hrun; simpl in Hrun.
  - run_step. split_and!; [done| |done]. intros ev Hev. by apply elem_of_nil in Hev.
  - run_inv Hrun.
    + run_step. apply IH in Hrun as (Hdb & Htouch & Hok).
      split_and!; [done| |].
      * intros ev Hev. trace_mem Hev; subst; [done|by apply Htouch].
      * intros ->. rewrite Hok by done. by destruct a.
    + run_step. split_and!; [done| |done].
      intros ev Hev. trace_mem Hev. by subst.
Qed.

Lemma save_db_inv (d : gmap string entry) (s s' : st) o tr :
  save_db json_chunks cfg d s = (o, s', tr) →
  let tmp := processed_db cfg +:+ ".tmp" in
  o = Ok tt ∧ db s' = db s
  ∧ ((∃ r, tr = written tmp (json_chunks d) ++ [EReplace tmp (processed_db cfg) r])
     ∨ (∀ ev, ev ∈ tr → touches tmp ev)).
Proof.
  intros Hrun tmp. unfold save_db in Hrun. fold tmp in Hrun.
  assert (∀ (m : M unit) o1 s1 t1, m s = (o1, s1, t1) →
            catch m is_Exception (ret tt) s = (o, s', tr) →
            o = Ok tt ∧ s' = s1 ∧ tr = t1) as Hcatch.
  { intros m o1 s1 t1 Hm Hc. unfold catch in Hc. rewrite Hm in Hc.
    destruct o1 as [[]|e]; simpl in Hc; injection Hc as <- <- <-;
      by rewrite ?(right_id_L [] (++)). }
  match type of Hrun with catch ?m _ _ _ = _ =>
    destruct (m s) as [[o1 s1] t1] eqn:Hm;
    destruct (Hcatch m o1 s1 t1 Hm Hrun) as (-> & -> & ->); clear Hrun Hcatch
  end.
  split; [done|].
  run_inv Hm.
  2: { run_inv Hm. split; [done|]. right. intros ev Hev. trace_mem Hev. by subst. }
  run_inv Hrun. run_inv Hm.
  - apply finally_inv in Hrun as (o1' & s2 & t2 & o2 & t3 & Hw & Hc & -> & Ho).
    apply for_each_write_inv in Hw as (Hdb1 & Htouch & Hok).
    destruct o2 as [[]|e2]; [|done]. subst o1'.
    repeat match goal with u : unit |- _ => destruct u end.
    run_inv Hc.
    run_inv Hm; (split; [simpl in *; congruence|]); left; eexists;
      unfold written; rewrite Hok by done; reflexivity.
  - apply finally_inv in Hm as (o1' & s2 & t2 & o2 & t3 & Hw & Hc & -> & Ho).
    apply for_each_write_inv in Hw as (Hdb1 & Htouch & Hok).
    run_inv Hc; (split; [simpl in *; congruence|]); right;
      intros ev Hev; trace_mem Hev; subst; try done; by apply Htouch.
Qed.

Lemma save_db_writes (d : gmap string entry) (s s' : st) o tr :
  save_db json_chunks cfg d s = (o, s', tr) →
  o = Ok tt ∧ db s' = db s ∧ (∀ ev, ev ∈ tr → is_store_write ev = true).
Proof.
  intros (-> & Hdb & Hshape)%save_db_inv. split_and!; [done..|].
  intros ev Hev. destruct Hshape as [(r & ->)|Htouch].
  - unfold written in Hev. trace_mem Hev; subst; try done.
    by apply list_elem_of_fmap in Hev as (c & -> & _).
  - specialize (Htouch ev Hev). by destruct ev.
Qed.

(** ** The invocation *)

Lemma process_inv (v : string) (srt : option string) (od pd sw : string)
    (pres next : bool) (s s' : st) o tr :
  process v srt od pd sw pres next s = (o, s', tr) →
  db s' = db s
  ∧ ∃ pre cmd a post, tr = pre ++ ERun cmd a :: post
      ∧ (∀ ev, ev ∈ pre → ∃ p b, ev = EIsfile p b)
      ∧ (∀ ev, ev ∈ post → is_relocation ev = true)
      ∧ (∃ tail, cmd = ["cleanvid"; "-i"; v; "-o"; out_file v od next; "-w"; sw]
                       ++ tail)
      ∧ (o = Ok true → a = Val 0)
      ∧ (a ≠ Val 0 → post = [] ∧ o ≠ Ok true ∧ ∀ code, a = Val code → o = Ok false).
Proof.
  unfold process, subprocess_run. intros Hrun.
  run_inv Hrun; [|by apply srt_present_inv in Hrun as (_ & ? & ? & _)].
  apply srt_present_inv in Hrun0 as (Hdb0 & has & [= ->] & Hpre).
  repeat first
    [ match goal with
      | H : relocate _ _ _ _ = _ |- _ =>
          apply relocate_inv in H as (? & ?)
      end
    | run_step ].
  all: split; [simpl in *; congruence|].
  all: rewrite <- ?(assoc_L (++)); simpl; rewrite ?(right_id_L [] (++)).
  all: eexists _, _, _, _; split; [reflexivity|].
  all: split; [exact Hpre|].
  all: repeat match goal with
       | H : (_ =? _) = true |- _ => apply Z.eqb_eq in H; subst
       | H : (_ =? _) = false |- _ => apply Z.eqb_neq in H
       end.
  all: split_and!;
    [ first [assumption | by intros ev Hev; apply elem_of_nil in Hev]
    | destruct has; by eexists
    | by intros
    | intros Hne; try done; split_and!; try done; by intros ].
Qed.

Lemma process_and_record_inv (vpath : string) (srt : option string) (key : string)
    (vstat sstat : option fingerprint) (s s' : st) o tr :
  process_and_record json_chunks cfg vpath srt key vstat sstat s = (o, s', tr) →
  ∃ pre cmd a post, tr = pre ++ ERun cmd a :: post
    ∧ (∀ ev, ev ∈ pre → ∃ p b, ev = EIsfile p b)
    ∧ (∀ ev, ev ∈ post → is_run ev = false)
    ∧ (∃ tail, cmd = ["cleanvid"; "-i"; vpath; "-o";
                      out_file vpath (output_dir cfg) (write_next_to_input cfg);
                      "-w"; swears_file cfg] ++ tail)
    ∧ (db s' = db s
       ∨ (a = Val 0 ∧ ∃ now, db s' = <[key := Entry vstat sstat now]> (db s)))
    ∧ (a ≠ Val 0 →
       post = [] ∧ db s' = db s ∧ ∀ code, a = Val code → o = Ok tt).
Proof.
  unfold process_and_record. intros Hrun. run_inv Hrun.
  - apply process_inv in Hrun0
      as (Hdb0 & pre & cmd & a & post & -> & Hpre & Hpost & Hcmd & Hok & Hfail).
    match type of Hrun with (if ?b then _ else _) _ = _ => destruct b end.
    + specialize (Hok eq_refl) as ->.
      repeat first
        [ match goal with
          | H : save_db _ _ _ _ = _ |- _ =>
              apply save_db_writes in H as (? & ? & ?); simplify_eq
          end
        | run_step ].
      exists pre, cmd, (Val 0). eexists. rewrite <- (assoc_L (++)). simpl.
      split; [reflexivity|]. split_and!; try done.
      * intros ev Hev. trace_mem Hev; subst; try done.
        -- specialize (Hpost _ Hev). by destruct ev.
        -- match goal with Hw : ∀ ev, ev ∈ _ → is_store_write ev = true |- _ =>
             specialize (Hw _ Hev) end. by destruct ev.
      * right. split; [done|]. eexists. simpl in *. by rewrite <- Hdb0.
    + run_inv Hrun. exists pre, cmd, a, post. rewrite (right_id_L [] (++)).
      split_and!; try done.
      * intros ev Hev. specialize (Hpost _ Hev). by destruct ev.
      * by left.
      * intros Hne. by destruct (Hfail Hne) as (-> & _ & _).
  - apply process_inv in Hrun
      as (Hdb0 & pre & cmd & a & post & -> & Hpre & Hpost & Hcmd & Hok & Hfail).
    exists pre, cmd, a, post. split_and!; try done.
    + intros ev Hev. specialize (Hpost _ Hev). by destruct ev.
    + by left.
    + intros Hne. destruct (Hfail Hne) as (-> & _ & Hcode). split_and!; try done.
      intros code ->. by specialize (Hcode _ eq_refl).
Qed.

(** ** The body of the loop *)

Lemma handle_candidate_inv (subs_map : Dict.t string) (base vpath : string)
    (s s' : st) o tr :
  handle_candidate json_chunks cfg subs_map (base, vpath) s = (o, s', tr) →
  (db s' = db s
   ∧ ((∃ e, tr = [EGetsize vpath (Err e)]
            ∧ o = if is_OSError e then Ok tt else Raise e)
      ∨ (∃ s1 e, tr = [EGetsize vpath (Val s1); ESleep 1 tt; EGetsize vpath (Err e)]
                 ∧ o = if is_OSError e then Ok tt else Raise e)
      ∨ (∃ s1 s2, s1 ≠ s2 ∧ o = Ok tt
           ∧ tr = [EGetsize vpath (Val s1); ESleep 1 tt; EGetsize vpath (Val s2)])))
  ∨ ∃ sz rest,
      tr = EGetsize vpath (Val sz) :: ESleep 1 tt :: EGetsize vpath (Val sz) :: rest
      ∧ detected cfg subs_map base vpath s s' o rest.
Proof.
  unfold handle_candidate. intros Hrun. run_inv Hrun.
  2: { apply stability_samples_inv in Hrun
         as (Hdb & [(e & -> & Ho)|[(s1 & e & -> & Ho)|(s1 & s2 & -> & Ho)]]);
         [| |done]; left; (split; [done|]).
       - left. exists e. destruct (is_OSError e); by simplify_eq.
       - right. left. exists s1, e. destruct (is_OSError e); by simplify_eq. }
  apply stability_samples_inv in Hrun0
    as (Hdb & [(e & -> & Ho)|[(s1 & e & -> & Ho)|(s1 & s2 & -> & Ho)]]).
  - destruct (is_OSError e) eqn:He; simplify_eq. run_inv Hrun.
    left. split; [done|]. left. exists e. by rewrite He.
  - destruct (is_OSError e) eqn:He; simplify_eq. run_inv Hrun.
    left. split; [done|]. right. left. exists s1, e. by rewrite He.
  - simplify_eq. destruct (Z.eqb_spec s1 s2) as [->|Hne]; simpl in Hrun.
    2: { run_inv Hrun. left. split; [done|]. right. right. by exists s1, s2. }
    right. exists s2. eexists. split; [reflexivity|]. unfold detected.
    run_inv Hrun.
    2: { run_inv Hrun. left. eexists. by split_and!. }
    run_inv Hrun0. right.
    run_inv Hrun; [|by apply stat_info_inv in Hrun as (_ & ? & _ & ?)].
    apply stat_info_inv in Hrun0 as (Hdb1 & av & -> & [= ->]).
    run_inv Hrun.
    2: { destruct (Dict.get base subs_map) as [p|]; [destruct (truthy p)|];
           [by apply stat_info_inv in Hrun as (_ & ? & _ & ?)|by run_inv Hrun..]. }
    match type of Hrun0 with _ = (Ok ?sstat, ?sy, ?stats) =>
      assert (measured (Dict.get base subs_map) stats sstat ∧ db sy = db s)
        as [Hmeas Hdb2]
    end.
    { unfold measured. destruct (Dict.get base subs_map) as [p|];
        [destruct (truthy p)|].
      - apply stat_info_inv in Hrun0 as (? & asub & ? & ?). simplify_eq.
        split; [by eexists|simpl in *; congruence].
      - run_inv Hrun0. split; [done|simpl in *; congruence].
      - run_inv Hrun0. split; [done|simpl in *; congruence]. }
    clear Hrun0. run_inv Hrun. run_inv Hrun0. rewrite Hdb2 in Hrun.
    do 5 eexists. simpl. split; [reflexivity|]. split; [exact Hmeas|].
    destruct (needs_processing (db s !! _) (fp_of av) _); simpl in Hrun.
    + apply process_and_record_inv in Hrun
        as (pre & cmd & ar & post & -> & ? & ? & ? & Hrec & Hfail).
      rewrite Hdb2 in Hrec, Hfail. by eexists pre, cmd, ar, post.
    + by run_inv Hrun.
Qed.


(** C3 (idempotence, lines 176-193). Take a candidate whose stored record
    [e] matches what the cycle measures: every [os.stat] of the video
    answers the stored video fingerprint, and the paired subtitle, if
    there is one, answers the stored subtitle fingerprint (no paired
    subtitle: the stored one is [None]). Then the loop body, for that
    file, starts no subprocess, moves nothing, writes nothing to the store
    file, and leaves the in-memory store as it was. *)
Theorem unchanged_candidate_is_skipped (subs_map : Dict.t string)
    (base vpath key : string) (e : entry)
    (s s' : st) (o : outcome unit) (tr : list event) :
  handle_candidate json_chunks cfg subs_map (base, vpath) s = (o, s', tr) →
  db s !! key = Some e →
  (∀ a, EAbspath vpath a ∈ tr → a = Val key) →
  (∀ a, EStat vpath a ∈ tr → fp_of a = video e) →
  match Dict.get base subs_map with
  | Some p => if truthy p then ∀ a, EStat p a ∈ tr → fp_of a = subs e
              else subs e = None
  | None => subs e = None
  end →
  (∀ ev, ev ∈ tr → is_action ev = false) ∧ db s' = db s.
Proof.
  intros [(Hdb & [(x & -> & ->)|[(s1 & x & -> & ->)|(s1 & s2 & Hne & -> & ->)]])|
          (sz & rest & -> & Hdet)]%handle_candidate_inv He Hkey Hv Hs.
  1-3: split; [|done]; intros ev Hev; trace_mem Hev; by subst.
  destruct Hdet as [(x & -> & _ & Hdb)|
                    (key' & av & stats & sstat & rest2 & -> & Hmeas & Hdec)].
  { split; [|done]. intros ev Hev; trace_mem Hev; by subst. }
  assert (Val key' = Val key) as [= ->].
  { apply Hkey. do 3 right. by left. }
  assert (fp_of av = video e) as Hav.
  { apply Hv. do 4 right. by left. }
  assert (sstat = subs e ∧ ∀ ev, ev ∈ stats → is_action ev = false)
    as [-> Hstats].
  { unfold measured in Hmeas. destruct (Dict.get base subs_map) as [p|];
      [destruct (truthy p)|].
    - destruct Hmeas as (a & -> & ->). split.
      + apply Hs. do 5 right. by left.
      + intros ev Hev. trace_mem Hev. by subst.
    - destruct Hmeas as [-> ->]. split; [done|]. intros ev Hev. by trace_mem Hev.
    - destruct Hmeas as [-> ->]. split; [done|]. intros ev Hev. by trace_mem Hev. }
  rewrite He, Hav in Hdec.
  rewrite (proj2 (needs_processing_some e (video e) (subs e))) in Hdec by done.
  destruct Hdec as (-> & -> & Hdb). split; [|done].
  intros ev Hev. trace_mem Hev; subst; try done. by apply Hstats.
Qed.

(** C2 (failure non-persistence, lines 74-91 and 190-193). If, while a
    candidate is handled, [cleanvid] exits with a non-zero status, then the
    loop body ends without an exception, the in-memory store is unchanged,
    no file is moved and nothing is written to the store file; and the
    decision taken for the candidate, made again on the store as it is
    afterwards with the same key and fingerprints, is still true, so the
    file is selected again. More generally the loop body changes the
    store only by recording the key and the fingerprints it measured, and
    only after an invocation that exited with status zero. *)
Theorem failed_invocation_leaves_no_record (subs_map : Dict.t string)
    (base vpath : string) (s s' : st) (o : outcome unit) (tr : list event) :
  handle_candidate json_chunks cfg subs_map (base, vpath) s = (o, s', tr) →
  (∀ cmd code, ERun cmd (Val code) ∈ tr → code ≠ 0 →
     o = Ok tt ∧ db s' = db s
     ∧ (∀ ev, ev ∈ tr → is_move ev = false ∧ is_store_write ev = false)
     ∧ ∃ key av stats sstat,
         EAbspath vpath (Val key) ∈ tr ∧ EStat vpath av ∈ tr
         ∧ measured (Dict.get base subs_map) stats sstat ∧ stats ⊆ tr
         ∧ needs_processing (db s' !! key) (fp_of av) sstat = true)
  ∧ (db s' = db s
     ∨ ∃ key av stats sstat now cmd,
         EAbspath vpath (Val key) ∈ tr ∧ EStat vpath av ∈ tr
         ∧ measured (Dict.get base subs_map) stats sstat ∧ stats ⊆ tr
         ∧ needs_processing (db s !! key) (fp_of av) sstat = true
         ∧ ERun cmd (Val 0) ∈ tr
         ∧ db s' = <[key := Entry (fp_of av) sstat now]> (db s)).
Proof.
  intros [(Hdb & [(x & -> & ->)|[(s1 & x & -> & ->)|(s1 & s2 & Hne & -> & ->)]])|
          (sz & rest & -> & Hdet)]%handle_candidate_inv.
  1-3: split; [|by left]; intros cmd code Hev; by trace_mem Hev.
  destruct Hdet as [(x & -> & _ & Hdb)|
                    (key & av & stats & sstat & rest2 & -> & Hmeas & Hdec)].
  { split; [|by left]. intros cmd code Hev; by trace_mem Hev. }
  assert (∀ ev, ev ∈ stats → ∃ p a, ev = EStat p a) as Hstats.
  { unfold measured in Hmeas. destruct (Dict.get base subs_map) as [p|];
      [destruct (truthy p)|].
    - destruct Hmeas as (a & -> & _). intros ev Hev. trace_mem Hev. by eexists _, _.
    - destruct Hmeas as [-> _]. intros ev Hev. by trace_mem Hev.
    - destruct Hmeas as [-> _]. intros ev Hev. by trace_mem Hev. }
  assert (∀ t, stats ⊆ EGetsize vpath (Val sz) :: ESleep 1 () ::
                       EGetsize vpath (Val sz) :: EAbspath vpath (Val key) ::
                       EStat vpath av :: stats ++ t) as Hsub.
  { intros t ev Hev. do 5 right. apply elem_of_app. by left. }
  destruct (needs_processing (db s !! key) (fp_of av) sstat) eqn:Hneeds.
  2: { destruct Hdec as (-> & -> & Hdb). split; [|by left].
       intros cmd code Hev. trace_mem Hev; try done.
       by destruct (Hstats _ Hev) as (? & ? & ?). }
  destruct Hdec as (pre & cmd & a & post & -> & Hpre & Hpost & _ & Hrec & Hfail).
  split.
  - intros cmd' code Hev Hcode.
    assert (a = Val code) as ->.
    { trace_mem Hev; try done.
      - by destruct (Hstats _ Hev) as (? & ? & ?).
      - by destruct (Hpre _ Hev) as (? & ? & ?).
      - by simplify_eq.
      - by specialize (Hpost _ Hev). }
    destruct Hfail as (-> & Hdb & Ho); [by intros [= ?]|].
    split_and!; [by eapply Ho|done| |].
    + intros ev Hev'. trace_mem Hev'; subst; try done.
      * by destruct (Hstats _ Hev') as (? & ? & ->).
      * by destruct (Hpre _ Hev') as (? & ? & ->).
    + exists key, av, stats, sstat. rewrite Hdb.
      split_and!; [|by do 4 right; left|done|apply Hsub|done].
      do 3 right. by left.
  - destruct Hrec as [?|(-> & now & Hdb)]; [by left|]. right.
    exists key, av, stats, sstat, now, cmd.
    split_and!; [| |done|apply Hsub|done| |done].
    + do 3 right. by left.
    + do 4 right. by left.
    + do 5 right. apply elem_of_app. right. apply elem_of_app. right. by left.
Qed.

End Candidate.


Lemma unchanged_candidate_is_skipped_witness :
  let r := handle_candidate MemOS.chunks MemOS.cfg0
             [("movie", "/data/in/movie.srt")]
             ("movie", "/data/in/movie.mkv") (State MemOS.w0 MemOS.db1) in
  (∀ ev, ev ∈ r.2 → is_action ev = false) ∧ db r.1.2 = MemOS.db1.
Proof.
  intros r. subst r.
  destruct (handle_candidate MemOS.chunks MemOS.cfg0
              [("movie", "/data/in/movie.srt")]
              ("movie", "/data/in/movie.mkv") (State MemOS.w0 MemOS.db1))
    as [[o s'] tr] eqn:E.
  pose proof E as E'. vm_compute in E'. injection E' as Ho Hs Ht. clear Hs.
  apply (unchanged_candidate_is_skipped _ _ _ _ _ "/data/in/movie.mkv"
           (Entry (Some (Fingerprint 10 100)) (Some (Fingerprint 4 101)) 1001)
           _ _ _ _ E).
  - reflexivity.
  - intros a Ha. rewrite <- Ht in Ha. trace_mem Ha; by simplify_eq.
  - intros a Ha. rewrite <- Ht in Ha. trace_mem Ha; by simplify_eq.
  - simpl. intros a Ha. rewrite <- Ht in Ha. trace_mem Ha; by simplify_eq.
Defined.

Lemma failed_invocation_leaves_no_record_witness :
  let r := handle_candidate MemOS.chunks MemOS.cfg0
             [("movie", "/data/in/movie.srt")]
             ("movie", "/data/in/movie.mkv") (State MemOS.w_fail ∅) in
  r.1.1 = Ok tt ∧ db r.1.2 = ∅.
Proof.
  intros r. subst r.
  destruct (handle_candidate MemOS.chunks MemOS.cfg0
              [("movie", "/data/in/movie.srt")]
              ("movie", "/data/in/movie.mkv") (State MemOS.w_fail ∅))
    as [[o s'] tr] eqn:E.
  pose proof E as E'. vm_compute in E'. injection E' as Ho Hs Ht. clear Hs.
  destruct (failed_invocation_leaves_no_record _ _ _ _ _ _ _ _ _ E) as [Hfail _].
  destruct (Hfail ["cleanvid"; "-i"; "/data/in/movie.mkv"; "-o";
                   "/data/in/movie_clean.mkv"; "-w"; "/data/swears.txt";
                   "-s"; "/data/in/movie.srt"] 1) as (Hok & Hdb & _).
  - rewrite <- Ht. apply (list_elem_of_lookup_2 _ 7%nat). reflexivity.
  - done.
  - simpl. by rewrite Hok, Hdb.
Defined.

(* ===================================================================== *)
(** * Interrupting a save                                                  *)
(* ===================================================================== *)

Section Replay.
Context {W : Type} `{HOS : OS W}.

Local Abbreviation st := (@state W).

Lemma replay_app (w : W) (t1 t2 : list event) :
  replay w (t1 ++ t2) = replay (replay w t1) t2.
Proof. apply fold_left_app. Qed.

Lemma faithful_ret {A} (a : A) : faithful (ret a).
Proof. intros s s' o tr H. by run_inv H. Qed.

Lemma faithful_raise {A} (e : exn) : faithful (raise (A := A) e).
Proof. intros s s' o tr H. by run_inv H. Qed.

Lemma faithful_bind {A B} (m : M A) (k : A → M B) :
  faithful m → (∀ a, faithful (k a)) → faithful (bind m k).
Proof.
  intros Hm Hk s s' o tr H. run_inv H.
  - rewrite replay_app, <- (Hm _ _ _ _ Hrun). by eapply Hk.
  - by eapply Hm.
Qed.

Lemma faithful_catch {A} (m h : M A) (cls : exn → bool) :
  faithful m → faithful h → faithful (catch m cls h).
Proof.
  intros Hm Hh s s' o tr H. run_inv H.
  - by eapply Hm.
  - by eapply Hm.
  - rewrite replay_app, <- (Hm _ _ _ _ Hrun). by eapply Hh.
Qed.

Lemma faithful_finally {A} (m : M A) (f : M unit) :
  faithful m → faithful f → faithful (finally m f).
Proof.
  intros Hm Hf s s' o tr (o1 & s1 & t1 & o2 & t2 & H1 & H2 & -> & _)%finally_inv.
  rewrite replay_app, <- (Hm _ _ _ _ H1). by eapply Hf.
Qed.

Lemma faithful_call_exn {A} (op : W → answer A * W) (ev : answer A → event) :
  (∀ a w, apply_event (ev a) w = (op w).2) → faithful (call_exn op ev).
Proof.
  intros Hev s s' o tr (a & w & Hop & -> & -> & _)%call_exn_inv.
  simpl. by rewrite Hev, Hop.
Qed.

Lemma faithful_for_each {A} (l : list A) (body : A → M unit) :
  (∀ x, faithful (body x)) → faithful (for_each l body).
Proof.
  intros Hb. induction l as [|x l IH]; simpl.
  - apply faithful_ret.
  - apply faithful_bind; [apply Hb|]. by intros _.
Qed.

Lemma faithful_save_db (json_chunks : gmap string entry → list string)
    (cfg : config) (d : gmap string entry) :
  faithful (save_db json_chunks cfg d).
Proof.
  unfold save_db, open_w, write, close, replace.
  apply faithful_catch; [|apply faithful_ret].
  apply faithful_bind; [by apply faithful_call_exn|]. intros _.
  apply faithful_bind; [|intros _; by apply faithful_call_exn].
  apply faithful_finally; [|by apply faithful_call_exn].
  apply faithful_for_each. intros c. by apply faithful_call_exn.
Qed.

End Replay.

Lemma tmp_name_differs (p : string) : p +:+ ".tmp" ≠ p.
Proof.
  intros H. assert (String.length (p +:+ ".tmp") = String.length p) as Hlen
    by by rewrite H.
  assert (∀ a b, String.length (a +:+ b) = (String.length a + String.length b)%nat)
    as Happ.
  { intros a b. induction a as [|c a IH]; [done|].
    rewrite app_cons. simpl. by rewrite IH. }
  rewrite Happ in Hlen. simpl in Hlen. lia.
Qed.

Section CrashSafety.
Context {W : Type} `{HOS : OS W}.
Variable json_chunks : gmap string entry → list string.
Variable json_loads : string → option (gmap string entry).
Variable cfg : config.

Local Abbreviation st := (@state W).

(** What the file system guarantees: [content w p] is the text of the
    regular file at path [p], if there is one. Opening, writing and
    closing a file leave the other files as they are; whether a path is a
    regular file, and what reading it gives, depend on the file only. *)
Variable content : W → string → option string.
Hypothesis open_w_frame :
  ∀ p q w, q ≠ p → content (os_open_w p w).2 q = content w q.
Hypothesis write_frame :
  ∀ p chunk q w, q ≠ p → content (os_write p chunk w).2 q = content w q.
Hypothesis close_frame :
  ∀ p q w, q ≠ p → content (os_close p w).2 q = content w q.
Hypothesis isfile_content :
  ∀ p w, (os_isfile p w).1 = bool_decide (is_Some (content w p))
         ∧ content (os_isfile p w).2 p = content w p.
Hypothesis read_content :
  ∀ p w w', content w p = content w' p → (os_read p w).1 = (os_read p w').1.

Lemma replay_frame (tmp q : string) (tr : list event) (w : W) :
  q ≠ tmp → (∀ ev, ev ∈ tr → touches tmp ev) →
  content (replay w tr) q = content w q.
Proof.
  intros Hq. revert w. induction tr as [|ev tr IH]; intros w Htouch; [done|].
  change (replay w (ev :: tr)) with (replay (apply_event ev w) tr).
  rewrite IH by (intros ev' ?; apply Htouch; by right).
  assert (touches tmp ev) as Hev by (apply Htouch; by left).
  destruct ev; simpl in Hev; try done; subst; simpl; auto.
Qed.

(** What [load_db] returns, from the answers of the two calls it makes. *)
Lemma load_db_value (s : st) :
  (load_db json_loads cfg s).1.1 =
    Ok (let '(f, w1) := os_isfile (processed_db cfg) (world s) in
        if f then
          match (os_read (processed_db cfg) w1).1 with
          | Val text => default ∅ (json_loads text)
          | Err _ => ∅
          end
        else ∅).
Proof.
  unfold load_db, bind, catch, isfile, read, call_exn, bind, call, ret, raise.
  simpl. destruct (os_isfile (processed_db cfg) (world s)) as [f w1]. simpl.
  destruct f; [|reflexivity]. cbn [world db].
  destruct (os_read (processed_db cfg) w1) as [[text|e] w2]; [|reflexivity].
  cbn [fst]. by destruct (json_loads text).
Qed.

(** What [load_db] returns depends on the store file only. *)
Lemma load_db_content (s1 s2 : st) :
  content (world s1) (processed_db cfg) = content (world s2) (processed_db cfg) →
  (load_db json_loads cfg s1).1.1 = (load_db json_loads cfg s2).1.1.
Proof.
  intros Hc. rewrite !load_db_value. f_equal.
  destruct (isfile_content (processed_db cfg) (world s1)) as [Hf1 Hc1].
  destruct (isfile_content (processed_db cfg) (world s2)) as [Hf2 Hc2].
  destruct (os_isfile (processed_db cfg) (world s1)) as [f1 w1].
  destruct (os_isfile (processed_db cfg) (world s2)) as [f2 w2].
  simpl in *. subst f1 f2. rewrite Hc. destruct (bool_decide _); [|done].
  by rewrite (read_content (processed_db cfg) w1 w2) by congruence.
Qed.


End CrashSafety.

(** The in-memory file system keeps these guarantees. *)
Lemma mem_open_w_frame (p q : string) (w : MemOS.mem) :
  q ≠ p → MemOS.content (MemOS.m_open_w p w).2 q = MemOS.content w q.
Proof. intros Hq. unfold MemOS.content. simpl. by rewrite lookup_insert_ne. Qed.

Lemma mem_write_frame (p chunk q : string) (w : MemOS.mem) :
  q ≠ p → MemOS.content (MemOS.m_write p chunk w).2 q = MemOS.content w q.
Proof.
  intros Hq. unfold MemOS.content, MemOS.m_write.
  destruct (MemOS.files w !! p) as [[text t]|]; [|done].
  simpl. by rewrite lookup_insert_ne.
Qed.

Lemma mem_close_frame (p q : string) (w : MemOS.mem) :
  q ≠ p → MemOS.content (MemOS.m_close p w).2 q = MemOS.content w q.
Proof. done. Qed.

Lemma mem_isfile_content (p : string) (w : MemOS.mem) :
  (MemOS.m_isfile p w).1 = bool_decide (is_Some (MemOS.content w p))
  ∧ MemOS.content (MemOS.m_isfile p w).2 p = MemOS.content w p.
Proof.
  split; [|done]. unfold MemOS.content. simpl. apply bool_decide_ext.
  by rewrite fmap_is_Some.
Qed.

Lemma mem_read_content (p : string) (w w' : MemOS.mem) :
  MemOS.content w p = MemOS.content w' p →
  (MemOS.m_read p w).1 = (MemOS.m_read p w').1.
Proof.
  unfold MemOS.content, MemOS.m_read.
  destruct (MemOS.files w !! p) as [[text t]|],
           (MemOS.files w' !! p) as [[text' t']|]; simpl; congruence.
Qed.


(* ===================================================================== *)
(** * The poll loop                                                        *)
(* ===================================================================== *)

Lemma count_sleeps_app (secs : Q) (t1 t2 : list event) :
  count_sleeps secs (t1 ++ t2) = (count_sleeps secs t1 + count_sleeps secs t2)%nat.
Proof. unfold count_sleeps. by rewrite List.filter_app, length_app. Qed.

Section Loop.
Context {W : Type} `{HOS : OS W}.
Variable json_chunks : gmap string entry → list string.
Variable cfg : config.

Local Abbreviation st := (@state W).

(** One turn of the loop with a sleep length that [time.sleep] accepts. *)
Lemma loop_body_completes (s : st) :
  Qle_bool 0 (poll_interval cfg) = true →
  ∃ s' tr, loop_body json_chunks cfg s = (Ok tt, s', tr)
           ∧ (1 ≤ count_sleeps (poll_interval cfg) tr)%nat.
Proof.
  intros Hq. unfold loop_body, bind.
  destruct (catch_all_completes (cycle json_chunks cfg) s) as ([] & s1 & t1 & ->).
  unfold time_sleep. rewrite Hq. unfold call.
  destruct (os_sleep (poll_interval cfg) (world s1)) as [[] w].
  eexists _, _. split; [reflexivity|].
  rewrite count_sleeps_app. unfold count_sleeps at 2. simpl.
  rewrite Qeq_bool_refl. simpl. lia.
Qed.


End Loop.



(** Without [cleanvid] on the path the cycle itself ends with [OSError];
    the loop goes on. *)
Example missing_tool_ex :
  (cycle MemOS.chunks MemOS.cfg0 (State MemOS.w_missing ∅)).1.1 = Raise OSError
  ∧ (main_loop MemOS.chunks MemOS.cfg0 2 (State MemOS.w_missing ∅)).1.1 = Ok tt.
Proof. by vm_compute. Qed.

(* ===================================================================== *)
(** * The store over whole cycles                                          *)
(* ===================================================================== *)

Section StoreInvariant.
Context {W : Type} `{HOS : OS W}.
Variable json_chunks : gmap string entry → list string.
Variable cfg : config.

Local Abbreviation st := (@state W).

Lemma records_refl (s s' : st) (tr : list event) :
  db s' = db s → records_are_successes cfg s s' tr.
Proof. intros Hdb key e He. left. by rewrite <- Hdb. Qed.

Lemma records_trans (s1 s2 s3 : st) (t1 t2 : list event) :
  records_are_successes cfg s1 s2 t1 → records_are_successes cfg s2 s3 t2 →
  records_are_successes cfg s1 s3 (t1 ++ t2).
Proof.
  intros H1 H2 key e He.
  destruct (H2 key e He) as [He2|(v & av & cmd & tail & ? & ? & ? & ? & ?)].
  - destruct (H1 key e He2) as [?|(v & av & cmd & tail & ? & ? & ? & ? & ?)];
      [by left|].
    right. exists v, av, cmd, tail. rewrite !elem_of_app. by split_and!; try left.
  - right. exists v, av, cmd, tail. rewrite !elem_of_app. by split_and!; try right.
Qed.

Lemma handle_candidate_records (subs_map : Dict.t string) (item : string * string)
    (s s' : st) o tr :
  handle_candidate json_chunks cfg subs_map item s = (o, s', tr) →
  records_are_successes cfg s s' tr.
Proof.
  destruct item as [base vpath].
  intros [(Hdb & _)|(sz & rest & -> & Hdet)]%handle_candidate_inv;
    [by apply records_refl|].
  destruct Hdet as [(x & -> & _ & Hdb)|
                    (key & av & stats & sstat & rest2 & -> & _ & Hdec)];
    [by apply records_refl|].
  destruct (needs_processing (db s !! key) (fp_of av) sstat).
  2: { destruct Hdec as (_ & _ & Hdb). by apply records_refl. }
  destruct Hdec as (pre & cmd & a & post & -> & _ & _ & (tail & Hcmd)
                    & [Hdb|(-> & now & Hdb)] & _); [by apply records_refl|].
  intros k e He. rewrite Hdb in He.
  destruct (decide (key = k)) as [<-|Hk].
  - rewrite lookup_insert_eq in He. injection He as <-. right.
    exists vpath, av, cmd, tail. split_and!; [| |done| |done].
    + do 3 right. by left.
    + do 4 right. by left.
    + do 5 right. apply elem_of_app. right. apply elem_of_app. right. by left.
  - rewrite lookup_insert_ne in He by done. by left.
Qed.

Lemma for_each_records {A} (l : list A) (body : A → M unit) (s s' : st) o tr :
  (∀ x s1 s2 o1 t1, body x s1 = (o1, s2, t1) → records_are_successes cfg s1 s2 t1) →
  for_each l body s = (o, s', tr) → records_are_successes cfg s s' tr.
Proof.
  intros Hbody. revert s tr. induction l as [|x l IH]; intros s tr Hrun;
    simpl in Hrun.
  - run_inv Hrun. by apply records_refl.
  - run_inv Hrun.
    + eapply records_trans; [by eapply Hbody|by eapply IH].
    + by eapply Hbody.
Qed.

Lemma scan_keeps_db (dirs : list string) (vm sm : Dict.t string) (s s' : st) o tr :
  scan dirs vm sm s = (o, s', tr) → db s' = db s.
Proof.
  revert vm sm s tr. induction dirs as [|d ds IH]; intros vm sm s tr Hrun;
    simpl in Hrun.
  - by run_inv Hrun.
  - run_inv Hrun; [|by apply find_videos_scanned in Hrun as [? _]].
    apply find_videos_scanned in Hrun0 as [Hdb0 _].
    run_inv Hrun.
    + apply find_subs_scanned in Hrun0 as [Hdb1 _].
      apply IH in Hrun. congruence.
    + apply find_subs_scanned in Hrun as [Hdb1 _]. congruence.
Qed.

Lemma cycle_records (s s' : st) o tr :
  cycle json_chunks cfg s = (o, s', tr) → records_are_successes cfg s s' tr.
Proof.
  unfold cycle. intros Hrun. run_inv Hrun.
  - apply scan_keeps_db in Hrun0. destruct x as [vm sm].
    eapply records_trans; [by apply records_refl|].
    eapply for_each_records; [|done]. intros. by eapply handle_candidate_records.
  - apply scan_keeps_db in Hrun. by apply records_refl.
Qed.

Lemma loop_body_records (s s' : st) o tr :
  loop_body json_chunks cfg s = (o, s', tr) → records_are_successes cfg s s' tr.
Proof.
  unfold loop_body. intros Hrun.
  assert (∀ s1 s2 o1 t1, catch (cycle json_chunks cfg) is_Exception (ret tt) s1
                         = (o1, s2, t1) → records_are_successes cfg s1 s2 t1) as Hc.
  { intros s1 s2 o1 t1 H. run_inv H; [by eapply cycle_records|].
    run_inv H. rewrite (right_id_L [] (++)). by eapply cycle_records. }
  run_inv Hrun; [|by eapply Hc].
  eapply records_trans; [by eapply Hc|].
  apply time_sleep_inv in Hrun as [(_ & _ & Hdb & _)|(_ & _ & -> & _)];
    by apply records_refl.
Qed.

(** X1. The store's invariant (data model; lines 150-196): however many turns
    the loop makes, and whatever they raise, every record the store holds
    afterwards either was there when the loop started or holds the
    fingerprint measured for a video whose [cleanvid] run exited with
    status zero. No record comes from a failed invocation. *)
Theorem store_holds_only_successes (n : nat) (s s' : st) (o : outcome unit)
    (tr : list event) :
  main_loop json_chunks cfg n s = (o, s', tr) → records_are_successes cfg s s' tr.
Proof.
  revert s tr. induction n as [|n IH]; intros s tr Hrun; simpl in Hrun.
  - run_inv Hrun. by apply records_refl.
  - run_inv Hrun.
    + eapply records_trans; [by eapply loop_body_records|by eapply IH].
    + by eapply loop_body_records.
Qed.

End StoreInvariant.

Lemma store_holds_only_successes_witness :
  let r := main_loop MemOS.chunks MemOS.cfg0 1 MemOS.s0 in
  records_are_successes MemOS.cfg0 MemOS.s0 r.1.2 r.2
  ∧ db r.1.2 !! "/data/in/movie.mkv"
    = Some (Entry (Some (Fingerprint 10 100)) (Some (Fingerprint 4 101)) 1001).
Proof.
  intros r. subst r.
  destruct (main_loop MemOS.chunks MemOS.cfg0 1 MemOS.s0) as [[o s'] tr] eqn:E.
  split.
  - exact (store_holds_only_successes _ _ _ _ _ _ _ E).
  - vm_compute in E. injection E as _ <- _. reflexivity.
Defined.

(* ===================================================================== *)
(** * The output file is a new name                                        *)
(* ===================================================================== *)

Lemma string_length_app (a b : string) :
  String.length (a +:+ b) = (String.length a + String.length b)%nat.
Proof. induction a as [|c a IH]; [done|]. rewrite app_cons. simpl. by rewrite IH. Qed.

(** A slash-free name, split and put together again with [_clean] before
    the extension, splits at the same place. *)
Lemma splitext_clean (t : string) :
  contains "/" t = false →
  splitext (fst (splitext t) +:+ "_clean" +:+ snd (splitext t))
  = (fst (splitext t) +:+ "_clean", snd (splitext t)).
Proof.
  intros Hs.
  assert (contains "/" (t +:+ "_clean") = false) as Hs'
    by (by rewrite contains_app, Hs).
  pose proof (rsplit_ext_app t) as Happ.
  assert (splitext t = (t, "") ∧
            (contains "." t = false
             ∨ ∃ root b, t = root +:+ String "." b ∧ all_dots root = true
                         ∧ contains "." b = false)
          ∨ ∃ root b, splitext t = (root, String "." b) ∧ t = root +:+ String "." b
                      ∧ all_dots root = false ∧ contains "." b = false)
    as [[Hst Hwhy]|(root & b & Hst & Ht & Hr & Hb)].
  { unfold splitext. rewrite (rsplit_sep_plain _ Hs).
    destruct (rsplit_ext_shape t) as [(He & Hr & Hd)|(b & He & Hb)];
      destruct (rsplit_ext t) as [root ext]; simpl in *; subst ext.
    - left. split; [done|by left].
    - destruct (all_dots root) eqn:Hr.
      + left. split; [done|]. right. by exists root, b.
      + right. exists root, b. by rewrite app_nil_l. }
  - rewrite Hst. simpl. rewrite app_nil_r. unfold splitext.
    rewrite (rsplit_sep_plain _ Hs').
    destruct Hwhy as [Hd|(root & b & Ht & Hr & Hb)].
    + destruct (rsplit_ext_shape (t +:+ "_clean")) as [(He' & Hr' & _)|(b & He' & _)].
      * destruct (rsplit_ext (t +:+ "_clean")) as [root' ext']. simpl in *. by subst.
      * pose proof (rsplit_ext_app (t +:+ "_clean")) as H'. rewrite He' in H'.
        assert (contains "." (t +:+ "_clean") = true) as Hc.
        { rewrite <- H', contains_app. simpl. apply orb_true_r. }
        rewrite contains_app, Hd in Hc. done.
    + rewrite Ht at 1. rewrite app_assoc, app_cons.
      rewrite rsplit_ext_dot by (by rewrite contains_app, Hb).
      by rewrite Hr.
  - rewrite Hst. simpl. rewrite <- app_assoc.
    apply splitext_name; [|by apply all_dots_app_false|done].
    rewrite Ht, !contains_app in Hs. simpl in Hs.
    rewrite !contains_app. simpl.
    apply orb_false_iff in Hs as [-> Hs]. done.
Qed.

(** X10 (lines 62-67). For every input path and both placements, the
    output file is a new name: it is not the input, its stem is the
    input's stem followed by [_clean], so it is no file with the input's
    stem either (the paired subtitle among them), and its extension is
    the input's. *)
Theorem out_file_is_a_new_name (video_path output_dir : string) (next : bool) :
  let out := out_file video_path output_dir next in
  out ≠ video_path
  ∧ stem out = stem video_path +:+ "_clean"
  ∧ snd (splitext out) = snd (splitext video_path)
  ∧ ∀ srt, stem srt = stem video_path → out ≠ srt.
Proof.
  intros out.
  assert (basename out = stem video_path +:+ "_clean" +:+ snd (splitext video_path))
    as Hbase.
  { unfold out, out_file. destruct next; apply basename_join, clean_name_no_sep. }
  assert (splitext (basename out)
          = (stem video_path +:+ "_clean", snd (splitext video_path))) as Hsplit.
  { rewrite Hbase. unfold stem.
    destruct (splitext_basename video_path) as [-> _].
    apply splitext_clean, basename_no_sep. }
  assert (stem out = stem video_path +:+ "_clean") as Hstem.
  { unfold stem at 1. by rewrite Hsplit. }
  assert (∀ srt, stem srt = stem video_path → out ≠ srt) as Hne.
  { intros srt Hs Heq. rewrite <- Heq, Hstem in Hs.
    apply (f_equal String.length) in Hs. rewrite string_length_app in Hs.
    simpl in Hs. lia. }
  split_and!; [by apply Hne|done| |done].
  destruct (splitext_basename out) as [-> _]. by rewrite Hsplit.
Qed.

(* ===================================================================== *)
(** * The configuration                                                    *)
(* ===================================================================== *)

Module ConfigFacts.

Lemma rstrip_cons (c : ascii) (r : string) :
  rstrip (String c r) =
    match rstrip r with
    | EmptyString => if is_space c then "" else String c ""
    | r' => String c r'
    end.
Proof. reflexivity. Qed.

Lemma rstrip_idem (s : string) : rstrip (rstrip s) = rstrip s.
Proof.
  induction s as [|c r IH]; [done|]. rewrite rstrip_cons.
  destruct (rstrip r) as [|x r'] eqn:E.
  - destruct (is_space c) eqn:Ec; [done|]. rewrite rstrip_cons. simpl. by rewrite Ec.
  - rewrite rstrip_cons, IH. done.
Qed.

(** [lstrip] leaves nothing or a string that starts with a character that
    is not whitespace; [rstrip] keeps such a start. *)
Lemma lstrip_head (s : string) :
  lstrip s = "" ∨ ∃ c r, lstrip s = String c r ∧ is_space c = false.
Proof.
  induction s as [|c r IH]; [by left|]. simpl.
  destruct (is_space c) eqn:Ec; [done|]. right. by exists c, r.
Qed.

Lemma rstrip_head (c : ascii) (r : string) :
  is_space c = false → ∃ r', rstrip (String c r) = String c r'.
Proof.
  intros Hc. rewrite rstrip_cons. destruct (rstrip r); rewrite ?Hc; by eexists.
Qed.

Lemma strip_head (s : string) :
  strip s = "" ∨ ∃ c r, strip s = String c r ∧ is_space c = false.
Proof.
  unfold strip. destruct (lstrip_head s) as [->|(c & r & -> & Hc)]; [by left|].
  right. destruct (rstrip_head c r Hc) as [r' ->]. by exists c, r'.
Qed.

Lemma strip_idem (s : string) : strip (strip s) = strip s.
Proof.
  destruct (strip_head s) as [E|(c & r & E & Hc)]; rewrite E; [done|].
  unfold strip at 1. simpl. rewrite Hc. rewrite <- E. unfold strip.
  apply rstrip_idem.
Qed.

Lemma contains_lstrip (c : ascii) (s : string) :
  contains c s = false → contains c (lstrip s) = false.
Proof.
  induction s as [|x r IH]; [done|]. intros H. simpl.
  destruct (is_space x); [|done]. apply IH. simpl in H.
  by apply orb_false_iff in H as [_ ?].
Qed.

Lemma contains_rstrip (c : ascii) (s : string) :
  contains c s = false → contains c (rstrip s) = false.
Proof.
  induction s as [|x r IH]; [done|]. simpl.
  intros [Hx Hr]%orb_false_iff. specialize (IH Hr).
  destruct (rstrip r) as [|y r'].
  - destruct (is_space x); [done|]. simpl. by rewrite Hx.
  - simpl. rewrite Hx. exact IH.
Qed.

Lemma contains_strip (c : ascii) (s : string) :
  contains c s = false → contains c (strip s) = false.
Proof. intros H. by apply contains_rstrip, contains_lstrip. Qed.

Lemma split_cons (sep c : ascii) (r : string) :
  split sep (String c r) =
    if Ascii.eqb c sep then "" :: split sep r
    else match split sep r with
         | x :: xs => String c x :: xs
         | [] => [String c ""]
         end.
Proof. reflexivity. Qed.

Lemma split_no_sep (sep : ascii) (s x : string) :
  x ∈ split sep s → contains sep x = false.
Proof.
  revert x. induction s as [|c r IH]; intros x Hx.
  - apply list_elem_of_singleton in Hx. by subst.
  - rewrite split_cons in Hx. destruct (Ascii.eqb c sep) eqn:Ec.
    + apply elem_of_cons in Hx as [->|Hx]; [done|by apply IH].
    + destruct (split sep r) as [|y ys].
      * apply list_elem_of_singleton in Hx. subst. simpl. by rewrite Ec.
      * apply elem_of_cons in Hx as [->|Hx].
        -- simpl. rewrite Ec. apply IH. by left.
        -- apply IH. by right.
Qed.

Lemma split_plain (sep : ascii) (x : string) :
  contains sep x = false → split sep x = [x].
Proof.
  induction x as [|c r IH]; [done|]. simpl contains.
  intros [Hc Hr]%orb_false_iff. by rewrite split_cons, Hc, IH.
Qed.

Lemma split_app (sep : ascii) (x y : string) :
  contains sep x = false → split sep (x +:+ String sep y) = x :: split sep y.
Proof.
  induction x as [|c r IH].
  - intros _. rewrite app_nil_l, split_cons. by rewrite Ascii.eqb_refl.
  - simpl contains. intros [Hc Hr]%orb_false_iff.
    by rewrite app_cons, split_cons, Hc, IH.
Qed.

Lemma split_join (sep : ascii) (l : list string) :
  l ≠ [] → (∀ x, x ∈ l → contains sep x = false) →
  split sep (Str.join (String sep "") l) = l.
Proof.
  induction l as [|x l IH]; [done|]. intros _ Hl.
  assert (contains sep x = false) as Hx by (apply Hl; by left).
  destruct l as [|y l]; [by apply split_plain|].
  change (Str.join (String sep "") (x :: y :: l))
    with (x +:+ String sep "" +:+ Str.join (String sep "") (y :: l)).
  rewrite app_cons, app_nil_l, split_app by done.
  rewrite IH; [done|done|]. intros z Hz. apply Hl. by right.
Qed.

Lemma parse_watch_dirs_clean (v d : string) :
  d ∈ parse_watch_dirs v →
  truthy d = true ∧ strip d = d ∧ contains "," d = false.
Proof.
  intros Hd. unfold parse_watch_dirs in Hd.
  apply list_elem_of_In, in_map_iff in Hd as (x & <- & Hx).
  apply filter_In in Hx as [Hx Ht]. split_and!; [done|apply strip_idem|].
  apply contains_strip. eapply split_no_sep. by apply list_elem_of_In.
Qed.

Lemma parse_watch_dirs_join (ds : list string) :
  (∀ d, d ∈ ds → truthy d = true ∧ strip d = d ∧ contains "," d = false) →
  parse_watch_dirs (Str.join "," ds) = ds.
Proof.
  intros Hds. unfold parse_watch_dirs.
  destruct ds as [|d ds]; [done|].
  rewrite split_join; [|done|intros x Hx; by apply Hds].
  induction (d :: ds) as [|x l IH]; [done|].
  destruct (Hds x) as (Ht & Hs & _); [by left|].
  simpl. rewrite Hs, Ht. simpl. rewrite Hs. f_equal. apply IH.
  intros y Hy. apply Hds. by right.
Qed.

End ConfigFacts.


Example watch_dirs_ex :
  parse_watch_dirs "/data/in,/data/usb1,/data/usb2"
    = ["/data/in"; "/data/usb1"; "/data/usb2"]
  ∧ parse_watch_dirs " /a , ,/b,,/c d " = ["/a"; "/b"; "/c d"]
  ∧ parse_watch_dirs "" = [] ∧ parse_watch_dirs " , " = []
  ∧ parse_flag "TRUE" = true ∧ parse_flag "Yes" = true ∧ parse_flag "1" = true
  ∧ parse_flag "on" = false ∧ parse_flag "" = false.
Proof. by vm_compute. Qed.

Section ReadConfig.
Context {W : Type} `{HOS : OS W}.

Local Abbreviation st := (@state W).


End ReadConfig.

(* ===================================================================== *)
(** * Loading the store and starting                                       *)
(* ===================================================================== *)

Section Startup.
Context {W : Type} `{HOS : OS W}.
Variable json_chunks : gmap string entry → list string.
Variable json_loads : string → option (gmap string entry).
Variable cfg : config.

Local Abbreviation st := (@state W).

Lemma load_db_run (s : st) :
  ∃ d s' tr, load_db json_loads cfg s = (Ok d, s', tr)
    ∧ db s' = db s
    ∧ (tr = [EIsfile (processed_db cfg) false] ∧ d = ∅
       ∨ (∃ e, tr = [EIsfile (processed_db cfg) true;
                     ERead (processed_db cfg) (Err e)] ∧ d = ∅)
       ∨ (∃ text, tr = [EIsfile (processed_db cfg) true;
                        ERead (processed_db cfg) (Val text)]
                  ∧ d = default ∅ (json_loads text))).
Proof.
  unfold load_db, bind, catch, isfile, read, call_exn, bind, call, ret, raise.
  simpl. destruct (os_isfile (processed_db cfg) (world s)) as [[] w1]; simpl.
  - destruct (os_read (processed_db cfg) w1) as [[text|e] w2]; simpl.
    + destruct (json_loads text) as [d|] eqn:E; simpl;
        (eexists _, _, _; split; [reflexivity|]; split; [done|]);
        right; right; exists text; by rewrite E.
    + eexists _, _, _. split; [reflexivity|]. split; [done|].
      right. left. by exists e.
  - eexists _, _, _. split; [reflexivity|]. split; [done|]. by left.
Qed.

(** X2 (lines 116-123). [load_db] never raises and changes nothing. It
    tests whether the store file is a regular file and, if so, reads it:
    these are its only calls. A store file that is missing, that cannot
    be read, or whose text [json.load] rejects gives the empty store, so
    a store that is not empty always comes from a text that was read and
    parsed. *)
Theorem load_db_is_silent (s : st) :
  ∃ d s' tr, load_db json_loads cfg s = (Ok d, s', tr)
    ∧ db s' = db s
    ∧ (tr = [EIsfile (processed_db cfg) false]
       ∨ ∃ a, tr = [EIsfile (processed_db cfg) true; ERead (processed_db cfg) a])
    ∧ (d = ∅
       ∨ ∃ text, ERead (processed_db cfg) (Val text) ∈ tr
                 ∧ json_loads text = Some d).
Proof.
  destruct (load_db_run s) as (d & s' & tr & Hrun & Hdb & Hshape).
  exists d, s', tr. split_and!; [done..| |].
  - destruct Hshape as [[-> _]|[(e & -> & _)|(text & -> & _)]];
      [by left|right; by eexists..].
  - destruct Hshape as [[_ ->]|[(e & _ & ->)|(text & -> & ->)]]; [by left..|].
    destruct (json_loads text) as [d|] eqn:E; [|by left].
    right. exists text. split; [|done]. right. by left.
Qed.

Lemma ensure_dirs_inv (ds : list string) (s s' : st) o tr :
  for_each ds ensure_dir s = (o, s', tr) →
  db s' = db s
  ∧ (o = Ok tt ∧ tr = created ds
     ∨ ∃ e made d rest, o = Raise e ∧ ds = made ++ d :: rest
                        ∧ tr = created made ++ [EMakedirs d (Err e)]).
Proof.
  revert s tr. induction ds as [|d ds IH]; intros s tr Hrun; simpl in Hrun.
  - run_inv Hrun. split; [done|]. by left.
  - run_inv Hrun.
    + run_inv Hrun0. apply IH in Hrun as (Hdb & Hcase). split; [done|].
      destruct Hcase as [[-> ->]|(e & made & d' & rest & -> & -> & ->)].
      * left. split; [done|]. by destruct a.
      * right. exists e, (d :: made), d', rest. split_and!; [done..|].
        by destruct a.
    + run_inv Hrun. split; [done|]. right. by exists e, [], d, ds.
Qed.

Lemma make_dirs_inv (s s' : st) o tm :
  bind (for_each (watch_dirs cfg) ensure_dir)
    (λ _, bind (ensure_dir (output_dir cfg))
            (λ _, ensure_dir (processed_dir cfg))) s = (o, s', tm) →
  let dirs := watch_dirs cfg ++ [output_dir cfg; processed_dir cfg] in
  db s' = db s
  ∧ (o = Ok tt ∧ tm = created dirs
     ∨ ∃ e made d rest, o = Raise e ∧ dirs = made ++ d :: rest
                        ∧ tm = created made ++ [EMakedirs d (Err e)]).
Proof.
  intros Hrun dirs. run_inv Hrun.
  2: { apply ensure_dirs_inv in Hrun
         as (Hdb & [[? _]|(e & made & d' & rest & [= <-] & Hds & ->)]); [done|].
       split; [done|]. right.
       exists x, made, d', (rest ++ [output_dir cfg; processed_dir cfg]).
       split_and!; [done| |done]. unfold dirs. rewrite Hds.
       by rewrite <- (assoc_L (++)). }
  apply ensure_dirs_inv in Hrun0
    as (Hdb & [[_ ->]|(e & made & d' & rest & ? & _)]); [|done].
  run_inv Hrun.
  2: { run_inv Hrun. split; [simpl in *; congruence|].
       right. exists e, (watch_dirs cfg), (output_dir cfg), [processed_dir cfg].
       done. }
  run_inv Hrun0. run_inv Hrun.
  - split; [simpl in *; congruence|]. left.
    repeat match goal with u : unit |- _ => destruct u end.
    split; [done|]. unfold dirs, created. by rewrite fmap_app.
  - split; [simpl in *; congruence|]. right.
    repeat match goal with u : unit |- _ => destruct u end.
    exists e, (watch_dirs cfg ++ [output_dir cfg]), (processed_dir cfg), [].
    split_and!; [done|by rewrite <- (assoc_L (++))|].
    unfold created. rewrite fmap_app. by rewrite <- (assoc_L (++)).
Qed.

(** X11 (lines 141-146). [main] starts by loading the store, which cannot
    fail, and then creates the watch roots, the output directory and the
    processed directory, in that order. The first directory that cannot
    be created ends [main] with the exception of [os.makedirs]: the
    directories after it are not created and the loop does not start. *)
Theorem startup_creates_directories (s s' : st) (o : outcome unit)
    (tr : list event) :
  startup json_loads cfg s = (o, s', tr) →
  let dirs := watch_dirs cfg ++ [output_dir cfg; processed_dir cfg] in
  ∃ sl tl tm,
    load_db json_loads cfg s = (Ok (db s'), sl, tl)
    ∧ tr = tl ++ tm
    ∧ (o = Ok tt ∧ tm = created dirs
       ∨ ∃ e made d rest, o = Raise e ∧ dirs = made ++ d :: rest
                          ∧ tm = created made ++ [EMakedirs d (Err e)])
    ∧ (∀ e, o = Raise e →
         ∀ n, main json_chunks json_loads cfg n s = (Raise e, s', tr)).
Proof.
  intros Hrun dirs.
  assert (∀ e, o = Raise e →
            ∀ n, main json_chunks json_loads cfg n s = (Raise e, s', tr)) as Hmain.
  { intros e -> n. unfold main, bind. by rewrite Hrun. }
  unfold startup in Hrun.
  destruct (load_db_run s) as (d & sl & tl & Hload & _ & _).
  run_inv Hrun; [|congruence]. rewrite Hload in Hrun0. simplify_eq.
  run_inv Hrun. run_inv Hrun0. simpl in Hrun.
  apply make_dirs_inv in Hrun as (Hdb & Hcase). simpl in Hdb.
  eexists _, _, _. rewrite Hdb. split_and!; [exact Hload|reflexivity|exact Hcase|done].
Qed.

End Startup.

(* ===================================================================== *)
(** * One candidate, call by call                                          *)
(* ===================================================================== *)

Section Shapes.
Context {W : Type} `{HOS : OS W}.
Variable json_chunks : gmap string entry → list string.
Variable cfg : config.

Local Abbreviation st := (@state W).

Lemma srt_present_shape (srt : option string) (s s' : st) o tr :
  srt_present srt s = (o, s', tr) →
  db s' = db s
  ∧ ∃ b, o = Ok b
      ∧ ((tr = [] ∧ b = false)
         ∨ ∃ p, srt = Some p ∧ truthy p = true ∧ tr = [EIsfile p b]).
Proof.
  unfold srt_present. intros Hrun.
  destruct srt as [p|]; [destruct (truthy p) eqn:Hp|]; repeat run_step;
    (split; [done|]); eexists; (split; [done|]);
    first [by left | right; by exists p].
Qed.

Lemma relocate_shape (v : string) (srt : option string) (pd : string)
    (s s' : st) o tr :
  relocate v srt pd s = (o, s', tr) →
  db s' = db s
  ∧ (∀ ev, ev ∈ tr → reloc_ok v srt pd ev)
  ∧ ∃ am rest, tr = EMakedirs pd am :: rest
      ∧ (∀ p r, EMakedirs p r ∉ rest)
      ∧ match am with
        | Val _ => o = Ok tt
        | Err e => rest = [] ∧ o = Raise e
        end.
Proof.
  unfold relocate. intros Hrun.
  repeat first
    [ match goal with
      | H : catch (move _ _) _ _ _ = _ |- _ =>
          apply caught_move_inv in H as (? & ? & ? & ?); simplify_eq
      | H : srt_present _ _ = _ |- _ =>
          apply srt_present_shape in H
            as (? & ? & ? & [(? & ?)|(? & ? & ? & ?)]); simplify_eq
      end
    | run_step ];
    (split; [simpl in *; congruence|]);
    (split; [intros ev Hev; trace_mem Hev; subst; simpl; auto|]);
    eexists _, _; (split; [reflexivity|]);
    (split; [intros p r Hev; trace_mem Hev; done|]); done.
Qed.

Lemma subprocess_run_inv (cmd : list string) (s s' : st) o tr :
  subprocess_run cmd s = (o, s', tr) →
  db s' = db s
  ∧ ∃ a, tr = [ERun cmd a]
      ∧ o = match a with
            | Val code => if code =? 0 then Ok tt else Raise CalledProcessError
            | Err e => Raise e
            end.
Proof.
  unfold subprocess_run. intros Hrun. repeat run_step;
    (split; [done|]); eexists; (split; [reflexivity|]); simpl;
    by match goal with H : (_ =? _) = _ |- _ => rewrite H end || done.
Qed.

Lemma process_shape (v : string) (srt : option string) (od pd sw : string)
    (pres next : bool) (s s' : st) o tr :
  process v srt od pd sw pres next s = (o, s', tr) →
  db s' = db s
  ∧ ∃ pre cmd a post, tr = pre ++ ERun cmd a :: post
      ∧ (∀ ev, ev ∈ pre → ∃ p b, srt = Some p ∧ ev = EIsfile p b)
      ∧ (∃ tail, cmd = ["cleanvid"; "-i"; v; "-o"; out_file v od next; "-w"; sw]
                       ++ tail
                 ∧ (tail = [] ∨ ∃ p, srt = Some p ∧ tail = ["-s"; p]))
      ∧ (∀ ev, ev ∈ post → pres = false ∧ reloc_ok v srt pd ev)
      ∧ process_result pres pd a post o.
Proof.
  unfold process, process_result. intros Hrun.
  run_inv Hrun; [|by apply srt_present_shape in Hrun as (_ & ? & ? & _)].
  apply srt_present_shape in Hrun0 as (Hdb0 & has & [= ->] & Hpre).
  match type of Hrun with
  | catch (bind (subprocess_run ?c) _) _ _ _ = _ => set (cmd := c) in *
  end.
  assert (∃ tail, cmd = ["cleanvid"; "-i"; v; "-o"; out_file v od next; "-w"; sw]
                        ++ tail
                  ∧ (tail = [] ∨ ∃ p, srt = Some p ∧ tail = ["-s"; p])) as Hcmd.
  { subst cmd. destruct has.
    - destruct Hpre as [[_ ?]|(p & -> & _ & _)]; [done|].
      eexists. split; [reflexivity|]. right. by exists p.
    - exists []. split; [by rewrite (right_id_L [] (++))|by left]. }
  assert (∀ ev, ev ∈ x1 → ∃ p b, srt = Some p ∧ ev = EIsfile p b) as Hpre'.
  { destruct Hpre as [[-> _]|(p & -> & _ & ->)]; intros ev Hev; trace_mem Hev.
    subst. by eexists _, _. }
  clearbody cmd.
  run_inv Hrun.
  - (* no exception *)
    run_inv Hrun. apply subprocess_run_inv in Hrun0 as (Hdb1 & a & -> & Ho).
    destruct a as [code|e]; [destruct (code =? 0) eqn:Hc|]; try done.
    run_inv Hrun. run_inv Hrun. destruct pres; simpl in Hrun0.
    + run_inv Hrun0. split; [simpl in *; congruence|].
      exists x1, cmd, (Val code), []. rewrite Hc.
      split_and!; try done. intros ev Hev. by apply elem_of_nil in Hev.
    + apply relocate_shape in Hrun0 as (Hdb2 & Hev & am & rest & -> & Hone & Ham).
      split; [simpl in *; congruence|].
      exists x1, cmd, (Val code). eexists. rewrite Hc.
      split; [by rewrite (right_id_L [] (++))|].
      split_and!; [exact Hpre'|exact Hcmd|
                   intros ev Hin; split; [done|by apply Hev]|].
      exists am, rest. split; [done|]. split; [done|].
      destruct am; [done|by destruct Ham].
  - (* an exception that is not caught *)
    run_inv Hrun.
    + apply subprocess_run_inv in Hrun0 as (Hdb1 & a & -> & Ho).
      destruct a as [code|e]; [destruct (code =? 0) eqn:Hc|]; try done.
      run_inv Hrun; try (by run_inv Hrun).
      destruct pres; simpl in Hrun; try (by run_inv Hrun).
      apply relocate_shape in Hrun as (Hdb2 & Hev & am & rest & -> & Hone & Ham).
      split; [simpl in *; congruence|].
      exists x1, cmd, (Val code). eexists. rewrite Hc.
      split; [reflexivity|].
      split_and!; [exact Hpre'|exact Hcmd|
                   intros ev Hin; split; [done|by apply Hev]|].
      exists am, rest. split; [done|]. split; [done|].
      destruct am as [|e]; [done|]. destruct Ham as [-> [= ->]].
      by rewrite Hcls.
    + apply subprocess_run_inv in Hrun as (Hdb1 & a & -> & Ho).
      split; [simpl in *; congruence|].
      exists x1, cmd, a, [].
      split_and!; try done; [intros ev Hev; by apply elem_of_nil in Hev|].
      destruct a as [code|e]; [destruct (code =? 0) eqn:Hc|]; simplify_eq;
        try done; by rewrite Hcls.
  - (* an exception that is caught *)
    run_inv Hrun. rewrite (right_id_L [] (++)). run_inv Hrun0.
    + apply subprocess_run_inv in Hrun as (Hdb1 & a & -> & Ho).
      destruct a as [code|e]; [destruct (code =? 0) eqn:Hc|]; try done.
      run_inv Hrun0; try (by run_inv Hrun0).
      destruct pres; simpl in Hrun0; try (by run_inv Hrun0).
      apply relocate_shape in Hrun0 as (Hdb2 & Hev & am & rest & -> & Hone & Ham).
      split; [simpl in *; congruence|].
      exists x1, cmd, (Val code). eexists. rewrite Hc.
      split; [reflexivity|].
      split_and!; [exact Hpre'|exact Hcmd|
                   intros ev Hin; split; [done|by apply Hev]|].
      exists am, rest. split; [done|]. split; [done|].
      destruct am as [|e]; [done|]. destruct Ham as [-> [= ->]].
      by rewrite Hcls.
    + apply subprocess_run_inv in Hrun0 as (Hdb1 & a & -> & Ho).
      split; [simpl in *; congruence|].
      exists x1, cmd, a, [].
      split_and!; try done; [intros ev Hev; by apply elem_of_nil in Hev|].
      destruct a as [code|e]; [destruct (code =? 0) eqn:Hc|]; simplify_eq;
        try done; by rewrite Hcls.
Qed.

(** Lines 190-193 as two runs: the invocation, then the record. *)
Lemma process_and_record_split (vpath : string) (srt : option string)
    (key : string) (vstat sstat : option fingerprint) (s s' : st) o tr :
  process_and_record json_chunks cfg vpath srt key vstat sstat s = (o, s', tr) →
  ∃ op sp tp ts,
    process vpath srt (output_dir cfg) (processed_dir cfg) (swears_file cfg)
      (preserve_input cfg) (write_next_to_input cfg) s = (op, sp, tp)
    ∧ tr = tp ++ ts
    ∧ match op with
      | Ok true =>
          ∃ now sn tsave,
            ts = ETime now :: tsave ∧ o = Ok tt ∧ db sn = db sp
            ∧ db s' = <[key := Entry vstat sstat now]> (db s)
            ∧ save_db json_chunks cfg (<[key := Entry vstat sstat now]> (db s))
                (State (world sn) (<[key := Entry vstat sstat now]> (db s)))
              = (Ok tt, s', tsave)
      | Ok false => ts = [] ∧ o = Ok tt ∧ s' = sp
      | Raise e => ts = [] ∧ o = Raise e ∧ s' = sp
      end.
Proof.
  unfold process_and_record. intros Hrun. run_inv Hrun.
  - pose proof (process_shape _ _ _ _ _ _ _ _ _ _ _ Hrun0) as [Hdb0 _].
    eexists _, _, _, _. split; [exact Hrun0|]. split; [reflexivity|].
    match type of Hrun with (if ?b then _ else _) _ = _ => destruct b end.
    + repeat run_step. simpl in Hrun. rewrite Hdb0 in Hrun.
      pose proof (save_db_inv _ _ _ _ _ _ _ Hrun) as (-> & Hdb & _).
      simpl in Hdb.
      eexists _, (State _ (db x0)), _.
      split_and!; [reflexivity|done|reflexivity|done|exact Hrun].
    + by run_inv Hrun.
  - eexists _, _, _, []. split; [exact Hrun|].
    by rewrite (right_id_L [] (++)).
Qed.

(** The body of the loop as two runs: the probes, then lines 190-193 if
    the decision is true. *)
Lemma handle_candidate_split (subs_map : Dict.t string) (base vpath : string)
    (s s' : st) o tr :
  handle_candidate json_chunks cfg subs_map (base, vpath) s = (o, s', tr) →
  let srt := Dict.get base subs_map in
  (∀ ev, ev ∈ tr → probe_ok vpath srt ev) ∧ db s' = db s
  ∨ ∃ tq sq key av sstat tp,
      tr = tq ++ tp ∧ (∀ ev, ev ∈ tq → probe_ok vpath srt ev) ∧ db sq = db s
      ∧ EAbspath vpath (Val key) ∈ tq ∧ EStat vpath av ∈ tq
      ∧ needs_processing (db s !! key) (fp_of av) sstat = true
      ∧ process_and_record json_chunks cfg vpath (Dict.get base subs_map)
          key (fp_of av) sstat sq = (o, s', tp).
Proof.
  intros Hrun srt.
  unfold handle_candidate in Hrun. fold srt in Hrun. run_inv Hrun.
  2: { apply stability_samples_inv in Hrun as (Hdb & Hs). left.
       split; [|done].
       destruct Hs as [(e & -> & _)|[(s1 & e & -> & _)|(s1 & s2 & -> & _)]];
         intros ev Hev; trace_mem Hev; by subst. }
  apply stability_samples_inv in Hrun0
    as (Hdb & [(e & -> & Ho)|[(s1 & e & -> & Ho)|(s1 & s2 & -> & Ho)]]).
  1-2: destruct (is_OSError e) eqn:He; simplify_eq; run_inv Hrun; left;
       (split; [|done]); intros ev Hev; trace_mem Hev; by subst.
  simplify_eq. destruct (Z.eqb_spec s1 s2) as [->|Hne]; simpl in Hrun.
  2: { run_inv Hrun. left. split; [|done].
       intros ev Hev; trace_mem Hev; by subst. }
  run_inv Hrun.
  2: { run_inv Hrun. left. split; [|simpl in *; congruence].
       intros ev Hev; trace_mem Hev; by subst. }
  run_inv Hrun0.
  run_inv Hrun.
  2: { by apply stat_info_inv in Hrun as (_ & ? & _ & ?). }
  apply stat_info_inv in Hrun0 as (Hdb1 & av & -> & [= ->]).
  run_inv Hrun.
  2: { destruct srt as [p|]; [destruct (truthy p)|];
         [by apply stat_info_inv in Hrun as (_ & ? & _ & ?)|by run_inv Hrun..]. }
  match type of Hrun0 with _ = (Ok ?sstat, ?sy, ?stats) =>
    assert ((∀ ev, ev ∈ stats → probe_ok vpath srt ev) ∧ db sy = db s)
      as [Hstats Hdb2]
  end.
  { destruct srt as [p|] eqn:Hsrt; [destruct (truthy p)|].
    - apply stat_info_inv in Hrun0 as (? & asub & ? & ?). simplify_eq.
      split; [|simpl in *; congruence]. intros ev Hev. trace_mem Hev. subst.
      by right.
    - run_inv Hrun0. split; [|simpl in *; congruence].
      intros ev Hev. by trace_mem Hev.
    - run_inv Hrun0. split; [|simpl in *; congruence].
      intros ev Hev. by trace_mem Hev. }
  clear Hrun0. run_inv Hrun. run_inv Hrun0. simpl in Hrun.
  rewrite Hdb2 in Hrun.
  destruct (needs_processing _ _ _) eqn:Hneeds; simpl in Hrun.
  - right.
    match type of Hstats with ∀ ev, ev ∈ ?stats → _ =>
      match type of Hrun with process_and_record _ _ _ _ ?k _ _ _ = _ =>
        exists ([EGetsize vpath (Val s2); ESleep 1 tt; EGetsize vpath (Val s2);
                 EAbspath vpath (Val k); EStat vpath av] ++ stats)
      end
    end.
    eexists _, _, av, _, _. split; [|split_and!; [| | | |exact Hneeds|exact Hrun]].
    + simpl. reflexivity.
    + intros ev Hev. trace_mem Hev; subst; try done; [by left|by apply Hstats].
    + done.
    + do 3 right. by left.
    + do 4 right. by left.
  - run_inv Hrun. left. split; [|done].
    intros ev Hev. trace_mem Hev; subst; try done; [by left|by apply Hstats].
Qed.

Lemma save_db_opens (d : gmap string entry) (s s' : st) o tr :
  save_db json_chunks cfg d s = (o, s', tr) →
  ∃ r rest, tr = EOpenW (processed_db cfg +:+ ".tmp") r :: rest.
Proof.
  unfold save_db. intros Hrun.
  assert (∀ (k : unit → M unit) o1 (s1 : st) t1,
            bind (open_w (processed_db cfg +:+ ".tmp")) k s = (o1, s1, t1) →
            ∃ r rest, t1 = EOpenW (processed_db cfg +:+ ".tmp") r :: rest) as Hb.
  { intros k o1 s1 t1 Hb. run_inv Hb.
    - run_inv Hrun0. by eexists _, _.
    - run_inv Hb. by eexists _, _. }
  run_inv Hrun.
  - exact (Hb _ _ _ _ Hrun).
  - destruct (Hb _ _ _ _ Hrun0) as (r & rest & ->). run_inv Hrun. by eexists _, _.
Qed.

(** Everything the body of the loop does for one candidate. *)
Lemma candidate_shape (subs_map : Dict.t string) (base vpath : string)
    (s s' : st) o tr :
  handle_candidate json_chunks cfg subs_map (base, vpath) s = (o, s', tr) →
  let srt := Dict.get base subs_map in
  let tmp := processed_db cfg +:+ ".tmp" in
  (∀ ev, ev ∈ tr → probe_ok vpath srt ev) ∧ db s' = db s
  ∨ ∃ tq key av sstat pre cmd a post op ts,
      tr = tq ++ (pre ++ ERun cmd a :: post) ++ ts
      ∧ (∀ ev, ev ∈ tq → probe_ok vpath srt ev)
      ∧ EAbspath vpath (Val key) ∈ tq ∧ EStat vpath av ∈ tq
      ∧ needs_processing (db s !! key) (fp_of av) sstat = true
      ∧ (∀ ev, ev ∈ pre → ∃ p b, srt = Some p ∧ ev = EIsfile p b)
      ∧ (∃ tail, cmd = cmdline cfg vpath ++ tail
                 ∧ (tail = [] ∨ ∃ p, srt = Some p ∧ tail = ["-s"; p]))
      ∧ (∀ ev, ev ∈ post →
           preserve_input cfg = false
           ∧ reloc_ok vpath srt (processed_dir cfg) ev)
      ∧ process_result (preserve_input cfg) (processed_dir cfg) a post op
      ∧ match op with
        | Ok true =>
            ∃ now tsave,
              ts = ETime now :: tsave ∧ o = Ok tt
              ∧ db s' = <[key := Entry (fp_of av) sstat now]> (db s)
              ∧ (∃ r rest, tsave = EOpenW tmp r :: rest)
              ∧ ((∃ r, tsave = written tmp (json_chunks (db s'))
                                 ++ [EReplace tmp (processed_db cfg) r])
                 ∨ (∀ ev, ev ∈ tsave → touches tmp ev))
        | Ok false => ts = [] ∧ o = Ok tt ∧ db s' = db s
        | Raise e => ts = [] ∧ o = Raise e ∧ db s' = db s
        end.
Proof.
  intros Hrun srt tmp.
  apply handle_candidate_split in Hrun
    as [?|(tq & sq & key & av & sstat & tp & -> & Hq & Hdbq & Hkey & Hav
           & Hneeds & Hrun)];
    [by left|right].
  apply process_and_record_split in Hrun
    as (op & sp & tpr & ts & Hp & -> & Hrec).
  apply process_shape in Hp
    as (Hdbp & pre & cmd & a & post & -> & Hpre & Hcmd & Hpost & Hres).
  exists tq, key, av, sstat, pre, cmd, a, post, op, ts.
  split_and!; try done.
  destruct op as [[]|e].
  - destruct Hrec as (now & sn & tsave & -> & -> & Hdbn & Hdb & Hsave).
    rewrite Hdbq in Hdb, Hsave.
    exists now, tsave. split_and!; try done.
    + by apply save_db_opens in Hsave.
    + apply save_db_inv in Hsave as (_ & _ & Hshape). by rewrite Hdb.
  - destruct Hrec as (-> & -> & ->). split_and!; [done..|congruence].
  - destruct Hrec as (-> & -> & ->). split_and!; [done..|congruence].
Qed.

End Shapes.

Lemma is_CalledProcessError_true (e : exn) :
  is_CalledProcessError e = true ↔ e = CalledProcessError.
Proof. by destruct e. Qed.

Section Invocation.
Context {W : Type} `{HOS : OS W}.
Variable json_chunks : gmap string entry → list string.
Variable cfg : config.

Local Abbreviation st := (@state W).


End Invocation.

(* ===================================================================== *)
(** * The maps of a cycle                                                  *)
(* ===================================================================== *)

Module DictMoreFacts.
Import Dict.

Lemma set_elem {V} (k k' : string) (v v' : V) (d : t V) :
  (k', v') ∈ set k v d → (k', v') = (k, v) ∨ (k', v') ∈ d.
Proof.
  induction d as [|[k0 v0] r IH]; simpl.
  - intros ->%list_elem_of_singleton. by left.
  - destruct (String.eqb k0 k).
    + intros [->|?]%elem_of_cons; [by left|]. right. by right.
    + intros [->|H]%elem_of_cons; [right; by left|].
      destruct (IH H); [by left|]. right. by right.
Qed.

Lemma set_keys {V} (k k' : string) (v : V) (d : t V) :
  k' ∈ (set k v d).*1 ↔ k' = k ∨ k' ∈ d.*1.
Proof.
  induction d as [|[k0 v0] r IH]; simpl.
  - rewrite list_elem_of_singleton, elem_of_nil. tauto.
  - destruct (String.eqb_spec k0 k) as [->|Hne]; simpl.
    + rewrite !elem_of_cons. tauto.
    + rewrite !elem_of_cons, IH. tauto.
Qed.

Lemma set_NoDup {V} (k : string) (v : V) (d : t V) :
  NoDup d.*1 → NoDup (set k v d).*1.
Proof.
  induction d as [|[k0 v0] r IH]; simpl.
  - intros _. apply NoDup_singleton.
  - rewrite NoDup_cons. intros [Hk0 Hr].
    destruct (String.eqb_spec k0 k) as [->|Hne]; simpl.
    + by apply NoDup_cons.
    + apply NoDup_cons. split; [|by apply IH].
      rewrite set_keys. intros [?|?]; done.
Qed.

Lemma get_elem {V} (k : string) (v : V) (d : t V) :
  get k d = Some v → (k, v) ∈ d.
Proof.
  induction d as [|[k0 v0] r IH]; simpl; [done|].
  destruct (String.eqb_spec k0 k) as [->|Hne].
  - intros [= ->]. by left.
  - intros H. right. by apply IH.
Qed.

Lemma elem_get {V} (k : string) (v : V) (d : t V) :
  NoDup d.*1 → (k, v) ∈ d → get k d = Some v.
Proof.
  induction d as [|[k0 v0] r IH]; simpl.
  - intros _ H. by apply elem_of_nil in H.
  - rewrite NoDup_cons. intros [Hk0 Hr] [[= -> ->]|Hin]%elem_of_cons.
    + by rewrite String.eqb_refl.
    + destruct (String.eqb_spec k0 k) as [->|Hne]; [|by apply IH].
      destruct Hk0. apply list_elem_of_fmap. by exists (k, v).
Qed.

End DictMoreFacts.

Lemma merge_cons (v : string) (paths : list string) (m : Dict.t string) :
  merge (v :: paths) m = merge paths (Dict.set (stem v) v m).
Proof. reflexivity. Qed.

Lemma merge_elem (k v : string) (paths : list string) (m : Dict.t string) :
  (k, v) ∈ merge paths m → (k, v) ∈ m ∨ (v ∈ paths ∧ stem v = k).
Proof.
  revert m. induction paths as [|p ps IH]; intros m; [by left|].
  rewrite merge_cons. intros [H|[H1 H2]]%IH.
  - apply DictMoreFacts.set_elem in H as [[= -> ->]|H]; [|by left].
    right. split; [by left|done].
  - right. split; [by right|done].
Qed.

Lemma merge_NoDup (paths : list string) (m : Dict.t string) :
  NoDup m.*1 → NoDup (merge paths m).*1.
Proof.
  revert m. induction paths as [|p ps IH]; intros m Hm; [done|].
  rewrite merge_cons. by apply IH, DictMoreFacts.set_NoDup.
Qed.

Lemma is_quiet_scanned (path : string) (sufs : list string)
    (o : outcome (list string)) (tr : list event) :
  scanned path sufs o tr → ∀ ev, ev ∈ tr → is_quiet ev = true.
Proof.
  intros [[-> _]|[(e & -> & _)|(entries & checks & vs & -> & _ & Hchk & _)]]
    ev Hev; trace_mem Hev; subst; try done.
  by destruct (Hchk _ Hev) as (? & ? & _ & ->).
Qed.

Lemma under_root_scanned (path : string) (sufs vs : list string)
    (tr : list event) (v : string) :
  scanned path sufs (Ok vs) tr → v ∈ vs →
  under_root [path] sufs v ∧ EIsfile v true ∈ tr.
Proof.
  intros [[_ [= ->]]|[(e & _ & ?)|(entries & checks & vs' & -> & [= <-] & _ & Hs & _)]]
    Hv; [by apply elem_of_nil in Hv|done|].
  destruct (Hs v Hv) as (e & _ & -> & Hd & Hsuf & Hf).
  split; [|by do 2 right].
  exists path, e. split_and!; try done. by left.
Qed.

Lemma under_root_mono (dirs dirs' sufs : list string) (v : string) :
  dirs ⊆ dirs' → under_root dirs sufs v → under_root dirs' sufs v.
Proof. intros Hsub (d & e & Hd & H). exists d, e. split; [by apply Hsub|done]. Qed.

Section ScanFacts.
Context {W : Type} `{HOS : OS W}.

Local Abbreviation st := (@state W).

(** The scan asks and changes nothing; it raises only when a root that is
    a directory cannot be listed, and stops there. *)
Lemma scan_quiet (dirs : list string) (vm sm : Dict.t string) (s s' : st) o tr :
  scan dirs vm sm s = (o, s', tr) →
  db s' = db s ∧ (∀ ev, ev ∈ tr → is_quiet ev = true)
  ∧ match o with
    | Ok _ => ∀ d e, EListdir d (Err e) ∉ tr
    | Raise e => ∃ d t, d ∈ dirs ∧ tr = t ++ [EListdir d (Err e)]
                        ∧ ∀ d' e', EListdir d' (Err e') ∉ t
    end.
Proof.
  revert vm sm s s' o tr.
  induction dirs as [|d ds IH]; intros vm sm s s' o tr Hrun; simpl in Hrun.
  - run_inv Hrun. split_and!; [done|intros ev Hev; by apply elem_of_nil in Hev|].
    intros d e Hev. by apply elem_of_nil in Hev.
  - assert (∀ path sufs o1 t1, scanned path sufs o1 t1 →
              match o1 with
              | Ok _ => ∀ d e, EListdir d (Err e) ∉ t1
              | Raise e => t1 = [EIsdir path true; EListdir path (Err e)]
              end) as Hsc.
    { intros path sufs o1 t1
        [[-> ->]|[(e & -> & ->)|(entries & checks & vs & -> & -> & Hchk & _)]];
        [|done|].
      - intros d' e' Hev. trace_mem Hev. done.
      - intros d' e' Hev. trace_mem Hev; try done.
        by destruct (Hchk _ Hev) as (? & ? & _ & ?). }
    run_inv Hrun.
    2: { apply find_videos_scanned in Hrun as [Hdb Hs].
         split_and!; [done|by eapply is_quiet_scanned|].
         apply Hsc in Hs as ->. exists d, [EIsdir d true].
         split_and!; [by left|done|]. intros d' e' Hev. by trace_mem Hev. }
    apply find_videos_scanned in Hrun0 as [Hdb0 Hs0].
    run_inv Hrun.
    2: { apply find_subs_scanned in Hrun as [Hdb Hs].
         split_and!; [congruence| |].
         - intros ev [Hev|Hev]%elem_of_app; eauto using is_quiet_scanned.
         - apply Hsc in Hs as ->.
           match goal with |- ∃ d0 t, _ ∧ ?a ++ _ = _ ∧ _ =>
             exists d, (a ++ [EIsdir d true]) end.
           split_and!; [by left|by rewrite <- (assoc_L (++))|].
           apply Hsc in Hs0. intros d' e' Hev. trace_mem Hev; [|done].
           by eapply Hs0. }
    apply find_subs_scanned in Hrun0 as [Hdb1 Hs1].
    apply IH in Hrun as (Hdb2 & Hq & Ho).
    split_and!; [congruence| |].
    + intros ev Hev. trace_mem Hev; eauto using is_quiet_scanned.
    + apply Hsc in Hs0, Hs1. destruct o as [a|e].
      * intros d' e' Hev. trace_mem Hev; [by eapply Hs0|by eapply Hs1|by eapply Ho].
      * destruct Ho as (d' & t & Hd' & -> & Ht).
        match goal with |- ∃ d0 t0, _ ∧ ?a ++ ?b ++ _ = _ ∧ _ =>
          exists d', (a ++ b ++ t) end.
        split_and!; [by right|by rewrite <- !(assoc_L (++))|].
        intros d0 e0 Hev. trace_mem Hev; [by eapply Hs0|by eapply Hs1|by eapply Ht].
Qed.

Lemma collect_sound (dirs : list string) (yields : list (list string * list string))
    (s s' : st) tr :
  collect dirs s = (Ok yields, s', tr) →
  (∀ v, v ∈ concat yields.*1 → under_root dirs VIDEO_EXTS v ∧ EIsfile v true ∈ tr)
  ∧ (∀ p, p ∈ concat yields.*2 → under_root dirs [".srt"] p ∧ EIsfile p true ∈ tr).
Proof.
  revert yields s tr. induction dirs as [|d ds IH]; intros yields s tr Hrun;
    simpl in Hrun.
  - run_inv Hrun. split; intros v Hv; by apply elem_of_nil in Hv.
  - run_inv Hrun. run_inv Hrun. run_inv Hrun. run_inv Hrun.
    apply find_videos_scanned in Hrun0 as [_ Hs0].
    apply find_subs_scanned in Hrun1 as [_ Hs1].
    apply IH in Hrun2 as [IHv IHs]. simpl.
    split; intros v [Hv|Hv]%elem_of_app.
    + destruct (under_root_scanned _ _ _ _ _ Hs0 Hv) as [Hu Hf]. split.
      * eapply under_root_mono; [|exact Hu]. intros z ->%list_elem_of_singleton. by left.
      * apply elem_of_app. by left.
    + destruct (IHv v Hv) as [Hu Hf]. split.
      * eapply under_root_mono; [|exact Hu]. intros z ?. by right.
      * rewrite !elem_of_app. right. right. left. done.
    + destruct (under_root_scanned _ _ _ _ _ Hs1 Hv) as [Hu Hf]. split.
      * eapply under_root_mono; [|exact Hu]. intros z ->%list_elem_of_singleton. by left.
      * rewrite !elem_of_app. right. by left.
    + destruct (IHs v Hv) as [Hu Hf]. split.
      * eapply under_root_mono; [|exact Hu]. intros z ?. by right.
      * rewrite !elem_of_app. right. right. left. done.
Qed.

(** The two maps a scan builds. *)
Lemma scan_maps (dirs : list string) (vm sm : Dict.t string) (s s' : st) tr :
  scan dirs [] [] s = (Ok (vm, sm), s', tr) →
  NoDup vm.*1 ∧ NoDup sm.*1
  ∧ (∀ k v, (k, v) ∈ vm →
       stem v = k ∧ under_root dirs VIDEO_EXTS v ∧ EIsfile v true ∈ tr)
  ∧ (∀ k p, (k, p) ∈ sm →
       stem p = k ∧ under_root dirs [".srt"] p ∧ EIsfile p true ∈ tr).
Proof.
  intros (yields & Hc & _ & -> & ->)%scan_collect.
  apply collect_sound in Hc as [Hv Hs].
  split_and!; try (apply merge_NoDup, NoDup_nil_2).
  - intros k v [H|[H1 H2]]%merge_elem; [by apply elem_of_nil in H|].
    split; [done|by apply Hv].
  - intros k v [H|[H1 H2]]%merge_elem; [by apply elem_of_nil in H|].
    split; [done|by apply Hs].
Qed.

Lemma scan_maps_ok (dirs : list string) (vm sm : Dict.t string) (s s' : st) tr :
  scan dirs [] [] s = (Ok (vm, sm), s', tr) → maps_ok dirs vm sm.
Proof.
  intros (_ & _ & Hv & Hs)%scan_maps. split.
  - intros k v Hin. destruct (Hv k v Hin) as (? & ? & _). done.
  - intros k p Hget. apply DictMoreFacts.get_elem in Hget.
    destruct (Hs k p Hget) as (? & ? & _). done.
Qed.

End ScanFacts.

(* ===================================================================== *)
(** * What holds for every run of the loop                                 *)
(* ===================================================================== *)

Section LoopInvariant.
Context {W : Type} `{HOS : OS W}.
Variable json_chunks : gmap string entry → list string.
Variable cfg : config.

Local Abbreviation st := (@state W).

(** A relation between the states before and after a run and its calls
    that holds for a run without calls, for a sleep and for a scan of the
    watch roots, that composes, and that holds for every candidate of a
    map the scan built, holds for the loop. *)
Variable R : st → st → list event → Prop.
Hypothesis R_nil : ∀ s s', db s' = db s → R s s' [].
Hypothesis R_sleep : ∀ s s' secs u, db s' = db s → R s s' [ESleep secs u].
Hypothesis R_trans :
  ∀ s1 s2 s3 t1 t2, R s1 s2 t1 → R s2 s3 t2 → R s1 s3 (t1 ++ t2).
Hypothesis R_scan :
  ∀ vm sm s s' o tr, scan (watch_dirs cfg) vm sm s = (o, s', tr) → R s s' tr.
Hypothesis R_cand :
  ∀ vm sm base vpath s s' o tr,
    maps_ok (watch_dirs cfg) vm sm → (base, vpath) ∈ vm →
    handle_candidate json_chunks cfg sm (base, vpath) s = (o, s', tr) →
    R s s' tr.

Lemma candidates_inv (vm sm : Dict.t string) (l : list (string * string))
    (s s' : st) o tr :
  maps_ok (watch_dirs cfg) vm sm → l ⊆ vm →
  for_each l (handle_candidate json_chunks cfg sm) s = (o, s', tr) → R s s' tr.
Proof.
  intros Hok. revert s tr. induction l as [|[base vpath] l IH];
    intros s tr Hsub Hrun; simpl in Hrun.
  - run_inv Hrun. by apply R_nil.
  - assert ((base, vpath) ∈ vm) as Hin by (apply Hsub; by left).
    run_inv Hrun.
    + eapply R_trans; [by eapply R_cand|].
      eapply IH; [|done]. intros z Hz. apply Hsub. by right.
    + by eapply R_cand.
Qed.

Lemma cycle_inv (s s' : st) o tr :
  cycle json_chunks cfg s = (o, s', tr) → R s s' tr.
Proof.
  unfold cycle. intros Hrun. run_inv Hrun.
  - destruct x as [vm sm].
    pose proof (scan_maps_ok _ _ _ _ _ _ Hrun0) as Hok.
    eapply R_trans; [by eapply R_scan|].
    by eapply (candidates_inv vm sm).
  - by eapply R_scan.
Qed.

Lemma loop_body_inv (s s' : st) o tr :
  loop_body json_chunks cfg s = (o, s', tr) → R s s' tr.
Proof.
  unfold loop_body. intros Hrun.
  assert (∀ s1 s2 o1 t1, catch (cycle json_chunks cfg) is_Exception (ret tt) s1
                         = (o1, s2, t1) → R s1 s2 t1) as Hc.
  { intros s1 s2 o1 t1 H. run_inv H; [by eapply cycle_inv|].
    run_inv H. rewrite (right_id_L [] (++)). by eapply cycle_inv. }
  run_inv Hrun; [|by eapply Hc].
  eapply R_trans; [by eapply Hc|].
  apply time_sleep_inv in Hrun as [(_ & _ & Hdb & ->)|(_ & _ & -> & ->)].
  - by apply R_sleep.
  - by apply R_nil.
Qed.

Lemma main_loop_scan_inv (n : nat) (s s' : st) o tr :
  main_loop json_chunks cfg n s = (o, s', tr) → R s s' tr.
Proof.
  revert s tr. induction n as [|n IH]; intros s tr Hrun; simpl in Hrun.
  - run_inv Hrun. by apply R_nil.
  - run_inv Hrun.
    + eapply R_trans; [by eapply loop_body_inv|by eapply IH].
    + by eapply loop_body_inv.
Qed.

End LoopInvariant.

Section QuietInvariant.
Context {W : Type} `{HOS : OS W}.
Variable json_chunks : gmap string entry → list string.
Variable cfg : config.

Local Abbreviation st := (@state W).

(** The same for a relation that holds for every run that only scans or
    sleeps. *)
Variable R : st → st → list event → Prop.
Hypothesis R_quiet :
  ∀ s s' tr, db s' = db s → (∀ ev, ev ∈ tr → is_quiet ev = true) → R s s' tr.
Hypothesis R_trans :
  ∀ s1 s2 s3 t1 t2, R s1 s2 t1 → R s2 s3 t2 → R s1 s3 (t1 ++ t2).
Hypothesis R_cand :
  ∀ vm sm base vpath s s' o tr,
    maps_ok (watch_dirs cfg) vm sm → (base, vpath) ∈ vm →
    handle_candidate json_chunks cfg sm (base, vpath) s = (o, s', tr) →
    R s s' tr.

Lemma main_loop_inv (n : nat) (s s' : st) o tr :
  main_loop json_chunks cfg n s = (o, s', tr) → R s s' tr.
Proof.
  apply (main_loop_scan_inv json_chunks cfg R).
  - intros s1 s2 Hdb. apply R_quiet; [done|].
    intros ev Hev. by apply elem_of_nil in Hev.
  - intros s1 s2 secs u Hdb. apply R_quiet; [done|].
    intros ev ->%list_elem_of_singleton. done.
  - exact R_trans.
  - intros vm sm s1 s2 o1 t1 (Hdb & Hq & _)%scan_quiet. by apply R_quiet.
  - exact R_cand.
Qed.

End QuietInvariant.

Lemma split_middle {A} (l1 : list A) (x : A) (l2 t1 : list A) (y : A) (t2 : list A) :
  l1 ++ x :: l2 = t1 ++ y :: t2 → y ∉ l1 → y ≠ x →
  ∃ l, t1 = l1 ++ x :: l ∧ l2 = l ++ y :: t2.
Proof.
  revert t1. induction l1 as [|a l1 IH]; intros t1 Heq Hy Hx.
  - destruct t1 as [|b t1]; simpl in Heq; [by injection Heq as -> _|].
    injection Heq as -> ->. by exists t1.
  - destruct t1 as [|b t1]; simpl in Heq.
    + injection Heq as -> _. destruct Hy. by left.
    + injection Heq as -> Heq. destruct (IH t1 Heq) as (l & -> & ->); [|done|].
      * intros ?. apply Hy. by right.
      * by exists l.
Qed.

Lemma obeys_forall (Q : event → Prop) (tr : list event) :
  obeys (λ _, Q) tr ↔ ∀ ev, ev ∈ tr → Q ev.
Proof.
  split.
  - intros H ev (t1 & t2 & ->)%list_elem_of_split. by eapply H.
  - intros H t1 ev t2 ->. apply H. apply elem_of_app. right. by left.
Qed.

Lemma obeys_app (P : list event → event → Prop) (ta tb : list event) :
  (∀ h h' ev, P h ev → P (h' ++ h) ev) →
  obeys P ta → obeys P tb → obeys P (ta ++ tb).
Proof.
  intros Hmono Ha Hb t1 ev t2 Heq.
  apply app_eq_app in Heq as [l [[-> Heq]|[-> ->]]].
  - destruct l as [|x l]; simpl in Heq.
    + subst tb. rewrite <- (right_id_L [] (++) t1). apply Hmono.
      by eapply (Hb []).
    + injection Heq as <- ->. by eapply Ha.
  - apply Hmono. by eapply Hb.
Qed.

Lemma move_ok_mono (cfg : config) (h h' : list event) (ev : event) :
  move_ok cfg h ev → move_ok cfg (h' ++ h) ev.
Proof.
  destruct ev; simpl; try done.
  - intros (? & ? & cmd & ?). split_and!; [done..|]. exists cmd.
    apply elem_of_app. by right.
  - intros (? & ? & v & tail & ? & ?). split_and!; [done..|]. exists v, tail.
    split; [|done]. apply elem_of_app. by right.
Qed.

Lemma process_result_true (pres : bool) (pd : string) (a : answer Z)
    (post : list event) :
  process_result pres pd a post (Ok true) → a = Val 0.
Proof.
  unfold process_result. destruct a as [code|e].
  - destruct (Z.eqb_spec code 0) as [->|]; [done|]. by intros [_ ?].
  - intros [_ H]. by destruct (is_CalledProcessError e).
Qed.

Lemma process_result_post (pres : bool) (pd : string) (a : answer Z)
    (post : list event) (o : outcome bool) (ev : event) :
  process_result pres pd a post o → ev ∈ post → a = Val 0.
Proof.
  unfold process_result. destruct a as [code|e].
  - destruct (Z.eqb_spec code 0) as [->|]; [done|].
    intros [-> _] Hev. by apply elem_of_nil in Hev.
  - intros [-> _] Hev. by apply elem_of_nil in Hev.
Qed.

Section Footprint.
Context {W : Type} `{HOS : OS W}.
Variable json_chunks : gmap string entry → list string.
Variable cfg : config.

Local Abbreviation st := (@state W).

(** The calls made for one candidate, one by one. *)
Lemma candidate_calls (vm sm : Dict.t string) (base vpath : string)
    (s s' : st) o tr :
  maps_ok (watch_dirs cfg) vm sm → (base, vpath) ∈ vm →
  handle_candidate json_chunks cfg sm (base, vpath) s = (o, s', tr) →
  (∀ ev, ev ∈ tr → store_call_ok cfg ev ∧ run_ok cfg ev)
  ∧ obeys (move_ok cfg) tr.
Proof.
  intros [Hvm Hsm] Hin Hrun. destruct (Hvm _ _ Hin) as [Hstem Hroot].
  apply candidate_shape in Hrun
    as [[Hq _]|(tq & key & av & sstat & pre & cmd & a & post & op & ts & ->
                & Hq & _ & _ & _ & Hpre & (tail & -> & Htail) & Hpost & Hres & Hrec)].
  { split.
    - intros ev Hev. specialize (Hq _ Hev). by destruct ev.
    - intros t1 ev t2 ->. specialize (Hq ev).
      destruct ev; try done; destruct Hq; apply elem_of_app; right; by left. }
  assert (∀ ev, ev ∈ ts →
            match ev with
            | ETime _ => True
            | EOpenW p _ | EWrite p _ _ | EClose p _ =>
                p = processed_db cfg +:+ ".tmp"
            | EReplace src dst _ =>
                src = processed_db cfg +:+ ".tmp" ∧ dst = processed_db cfg
            | _ => False
            end) as Hts.
  { destruct op as [[]|e].
    - destruct Hrec as (now & tsave & -> & _ & _ & _ & Hsave).
      intros ev [->|Hev]%elem_of_cons; [done|].
      destruct Hsave as [(r & ->)|Htouch].
      + unfold written in Hev. trace_mem Hev; subst; try done.
        by apply list_elem_of_fmap in Hev as (c & -> & _).
      + specialize (Htouch _ Hev). by destruct ev.
    - destruct Hrec as (-> & _). intros ev Hev. by apply elem_of_nil in Hev.
    - destruct Hrec as (-> & _). intros ev Hev. by apply elem_of_nil in Hev. }
  assert (run_ok cfg (ERun (cmdline cfg vpath ++ tail) a)) as Hrunok.
  { exists vpath, tail. split_and!; [done..|].
    destruct Htail as [->|(p & Hp & ->)]; [by left|]. right.
    destruct (Hsm _ _ Hp) as [Hps Hpr]. exists p. split_and!; [done| |done].
    congruence. }
  split.
  - intros ev Hev. trace_mem Hev.
    + specialize (Hq _ Hev). by destruct ev.
    + by destruct (Hpre _ Hev) as (? & ? & _ & ->).
    + by subst.
    + destruct (Hpost _ Hev) as [_ Hr]. by destruct ev.
    + specialize (Hts _ Hev). by destruct ev.
  - intros t1 ev t2 Heq.
    assert (ev ∈ tq ++ (pre ++ ERun (cmdline cfg vpath ++ tail) a :: post) ++ ts)
      as Hev by (rewrite Heq; apply elem_of_app; right; by left).
    destruct ev as [| | | | | | | |p r|src dst r| | | | | |]; try done.
    + (* makedirs *)
      assert (EMakedirs p r ∈ post) as Hp.
      { trace_mem Hev; try done.
        - by specialize (Hq _ Hev).
        - by destruct (Hpre _ Hev) as (? & ? & _ & ?).
        - by specialize (Hts _ Hev). }
      destruct (Hpost _ Hp) as [Hpres Hr]. simpl in Hr.
      assert (a = Val 0) as -> by (by eapply process_result_post).
      split_and!; [done..|]. exists (cmdline cfg vpath ++ tail).
      rewrite <- !(assoc_L (++)) in Heq. rewrite (assoc_L (++) tq pre) in Heq.
      simpl in Heq. apply split_middle in Heq as (l & -> & _); [| |done].
      * apply elem_of_app. right. by left.
      * intros [H|H]%elem_of_app; [by specialize (Hq _ H)|].
        by destruct (Hpre _ H) as (? & ? & _ & ?).
    + (* move *)
      assert (EMove src dst r ∈ post) as Hp.
      { trace_mem Hev; try done.
        - by specialize (Hq _ Hev).
        - by destruct (Hpre _ Hev) as (? & ? & _ & ?).
        - by specialize (Hts _ Hev). }
      destruct (Hpost _ Hp) as [Hpres [Hdst Hsrc]].
      assert (a = Val 0) as -> by (by eapply process_result_post).
      split_and!; [done..|]. exists vpath, tail. split.
      * rewrite <- !(assoc_L (++)) in Heq. rewrite (assoc_L (++) tq pre) in Heq.
        simpl in Heq. apply split_middle in Heq as (l & -> & _); [| |done].
        -- apply elem_of_app. right. by left.
        -- intros [H|H]%elem_of_app; [by specialize (Hq _ H)|].
           by destruct (Hpre _ H) as (? & ? & _ & ?).
      * destruct Hsrc as [->|Hsrc]; [done|].
        destruct (Hsm _ _ Hsrc) as [-> _]. done.
Qed.

(** The three properties are kept over the whole loop. *)
Lemma loop_calls (n : nat) (s s' : st) o tr :
  main_loop json_chunks cfg n s = (o, s', tr) →
  (∀ ev, ev ∈ tr → store_call_ok cfg ev ∧ run_ok cfg ev)
  ∧ obeys (move_ok cfg) tr.
Proof.
  apply (main_loop_inv json_chunks cfg
           (λ _ _ tr, (∀ ev, ev ∈ tr → store_call_ok cfg ev ∧ run_ok cfg ev)
                      ∧ obeys (move_ok cfg) tr)).
  - intros s1 s2 t _ Hq. split.
    + intros ev Hev. specialize (Hq _ Hev). by destruct ev.
    + intros t1 ev t2 ->. specialize (Hq ev).
      destruct ev; try done; discriminate Hq; apply elem_of_app; right; by left.
  - intros s1 s2 s3 t1 t2 [H1 O1] [H2 O2]. split.
    + intros ev [?|?]%elem_of_app; auto.
    + apply obeys_app; [|done..]. intros h h' ev. apply move_ok_mono.
  - intros vm sm base vpath s1 s2 o1 t1. by apply candidate_calls.
Qed.

End Footprint.

Section LoopFacts.
Context {W : Type} `{HOS : OS W}.
Variable json_chunks : gmap string entry → list string.
Variable cfg : config.

Local Abbreviation st := (@state W).


(** X6 (lines 125-132 in the loop of lines 150-196). However long the
    loop runs, the only file the service itself opens, writes and closes
    is the temporary file of the store, the only rename it makes is that
    file onto the store file, and it reads no file. *)
Theorem loop_writes_only_its_store (n : nat) (s s' : st) (o : outcome unit)
    (tr : list event) :
  main_loop json_chunks cfg n s = (o, s', tr) →
  ∀ ev, ev ∈ tr → store_call_ok cfg ev.
Proof. intros [H _]%loop_calls ev Hev. by apply H. Qed.

(** X7 (lines 77-87). However long the loop runs, a file is moved, and the
    processed directory is created, only when inputs are not preserved;
    a move takes the file to the processed directory under its own name;
    and it comes after a [cleanvid] run, earlier in the same run of the
    loop, that exited with status zero on a video with the same stem as
    the file moved. With [preserve_input] set, the loop moves nothing and
    creates no directory. *)
Theorem moves_follow_a_successful_run (n : nat) (s s' : st) (o : outcome unit)
    (tr : list event) :
  main_loop json_chunks cfg n s = (o, s', tr) →
  obeys (move_ok cfg) tr
  ∧ (preserve_input cfg = true →
     ∀ ev, ev ∈ tr → is_move ev = false ∧ ∀ p r, ev ≠ EMakedirs p r).
Proof.
  intros [_ H]%loop_calls. split; [done|].
  intros Hpres ev (t1 & t2 & ->)%list_elem_of_split.
  specialize (H t1 ev t2 eq_refl).
  destruct ev; try done; simpl in H; destruct H as [H _]; congruence.
Qed.


(** X13 (lines 150-196). The loop never removes a record: every path
    recorded in the in-memory store stays recorded, however long the loop
    runs; and the store changes only in a run of the loop in which some
    [cleanvid] run exited with status zero. *)
Theorem store_only_grows (n : nat) (s s' : st) (o : outcome unit)
    (tr : list event) :
  main_loop json_chunks cfg n s = (o, s', tr) →
  (∀ key, is_Some (db s !! key) → is_Some (db s' !! key))
  ∧ ((∀ cmd, ERun cmd (Val 0) ∉ tr) → db s' = db s).
Proof.
  apply (main_loop_inv json_chunks cfg
           (λ s s' tr, (∀ key, is_Some (db s !! key) → is_Some (db s' !! key))
                       ∧ ((∀ cmd, ERun cmd (Val 0) ∉ tr) → db s' = db s))).
  - intros s1 s2 t Hdb _. by rewrite Hdb.
  - intros s1 s2 s3 t1 t2 [H1 E1] [H2 E2]. split; [by auto|].
    intros Hno. rewrite E2, E1; [done| |].
    + intros cmd Hev. apply (Hno cmd), elem_of_app. by left.
    + intros cmd Hev. apply (Hno cmd), elem_of_app. by right.
  - intros vm sm base vpath s1 s2 o1 t1 _ _ Hrun.
    apply candidate_shape in Hrun
      as [[_ Hdb]|(tq & key & av & sstat & pre & cmd & a & post & op & ts & ->
                   & _ & _ & _ & _ & _ & _ & _ & Hres & Hrec)];
      [by rewrite Hdb|].
    destruct op as [[]|e]; [|by destruct Hrec as (_ & _ & ->)..].
    apply process_result_true in Hres as ->.
    destruct Hrec as (now & tsave & _ & _ & -> & _). split.
    + intros k Hk. rewrite lookup_insert_is_Some. destruct (decide (key = k)); auto.
    + intros Hno. destruct (Hno cmd). rewrite !elem_of_app. right. left. right.
      by left.
Qed.

Lemma candidates_never_list (sm : Dict.t string) (l : list (string * string))
    (s s' : st) o tr :
  for_each l (handle_candidate json_chunks cfg sm) s = (o, s', tr) →
  ∀ ev, ev ∈ tr → is_listing ev = false.
Proof.
  revert s tr. induction l as [|[base vpath] l IH]; intros s tr Hrun; simpl in Hrun.
  - run_inv Hrun. intros ev Hev. by apply elem_of_nil in Hev.
  - assert (∀ s1 s2 o1 t1,
              handle_candidate json_chunks cfg sm (base, vpath) s1 = (o1, s2, t1) →
              ∀ ev, ev ∈ t1 → is_listing ev = false) as Hc.
    { intros s1 s2 o1 t1 H.
      apply candidate_shape in H
        as [[Hq _]|(tq & key & av & sstat & pre & cmd & a & post & op & ts & ->
                    & Hq & _ & _ & _ & Hpre & _ & Hpost & _ & Hrec)].
      { intros ev Hev. specialize (Hq _ Hev). by destruct ev. }
      intros ev Hev. trace_mem Hev.
      - specialize (Hq _ Hev). by destruct ev.
      - by destruct (Hpre _ Hev) as (? & ? & _ & ->).
      - by subst.
      - destruct (Hpost _ Hev) as [_ Hr]. by destruct ev.
      - destruct op as [[]|e]; [|by destruct Hrec as (-> & _); apply elem_of_nil in Hev..].
        destruct Hrec as (now & tsave & -> & _ & _ & _ & Hsave).
        apply elem_of_cons in Hev as [->|Hev]; [done|].
        destruct Hsave as [(r & ->)|Htouch].
        + unfold written in Hev. trace_mem Hev; subst; try done.
          by apply list_elem_of_fmap in Hev as (c & -> & _).
        + specialize (Htouch _ Hev). by destruct ev. }
    run_inv Hrun.
    + intros ev [Hev|Hev]%elem_of_app; [by eapply Hc|by eapply IH].
    + by eapply Hc.
Qed.

(** X16 (lines 154-158 under the [try] of line 151). A watch root that is
    a directory but cannot be listed ends the cycle where the listing
    fails: the exception of [os.listdir] leaves the cycle, the failed
    listing is its last call, every call of the cycle is a call of the
    scanner, so no candidate of any root is handled in that cycle, and
    the store is unchanged. *)
Theorem unlistable_root_aborts_cycle (s s' : st) (o : outcome unit)
    (tr : list event) (d : string) (e : exn) :
  cycle json_chunks cfg s = (o, s', tr) → EListdir d (Err e) ∈ tr →
  o = Raise e ∧ d ∈ watch_dirs cfg ∧ db s' = db s
  ∧ (∃ t, tr = t ++ [EListdir d (Err e)])
  ∧ ∀ ev, ev ∈ tr → is_quiet ev = true.
Proof.
  unfold cycle. intros Hrun Hev. run_inv Hrun.
  - destruct x as [vm sm].
    apply scan_quiet in Hrun0 as (_ & _ & Hno).
    pose proof (candidates_never_list _ _ _ _ _ _ Hrun) as Hc.
    apply elem_of_app in Hev as [Hev|Hev]; [by apply Hno in Hev|].
    by apply Hc in Hev.
  - apply scan_quiet in Hrun as (Hdb & Hq & d' & t & Hd' & -> & Ht).
    apply elem_of_app in Hev as [Hev|Hev]; [by apply Ht in Hev|].
    apply list_elem_of_singleton in Hev as [= -> ->].
    split_and!; try done. by exists t.
Qed.



End LoopFacts.

(* ===================================================================== *)
(** * Once per cycle                                                       *)
(* ===================================================================== *)

Lemma run_inputs_app (t1 t2 : list event) :
  run_inputs (t1 ++ t2) = run_inputs t1 ++ run_inputs t2.
Proof. apply omap_app. Qed.

Lemma run_inputs_none (tr : list event) :
  (∀ ev, ev ∈ tr → is_run ev = false) → run_inputs tr = [].
Proof.
  induction tr as [|ev tr IH]; [done|]. intros H. simpl.
  assert (is_run ev = false) as Hev by (apply H; by left).
  destruct ev; try done; simpl; apply IH; intros ev' ?; apply H; by right.
Qed.

Lemma run_inputs_run (cmd : list string) (a : answer Z) (tr : list event)
    (v : string) :
  run_input (ERun cmd a) = Some v →
  run_inputs (ERun cmd a :: tr) = v :: run_inputs tr.
Proof. unfold run_inputs. simpl. by intros ->. Qed.

Section OncePerCycle.
Context {W : Type} `{HOS : OS W}.
Variable json_chunks : gmap string entry → list string.
Variable cfg : config.

Local Abbreviation st := (@state W).

Lemma candidate_run_inputs (sm : Dict.t string) (base vpath : string)
    (s s' : st) o tr :
  handle_candidate json_chunks cfg sm (base, vpath) s = (o, s', tr) →
  run_inputs tr = [] ∨ run_inputs tr = [vpath].
Proof.
  intros Hrun. apply candidate_shape in Hrun
    as [[Hq _]|(tq & key & av & sstat & pre & cmd & a & post & op & ts & ->
                & Hq & _ & _ & _ & Hpre & (tail & -> & _) & Hpost & _ & Hrec)].
  { left. apply run_inputs_none. intros ev Hev. specialize (Hq _ Hev). by destruct ev. }
  assert (run_inputs tq = []) as Htq.
  { apply run_inputs_none. intros ev Hev. specialize (Hq _ Hev). by destruct ev. }
  assert (run_inputs pre = []) as Hpre'.
  { apply run_inputs_none. intros ev Hev.
    by destruct (Hpre _ Hev) as (? & ? & _ & ->). }
  assert (run_inputs post = []) as Hpost'.
  { apply run_inputs_none. intros ev Hev.
    destruct (Hpost _ Hev) as [_ Hr]. by destruct ev. }
  assert (run_inputs ts = []) as Hts.
  { apply run_inputs_none. destruct op as [[]|e];
      [|by destruct Hrec as (-> & _); intros ? ?%elem_of_nil..].
    destruct Hrec as (now & tsave & -> & _ & _ & _ & Hsave).
    intros ev [->|Hev]%elem_of_cons; [done|].
    destruct Hsave as [(r & ->)|Htouch].
    - unfold written in Hev. trace_mem Hev; subst; try done.
      by apply list_elem_of_fmap in Hev as (c & -> & _).
    - specialize (Htouch _ Hev). by destruct ev. }
  right. rewrite !run_inputs_app, Htq, Hpre', Hts.
  rewrite (run_inputs_run _ _ _ vpath) by done. by rewrite Hpost'.
Qed.

Lemma candidates_run_inputs (sm : Dict.t string) (l : list (string * string))
    (s s' : st) o tr :
  (∀ k v, (k, v) ∈ l → stem v = k) →
  for_each l (handle_candidate json_chunks cfg sm) s = (o, s', tr) →
  stem <$> run_inputs tr `sublist_of` l.*1.
Proof.
  revert s tr. induction l as [|[base vpath] l IH]; intros s tr Hl Hrun;
    simpl in Hrun.
  - by run_inv Hrun.
  - assert (stem vpath = base) as <- by (apply Hl; by left).
    assert (∀ k v, (k, v) ∈ l → stem v = k) as Hl' by (intros k v ?; apply Hl; by right).
    run_inv Hrun.
    + rewrite run_inputs_app, fmap_app. specialize (IH _ _ Hl' Hrun).
      destruct (candidate_run_inputs _ _ _ _ _ _ _ Hrun0) as [->| ->]; simpl.
      * by apply sublist_cons.
      * by apply sublist_skip.
    + destruct (candidate_run_inputs _ _ _ _ _ _ _ Hrun) as [->| ->]; simpl.
      * apply sublist_nil_l.
      * apply sublist_skip, sublist_nil_l.
Qed.

(** X17 (lines 152-161 and 190). Within one cycle no two invocations are
    made on videos with the same stem; in particular no video is cleaned
    twice in a cycle. *)
Theorem cycle_cleans_each_stem_once (s s' : st) (o : outcome unit)
    (tr : list event) :
  cycle json_chunks cfg s = (o, s', tr) →
  NoDup (stem <$> run_inputs tr) ∧ NoDup (run_inputs tr).
Proof.
  intros Hrun.
  assert (NoDup (stem <$> run_inputs tr)) as Hnd.
  { unfold cycle in Hrun. run_inv Hrun.
    - destruct x as [vm sm].
      pose proof (scan_maps _ _ _ _ _ _ Hrun0) as (Hk & _ & Hvm & _).
      apply scan_quiet in Hrun0 as (_ & Hq & _).
      rewrite run_inputs_app, (run_inputs_none x1); simpl.
      + refine (sublist_NoDup _ vm.*1 Hk _).
        refine (candidates_run_inputs sm vm _ _ _ _ _ Hrun).
        intros k v Hin. by destruct (Hvm k v Hin) as [? _].
      + intros ev Hev. specialize (Hq _ Hev). by destruct ev.
    - apply scan_quiet in Hrun as (_ & Hq & _).
      rewrite run_inputs_none; [apply NoDup_nil_2|].
      intros ev Hev. specialize (Hq _ Hev). by destruct ev. }
  split; [done|]. by eapply NoDup_fmap_1.
Qed.

End OncePerCycle.

(* ===================================================================== *)
(** * A tool that cannot be started                                        *)
(* ===================================================================== *)

Section Unstartable.
Context {W : Type} `{HOS : OS W}.
Variable json_chunks : gmap string entry → list string.
Variable cfg : config.

Local Abbreviation st := (@state W).

Lemma candidate_unstartable (sm : Dict.t string) (base vpath : string)
    (s s' : st) o tr (cmd : list string) (e : exn) :
  handle_candidate json_chunks cfg sm (base, vpath) s = (o, s', tr) →
  ERun cmd (Err e) ∈ tr → is_CalledProcessError e = false →
  o = Raise e ∧ db s' = db s ∧ ∃ t, tr = t ++ [ERun cmd (Err e)].
Proof.
  intros Hrun Hev He. apply candidate_shape in Hrun
    as [[Hq _]|(tq & key & av & sstat & pre & cmd0 & a & post & op & ts & ->
                & Hq & _ & _ & _ & Hpre & _ & Hpost & Hres & Hrec)].
  { by specialize (Hq _ Hev). }
  assert (∀ ev, ev ∈ ts → is_run ev = false) as Hts.
  { destruct op as [[]|e0];
      [|by destruct Hrec as (-> & _); intros ? ?%elem_of_nil..].
    destruct Hrec as (now & tsave & -> & _ & _ & _ & Hsave).
    intros ev [->|Hin]%elem_of_cons; [done|].
    destruct Hsave as [(r & ->)|Htouch].
    - unfold written in Hin. trace_mem Hin; subst; try done.
      by apply list_elem_of_fmap in Hin as (c & -> & _).
    - specialize (Htouch _ Hin). by destruct ev. }
  assert (cmd0 = cmd ∧ a = Err e) as [-> ->].
  { trace_mem Hev.
    - by specialize (Hq _ Hev).
    - by destruct (Hpre _ Hev) as (? & ? & _ & ?).
    - by simplify_eq.
    - by destruct (Hpost _ Hev) as [_ ?].
    - by specialize (Hts _ Hev). }
  unfold process_result in Hres. rewrite He in Hres. destruct Hres as [-> ->].
  destruct Hrec as (-> & -> & ->). split_and!; [done..|].
  exists (tq ++ pre). by rewrite (right_id_L [] (++)), (assoc_L (++)).
Qed.

Lemma candidates_unstartable (sm : Dict.t string) (l : list (string * string))
    (s s' : st) o tr (cmd : list string) (e : exn) :
  for_each l (handle_candidate json_chunks cfg sm) s = (o, s', tr) →
  ERun cmd (Err e) ∈ tr → is_CalledProcessError e = false →
  o = Raise e ∧ ∃ t, tr = t ++ [ERun cmd (Err e)].
Proof.
  revert s tr. induction l as [|[base vpath] l IH]; intros s tr Hrun Hev He;
    simpl in Hrun.
  - run_inv Hrun. by apply elem_of_nil in Hev.
  - run_inv Hrun.
    + apply elem_of_app in Hev as [Hev|Hev].
      * by destruct (candidate_unstartable _ _ _ _ _ _ _ _ _ Hrun0 Hev He) as [? _].
      * destruct (IH _ _ Hrun Hev He) as (-> & t & ->). split; [done|].
        eexists. by rewrite (assoc_L (++)).
    + destruct (candidate_unstartable _ _ _ _ _ _ _ _ _ Hrun Hev He)
        as ([= ->] & _ & Ht). done.
Qed.

(** X19 (lines 74-91 under the [try] of line 151). A [cleanvid] that cannot
    be started (any exception of [subprocess.run] that is not a
    [CalledProcessError], such as a missing executable) ends the cycle:
    the exception leaves the cycle and the failed invocation is its last
    call, so the candidates after that one are not handled in that
    cycle. *)
Theorem unstartable_tool_aborts_cycle (s s' : st) (o : outcome unit)
    (tr : list event) (cmd : list string) (e : exn) :
  cycle json_chunks cfg s = (o, s', tr) →
  ERun cmd (Err e) ∈ tr → e ≠ CalledProcessError →
  o = Raise e ∧ ∃ t, tr = t ++ [ERun cmd (Err e)].
Proof.
  intros Hrun Hev Hne.
  assert (is_CalledProcessError e = false) as He by (by destruct e).
  unfold cycle in Hrun. run_inv Hrun.
  - destruct x as [vm sm]. apply scan_quiet in Hrun0 as (_ & Hq & _).
    apply elem_of_app in Hev as [Hev|Hev]; [by specialize (Hq _ Hev)|].
    destruct (candidates_unstartable _ _ _ _ _ _ _ _ Hrun Hev He) as (-> & t & ->).
    split; [done|]. eexists. by rewrite (assoc_L (++)).
  - apply scan_quiet in Hrun as (_ & Hq & _). by specialize (Hq _ Hev).
Qed.

End Unstartable.

(* ===================================================================== *)
(** * Videos and subtitles are different files                             *)
(* ===================================================================== *)

(** Two endings of a string that have the same length are the same. *)
Lemma same_length_suffix (p1 p2 x y : string) :
  p1 +:+ x = p2 +:+ y → String.length x = String.length y → x = y.
Proof.
  revert p2. induction p1 as [|c p1 IH]; intros p2 Heq Hlen.
  - rewrite app_nil_l in Heq. destruct p2 as [|d p2]; [done|].
    apply (f_equal String.length) in Heq.
    rewrite string_length_app in Heq. simpl in Heq. lia.
  - destruct p2 as [|d p2].
    + rewrite app_nil_l in Heq. apply (f_equal String.length) in Heq.
      rewrite string_length_app in Heq. simpl in Heq. lia.
    + rewrite !app_cons in Heq. injection Heq as _ Heq. by eapply IH.
Qed.

Lemma join_ends (a b : string) : ∃ pre, join a b = pre +:+ b.
Proof.
  unfold join. destruct (startswith_char "/" b); [by exists ""|].
  destruct (negb (truthy a) || endswith a "/"); [by exists a|].
  exists (a +:+ "/"). by rewrite app_assoc.
Qed.

(** A path the scanner yields ends, lower-cased, with one of the suffixes. *)
Lemma yielded_suffix (path : string) (sufs vs : list string) (tr : list event)
    (v : string) :
  scanned path sufs (Ok vs) tr → v ∈ vs → endswith_any (lower v) sufs = true.
Proof.
  intros Hs Hv. apply under_root_scanned with (v := v) in Hs as [Hroot _]; [|done].
  destruct Hroot as (d & e & _ & -> & _ & He).
  unfold endswith_any in *. apply existsb_exists in He as (x & Hx & He).
  apply existsb_exists. exists x. split; [done|].
  apply endswith_spec in He as [pre He]. destruct (join_ends d e) as [pre' ->].
  apply endswith_spec. exists (lower pre' +:+ pre).
  by rewrite lower_app, He, app_assoc.
Qed.

(** X18 (lines 39-58 with line 26). No path is both a video and a
    subtitle: whatever the roots and whatever the file system answers,
    a path [find_videos] yields is never yielded by [find_subs]. *)
Theorem scanner_classes_are_disjoint {W : Type} `{HOS : OS W}
    (path path' : string) (s s1 s' s2 : @state W) (vs ss : list string)
    (t1 t2 : list event) :
  find_videos path s = (Ok vs, s1, t1) →
  find_subs path' s' = (Ok ss, s2, t2) →
  ∀ p, p ∈ vs → p ∉ ss.
Proof.
  intros [_ Hv]%find_videos_scanned [_ Hs]%find_subs_scanned p Hpv Hps.
  pose proof (yielded_suffix _ _ _ _ _ Hv Hpv) as Hxv.
  pose proof (yielded_suffix _ _ _ _ _ Hs Hps) as Hxs.
  unfold endswith_any in Hxv, Hxs.
  apply existsb_exists in Hxv as (x & Hx & [p1 H1]%endswith_spec).
  apply existsb_exists in Hxs as (y & Hy & [p2 H2]%endswith_spec).
  destruct Hy as [<-|[]].
  assert (String.length x = String.length ".srt") as Hlen.
  { simpl in Hx. destruct Hx as [<-|[<-|[<-|[<-|[<-|[<-|[<-|[]]]]]]]]; done. }
  rewrite H1 in H2. apply same_length_suffix in H2; [|done]. subst x.
  simpl in Hx. destruct Hx as [?|[?|[?|[?|[?|[?|[?|[]]]]]]]]; done.
Qed.

(* ===================================================================== *)
(** * Where the service looks                                              *)
(* ===================================================================== *)

Section Looks.
Context {W : Type} `{HOS : OS W}.
Variable json_chunks : gmap string entry → list string.
Variable cfg : config.

Local Abbreviation st := (@state W).

Lemma looks_ok_mono (dirs dirs' : list string) (ev : event) :
  dirs ⊆ dirs' → looks_ok dirs ev → looks_ok dirs' ev.
Proof.
  intros Hsub. destruct ev; simpl; try done;
    try (intros (d & e & Hd & ->); exists d, e; split; [by apply Hsub|done]);
    apply Hsub.
Qed.

Lemma looks_ok_scanned (path : string) (sufs : list string)
    (o : outcome (list string)) (tr : list event) :
  scanned path sufs o tr → ∀ ev, ev ∈ tr → looks_ok [path] ev.
Proof.
  intros [[-> _]|[(e & -> & _)|(entries & checks & vs & -> & _ & Hchk & _)]]
    ev Hev; trace_mem Hev; subst; simpl; try by left.
  destruct (Hchk _ Hev) as (e & b & _ & ->). exists path, e. split; [by left|done].
Qed.

Lemma scan_looks (dirs : list string) (vm sm : Dict.t string) (s s' : st) o tr :
  scan dirs vm sm s = (o, s', tr) → ∀ ev, ev ∈ tr → looks_ok dirs ev.
Proof.
  revert vm sm s s' o tr.
  induction dirs as [|d ds IH]; intros vm sm s s' o tr Hrun; simpl in Hrun.
  - run_inv Hrun. intros ev Hev. by apply elem_of_nil in Hev.
  - assert (∀ sufs o1 t1 ev, scanned d sufs o1 t1 → ev ∈ t1 →
              looks_ok (d :: ds) ev) as Hd.
    { intros sufs o1 t1 ev Hs Hev.
      apply (looks_ok_mono [d]); [|by eapply looks_ok_scanned].
      intros z ->%list_elem_of_singleton. by left. }
    assert (∀ ev, looks_ok ds ev → looks_ok (d :: ds) ev) as Hds.
    { intros ev. apply looks_ok_mono. intros z Hz. by right. }
    run_inv Hrun.
    2: { apply find_videos_scanned in Hrun as [_ Hs]. intros ev Hev. eauto. }
    apply find_videos_scanned in Hrun0 as [_ Hs0].
    run_inv Hrun.
    2: { apply find_subs_scanned in Hrun as [_ Hs].
         intros ev [Hev|Hev]%elem_of_app; eauto. }
    apply find_subs_scanned in Hrun0 as [_ Hs1].
    pose proof (IH _ _ _ _ _ _ Hrun) as Hq.
    intros ev Hev. trace_mem Hev; eauto.
Qed.

Lemma candidate_looks (vm sm : Dict.t string) (base vpath : string)
    (s s' : st) o tr :
  maps_ok (watch_dirs cfg) vm sm → (base, vpath) ∈ vm →
  handle_candidate json_chunks cfg sm (base, vpath) s = (o, s', tr) →
  ∀ ev, ev ∈ tr → looks_ok (watch_dirs cfg) ev.
Proof.
  intros [Hvm Hsm] Hin Hrun. destruct (Hvm _ _ Hin) as [_ (dv & ev' & Hdv & Hv & _)].
  assert (∃ d e, d ∈ watch_dirs cfg ∧ vpath = join d e) as Hvp by eauto.
  assert (∀ p, Dict.get base sm = Some p →
               ∃ d e, d ∈ watch_dirs cfg ∧ p = join d e) as Hsp.
  { intros p Hp. destruct (Hsm _ _ Hp) as [_ (d & e & Hd & He & _)]. eauto. }
  assert (∀ ev, probe_ok vpath (Dict.get base sm) ev →
                looks_ok (watch_dirs cfg) ev) as Hprobe.
  { intros ev Hev. destruct ev; cbn [looks_ok probe_ok] in *; try done;
      try (by subst).
    destruct Hev as [->|Hev]; [done|exact (Hsp _ Hev)]. }
  apply candidate_shape in Hrun
    as [[Hq _]|(tq & key & av & sstat & pre & cmd & a & post & op & ts & ->
                & Hq & _ & _ & _ & Hpre & _ & Hpost & _ & Hrec)].
  { intros ev Hev. auto. }
  intros ev Hev. trace_mem Hev.
  - auto.
  - destruct (Hpre _ Hev) as (p & b & Hp & ->). simpl. by apply Hsp.
  - by subst.
  - destruct (Hpost _ Hev) as [_ Hr].
    destruct ev; try done. exact (Hsp _ Hr).
  - destruct op as [[]|e].
    + destruct Hrec as (now & tsave & -> & _ & _ & _ & Hsave).
      apply elem_of_cons in Hev as [->|Hev]; [done|].
      destruct Hsave as [(r & ->)|Htouch].
      * unfold written in Hev. trace_mem Hev; subst; try done.
        by apply list_elem_of_fmap in Hev as (c & -> & _).
      * specialize (Htouch _ Hev). by destruct ev.
    + destruct Hrec as (-> & _). by apply elem_of_nil in Hev.
    + destruct Hrec as (-> & _). by apply elem_of_nil in Hev.
Qed.


End Looks.

(* ===================================================================== *)
(** * A saved store is loaded back                                         *)
(* ===================================================================== *)

Lemma text_of_app (t : string) (c : string) (cs : list string) :
  (t +:+ c) +:+ text_of cs = t +:+ text_of (c :: cs).
Proof. simpl. apply app_assoc. Qed.

Section RoundTrip.
Context {W : Type} `{HOS : OS W}.
Variable json_chunks : gmap string entry → list string.
Variable json_loads : string → option (gmap string entry).
Variable cfg : config.

Local Abbreviation st := (@state W).

(** The steps of a save that renamed the temporary file with success. *)
Lemma save_db_complete (d : gmap string entry) (s s' : st) o tr :
  save_db json_chunks cfg d s = (o, s', tr) →
  let tmp := processed_db cfg +:+ ".tmp" in
  EReplace tmp (processed_db cfg) (Val tt) ∈ tr →
  ∃ w1 s2 t2 w3,
    os_open_w tmp (world s) = (Val tt, w1)
    ∧ for_each (json_chunks d) (write tmp) (State w1 (db s)) = (Ok tt, s2, t2)
    ∧ os_close tmp (world s2) = (Val tt, w3)
    ∧ os_replace tmp (processed_db cfg) w3 = (Val tt, world s').
Proof.
  intros Hrun tmp Hev. unfold save_db in Hrun. fold tmp in Hrun.
  run_inv Hrun.
  - run_inv Hrun. run_inv Hrun0. run_inv Hrun.
    apply finally_inv in Hrun0 as (o1 & s2 & t2 & o2 & t3 & Hw & Hc & -> & Ho).
    destruct o2 as [[]|e2]; [|done]. subst o1.
    run_inv Hc. run_inv Hrun.
    repeat match goal with u : unit |- _ => destruct u end.
    eexists _, _, _, _. split_and!; [exact Hop|exact Hw|exact Hop0|exact Hop1].
  - exfalso. run_inv Hrun. rewrite (right_id_L [] (++)) in Hev.
    run_inv Hrun0.
    2: { run_inv Hrun0. by apply list_elem_of_singleton in Hev. }
    run_inv Hrun. run_inv Hrun0.
    + apply finally_inv in Hrun as (o1 & s2 & t2 & o2 & t3 & Hw & Hc & -> & Ho).
      apply for_each_write_inv in Hw as (_ & Htouch & _).
      run_inv Hc; run_inv Hrun0; trace_mem Hev; try done; by apply Htouch in Hev.
    + apply finally_inv in Hrun0 as (o1 & s2 & t2 & o2 & t3 & Hw & Hc & -> & Ho).
      apply for_each_write_inv in Hw as (_ & Htouch & _).
      run_inv Hc; trace_mem Hev; try done; by apply Htouch in Hev.
Qed.

(** What the file system guarantees to a writer: opening a file for
    writing empties it, a write appends, closing changes nothing, a
    rename gives the target the text of the source; and to a reader:
    whether a path is a regular file, and what reading it gives, is told
    by its text. *)
Variable content : W → string → option string.
Hypothesis open_w_empty :
  ∀ p w w', os_open_w p w = (Val tt, w') → content w' p = Some "".
Hypothesis write_appends :
  ∀ p chunk w w' t, os_write p chunk w = (Val tt, w') →
    content w p = Some t → content w' p = Some (t +:+ chunk).
Hypothesis close_keeps :
  ∀ p w, content (os_close p w).2 p = content w p.
Hypothesis replace_moves :
  ∀ src dst w w', os_replace src dst w = (Val tt, w') →
    content w' dst = content w src.
Hypothesis isfile_text :
  ∀ p w, (os_isfile p w).1 = bool_decide (is_Some (content w p))
         ∧ content (os_isfile p w).2 p = content w p.
Hypothesis read_text :
  ∀ p w t, content w p = Some t → (os_read p w).1 = Val t.

Lemma writes_append (tmp : string) (chunks : list string) (s s' : st) tr (t : string) :
  for_each chunks (write tmp) s = (Ok tt, s', tr) →
  content (world s) tmp = Some t →
  content (world s') tmp = Some (t +:+ text_of chunks).
Proof.
  revert s tr t. induction chunks as [|c cs IH]; intros s tr t Hrun Ht;
    simpl in Hrun.
  - run_inv Hrun. simpl. by rewrite app_nil_r.
  - run_inv Hrun. run_inv Hrun0. rewrite <- text_of_app.
    eapply IH; [exact Hrun|]. simpl. destruct a. by eapply write_appends.
Qed.


End RoundTrip.

(* ===================================================================== *)
(** * The theorems on concrete runs                                        *)
(* ===================================================================== *)



Lemma loop_writes_only_its_store_witness :
  let r := main_loop MemOS.chunks MemOS.cfg0 1 MemOS.s0 in
  (∀ ev, ev ∈ r.2 → store_call_ok MemOS.cfg0 ev)
  ∧ EReplace "/data/.cleanvid_processed.json.tmp" "/data/.cleanvid_processed.json"
      (Val tt) ∈ r.2.
Proof.
  intros r. subst r.
  destruct (main_loop MemOS.chunks MemOS.cfg0 1 MemOS.s0) as [[o s'] tr] eqn:E.
  split.
  - exact (loop_writes_only_its_store _ _ _ _ _ _ _ E).
  - pose proof E as E'. vm_compute in E'. injection E' as Ho Hs Ht. clear Hs.
    rewrite <- Ht. apply (list_elem_of_lookup_2 _ 30%nat). reflexivity.
Defined.

Lemma moves_follow_a_successful_run_witness :
  let r := main_loop MemOS.chunks MemOS.cfg_move 1 (State MemOS.w0 ∅) in
  obeys (move_ok MemOS.cfg_move) r.2
  ∧ EMove "/data/in/movie.mkv" "/data/processed/movie.mkv" (Val tt) ∈ r.2.
Proof.
  intros r. subst r.
  destruct (main_loop MemOS.chunks MemOS.cfg_move 1 (State MemOS.w0 ∅))
    as [[o s'] tr] eqn:E.
  split.
  - exact (proj1 (moves_follow_a_successful_run _ _ _ _ _ _ _ E)).
  - pose proof E as E'. vm_compute in E'. injection E' as Ho Hs Ht. clear Hs.
    rewrite <- Ht. apply (list_elem_of_lookup_2 _ 19%nat). reflexivity.
Defined.


Lemma store_only_grows_witness :
  let r := main_loop MemOS.chunks MemOS.cfg0 2 (State MemOS.w0 MemOS.db1) in
  is_Some (db r.1.2 !! "/data/in/movie.mkv").
Proof.
  intros r. subst r.
  destruct (main_loop MemOS.chunks MemOS.cfg0 2 (State MemOS.w0 MemOS.db1))
    as [[o s'] tr] eqn:E.
  destruct (store_only_grows _ _ _ _ _ _ _ E) as [Hgrow _].
  apply Hgrow. simpl. by eexists.
Defined.


Lemma startup_creates_directories_witness :
  let r := startup MemOS.loads MemOS.cfg0 MemOS.s0 in
  ∃ tl, r.2 = tl ++ created ["/data/in"; "/data/usb1"; "/data/out"; "/data/processed"].
Proof.
  intros r. subst r.
  destruct (startup MemOS.loads MemOS.cfg0 MemOS.s0) as [[o s'] tr] eqn:E.
  destruct (startup_creates_directories MemOS.chunks _ _ _ _ _ _ E)
    as (sl & tl & tm & _ & Htr & Hcase & _).
  pose proof E as E'. vm_compute in E'. injection E' as Ho Hs Ht. clear Hs Ht.
  destruct Hcase as [[_ ->]|(e & made & d & rest & -> & _)]; [|done].
  by exists tl.
Defined.


Lemma unlistable_root_aborts_cycle_witness :
  let w := FaultyOS.Faulty MemOS.w0 ["/data/usb1"] [] [] in
  let r := cycle MemOS.chunks MemOS.cfg0 (State w ∅) in
  r.1.1 = Raise OSError ∧ ∀ ev, ev ∈ r.2 → is_quiet ev = true.
Proof.
  intros w r. subst r w.
  destruct (cycle MemOS.chunks MemOS.cfg0
              (State (FaultyOS.Faulty MemOS.w0 ["/data/usb1"] [] []) ∅))
    as [[o s'] tr] eqn:E.
  pose proof E as E'. vm_compute in E'. injection E' as _ Hs Ht. clear Hs.
  assert (EListdir "/data/usb1" (Err OSError) ∈ tr) as Hev.
  { rewrite <- Ht. apply (list_elem_of_lookup_2 _ 11%nat). reflexivity. }
  clear Ht.
  destruct (unlistable_root_aborts_cycle _ _ _ _ _ _ _ _ E Hev)
    as (Ho & _ & _ & _ & Hq).
  cbn [fst snd]. split; [exact Ho|exact Hq].
Defined.

(** The in-memory file system keeps the guarantees of a writer. *)
Lemma mem_open_w_empty (p : string) (w w' : MemOS.mem) :
  MemOS.m_open_w p w = (Val tt, w') → MemOS.content w' p = Some "".
Proof.
  unfold MemOS.m_open_w. intros [= <-]. unfold MemOS.content. simpl.
  by rewrite lookup_insert_eq.
Qed.

Lemma mem_write_appends (p chunk : string) (w w' : MemOS.mem) (t : string) :
  MemOS.m_write p chunk w = (Val tt, w') →
  MemOS.content w p = Some t → MemOS.content w' p = Some (t +:+ chunk).
Proof.
  unfold MemOS.m_write, MemOS.content.
  destruct (MemOS.files w !! p) as [[text time]|]; [|done].
  intros [= <-] [= <-]. simpl. by rewrite lookup_insert_eq.
Qed.

Lemma mem_close_keeps (p : string) (w : MemOS.mem) :
  MemOS.content (MemOS.m_close p w).2 p = MemOS.content w p.
Proof. done. Qed.

Lemma mem_replace_moves (src dst : string) (w w' : MemOS.mem) :
  MemOS.m_move src dst w = (Val tt, w') →
  MemOS.content w' dst = MemOS.content w src.
Proof.
  unfold MemOS.m_move, MemOS.content.
  destruct (MemOS.files w !! src) as [f|]; [|done].
  intros [= <-]. simpl. by rewrite lookup_insert_eq.
Qed.

Lemma mem_read_text (p : string) (w : MemOS.mem) (t : string) :
  MemOS.content w p = Some t → (MemOS.m_read p w).1 = Val t.
Proof.
  unfold MemOS.content, MemOS.m_read.
  destruct (MemOS.files w !! p) as [[text time]|]; [|done]. by intros [= <-].
Qed.


Lemma cycle_cleans_each_stem_once_witness :
  let r := cycle MemOS.chunks MemOS.cfg0 (State MemOS.w2 ∅) in
  NoDup (run_inputs r.2) ∧ run_inputs r.2 = ["/data/usb1/movie.avi"].
Proof.
  intros r. subst r.
  destruct (cycle MemOS.chunks MemOS.cfg0 (State MemOS.w2 ∅)) as [[o s'] tr] eqn:E.
  destruct (cycle_cleans_each_stem_once _ _ _ _ _ _ E) as [_ Hnd].
  split; [exact Hnd|].
  pose proof E as E'. vm_compute in E'. injection E' as _ Hs Ht. clear Hs.
  by rewrite <- Ht.
Defined.

Lemma scanner_classes_are_disjoint_witness :
  "/data/in/movie.mkv" ∉ ["/data/in/movie.srt"].
Proof.
  apply (scanner_classes_are_disjoint (W := MemOS.mem) "/data/in" "/data/in"
           MemOS.s0 MemOS.s0 MemOS.s0 MemOS.s0 ["/data/in/movie.mkv"]
           ["/data/in/movie.srt"]
           (find_videos "/data/in" MemOS.s0).2 (find_subs "/data/in" MemOS.s0).2).
  - vm_compute. reflexivity.
  - vm_compute. reflexivity.
  - left.
Defined.

Lemma unstartable_tool_aborts_cycle_witness :
  let r := cycle MemOS.chunks MemOS.cfg0 (State MemOS.w_missing ∅) in
  r.1.1 = Raise OSError ∧ is_run <$> last r.2 = Some true.
Proof.
  intros r. subst r.
  destruct (cycle MemOS.chunks MemOS.cfg0 (State MemOS.w_missing ∅))
    as [[o s'] tr] eqn:E.
  pose proof E as E'. vm_compute in E'. injection E' as _ Hs Ht. clear Hs.
  assert (ERun ["cleanvid"; "-i"; "/data/in/movie.mkv"; "-o";
                "/data/in/movie_clean.mkv"; "-w"; "/data/swears.txt";
                "-s"; "/data/in/movie.srt"] (Err OSError) ∈ tr) as Hev.
  { rewrite <- Ht. apply (list_elem_of_lookup_2 _ 23%nat). reflexivity. }
  clear Ht.
  destruct (unstartable_tool_aborts_cycle _ _ _ _ _ _ _ _ E Hev) as (Ho & t & Ht);
    [done|].
  cbn [fst snd]. split; [exact Ho|]. rewrite Ht, last_snoc. reflexivity.
Defined.


Example read_config_ex :
  (read_config ∅ "/app/cleanvid/service.py" 10 MemOS.s0).1.1
  = Ok (Config ["/data/in"; "/data/usb1"; "/data/usb2"] "/data/out"
          "/data/processed" 10 true true "/app/cleanvid/swears.txt"
          "/data/.cleanvid_processed.json")
  ∧ (read_config {["CLEANVID_PRESERVE_INPUT" := "no"; "CLEANVID_SWEARS_FILE" := "/w.txt"]}
       "/app/cleanvid/service.py" 10 MemOS.s0)
    = (Ok (Config ["/data/in"; "/data/usb1"; "/data/usb2"] "/data/out"
             "/data/processed" 10 false true "/w.txt"
             "/data/.cleanvid_processed.json"), MemOS.s0, []).
Proof. by vm_compute. Qed.

(** A store file that cannot be written: the video is cleaned and
    recorded in memory, the save fails at its first call, nothing is
    raised. *)
Example failed_save_ex :
  let w := FaultyOS.Faulty MemOS.w0 [] [] ["/data/.cleanvid_processed.json.tmp"] in
  let r := handle_candidate MemOS.chunks MemOS.cfg0 []
             ("movie", "/data/in/movie.mkv") (State w ∅) in
  r.1.1 = Ok tt ∧ db r.1.2 = {["/data/in/movie.mkv" :=
                                 Entry (Some (Fingerprint 10 100)) None 1001]}
  ∧ last r.2 = Some (EOpenW "/data/.cleanvid_processed.json.tmp" (Err OSError)).
Proof. by vm_compute. Qed.

(** A processed directory that cannot be created: [cleanvid] succeeds,
    the exception leaves the loop body, nothing is recorded, and the
    next cycle cleans the video again. *)
Example failed_makedirs_ex :
  let w := FaultyOS.Faulty MemOS.w0 [] ["/data/processed"] [] in
  let r := handle_candidate MemOS.chunks MemOS.cfg_move []
             ("movie", "/data/in/movie.mkv") (State w ∅) in
  r.1.1 = Raise OSError ∧ db r.1.2 = ∅
  ∧ length (List.filter is_run
              (main_loop MemOS.chunks MemOS.cfg_move 2 (State w ∅)).2) = 2%nat.
Proof. by vm_compute. Qed.

(** A watch root that cannot be created: [main] ends before its loop. *)
Example failed_startup_ex :
  let w := FaultyOS.Faulty MemOS.w0 [] ["/data/usb1"] [] in
  (main MemOS.chunks MemOS.loads MemOS.cfg0 5 (State w ∅)).1.1 = Raise OSError
  ∧ (main MemOS.chunks MemOS.loads MemOS.cfg0 5 (State w ∅)).2
    = [EIsfile "/data/.cleanvid_processed.json" false;
       EMakedirs "/data/in" (Val tt); EMakedirs "/data/usb1" (Err OSError)].
Proof. by vm_compute. Qed.

(* ===================================================================== *)
(** * The service on a small file system                                   *)
(* ===================================================================== *)

(** [movie.mkv] alone in the watch root, inputs moved after success: the
    first cycle cleans it into the output directory, records it without
    subtitle fingerprint and moves it to the processed directory; the
    second cycle finds the watch root empty. *)
Example lone_movie_ex :
  let cfg := Config ["/data/in"] "/data/out" "/data/processed" 10 false false
               "/data/swears.txt" "/data/db.json" in
  let w := MemOS.Mem (list_to_map [("/data/in/movie.mkv", ("0123456789", 100))])
             {["/data/in"]} 1000 [] (Val 0) in
  let r := main MemOS.chunks MemOS.loads cfg 1 (State w ∅) in
  r.1.1 = Ok tt
  ∧ db r.1.2 = {["/data/in/movie.mkv" := Entry (Some (Fingerprint 10 100)) None 1001]}
  ∧ MemOS.content (world r.1.2) "/data/in/movie.mkv" = None
  ∧ MemOS.content (world r.1.2) "/data/processed/movie.mkv" = Some "0123456789"
  ∧ MemOS.content (world r.1.2) "/data/out/movie_clean.mkv" = Some "clean"
  ∧ (cycle MemOS.chunks cfg r.1.2).2 =
      [EIsdir "/data/in" true; EListdir "/data/in" (Val []);
       EIsdir "/data/in" true; EListdir "/data/in" (Val [])].
Proof. by vm_compute. Qed.
